(** * camunda-schema-bundler: helpers and the bundling pipeline

    A shallow embedding of [src/helpers.ts] and [src/bundle.ts].

    Conventions of the embedding.
    - A JavaScript string is a [string]: the sequence of the bytes of its
      UTF-8 encoding.  Comparison of strings is comparison of these bytes.
    - A JSON number is an integer ([Z]); the documents carry no fractions
      in the places the bundler looks at.
    - An object is the list of its own enumerable properties in the order
      [Object.keys] enumerates them; keys are unique in a well-formed
      object ([wf]).  Members inherited from [Object.prototype] are not
      part of the model.
    - Objects and arrays that the pipeline mutates live in a [store];
      a value refers to them by address, so identity and aliasing are
      those of the program. *)

From Stdlib Require Import ZArith Ascii String List Permutation Lia Bool.
From stdpp Require Import gmap strings list sorting pretty.

Local Open Scope string_scope.

(** ** Strings *)

Module Str.

(** [s.startsWith(p)] *)
Fixpoint startsWith (s p : string) {struct p} : bool :=
  match p with
  | EmptyString => true
  | String c p' =>
      match s with
      | EmptyString => false
      | String d s' => if Ascii.eqb c d then startsWith s' p' else false
      end
  end.

(** [s.includes(c)] for a one-character needle *)
Fixpoint includes (s : string) (c : ascii) : bool :=
  match s with
  | EmptyString => false
  | String d s' => if Ascii.eqb c d then true else includes s' c
  end.

(** [s.includes(p)] *)
Fixpoint includesStr (s p : string) : bool :=
  if startsWith s p then true
  else match s with
       | EmptyString => false
       | String _ s' => includesStr s' p
       end.

(** [s.endsWith(p)], the test behind a regular expression [/p$/] for a
    literal [p] *)
Definition endsWith (s p : string) : bool :=
  startsWith (String.rev s) (String.rev p).

(** [s.slice(n)] *)
Fixpoint slice (n : nat) (s : string) : string :=
  match n, s with
  | O, _ => s
  | S n', String _ s' => slice n' s'
  | S _, EmptyString => EmptyString
  end.

(** [s.split(c)]: never empty, one more piece than separators *)
Fixpoint split_go (c : ascii) (cur : string) (s : string) : list string :=
  match s with
  | EmptyString => [String.rev cur]
  | String d s' =>
      if Ascii.eqb c d then String.rev cur :: split_go c EmptyString s'
      else split_go c (String d cur) s'
  end.
Definition split (c : ascii) (s : string) : list string :=
  split_go c EmptyString s.

(** [s.replace(/a/g, b)] for a literal pattern [a] of two characters *)
Fixpoint replace2 (a1 a2 : ascii) (b : ascii) (s : string) : string :=
  match s with
  | String c1 ((String c2 s'') as s') =>
      if Ascii.eqb c1 a1 && Ascii.eqb c2 a2 then String b (replace2 a1 a2 b s'')
      else String c1 (replace2 a1 a2 b s')
  | _ => s
  end.

End Str.

(** ** JSON values *)

(** The numbers of a document are integers: a number that JavaScript holds
    as a double without being an integer (or prints with an exponent, from
    1e21 on) is outside of the model. *)
Unset Elimination Schemes.
Inductive json : Type :=
| JNull
| JBool (b : bool)
| JNum (n : Z)
| JStr (s : string)
| JArr (items : list json)
| JObj (props : list (string * json)).
Set Elimination Schemes.

Section json_induction.
Variable P : json → Prop.
Hypothesis Hnull : P JNull.
Hypothesis Hbool : ∀ b, P (JBool b).
Hypothesis Hnum : ∀ n, P (JNum n).
Hypothesis Hstr : ∀ s, P (JStr s).
Hypothesis Harr : ∀ items, Forall P items → P (JArr items).
Hypothesis Hobj : ∀ props, Forall (λ kv, P kv.2) props → P (JObj props).

Fixpoint json_ind (v : json) : P v :=
  match v with
  | JNull => Hnull
  | JBool b => Hbool b
  | JNum n => Hnum n
  | JStr s => Hstr s
  | JArr items =>
      Harr items
        ((fix go (l : list json) : Forall P l :=
            match l with
            | [] => Forall_nil_2 P
            | x :: l' => Forall_cons_2 P x l' (json_ind x) (go l')
            end) items)
  | JObj props =>
      Hobj props
        ((fix go (l : list (string * json)) : Forall (λ kv, P kv.2) l :=
            match l with
            | [] => Forall_nil_2 _
            | kv :: l' => Forall_cons_2 _ kv l' (json_ind kv.2) (go l')
            end) props)
  end.
End json_induction.

(** ** Property lists: the own properties of a JavaScript object *)

Module Obj.
Section ops.
Context {V : Type}.

(** [o[k]] for an own property; [None] is [undefined] *)
Fixpoint get (k : string) (o : list (string * V)) : option V :=
  match o with
  | [] => None
  | (k', v) :: o' => if String.eqb k k' then Some v else get k o'
  end.

Definition has (k : string) (o : list (string * V)) : bool :=
  match get k o with Some _ => true | None => false end.

Definition keys (o : list (string * V)) : list string := map fst o.
Definition values (o : list (string * V)) : list V := map snd o.

(** overwrite the value of an existing own property, in place *)
Fixpoint update (k : string) (v : V) (o : list (string * V)) : list (string * V) :=
  match o with
  | [] => []
  | (k', v') :: o' =>
      if String.eqb k k' then (k', v) :: o' else (k', v') :: update k v o'
  end.

(** [delete o[k]] *)
Fixpoint delete (k : string) (o : list (string * V)) : list (string * V) :=
  match o with
  | [] => []
  | (k', v') :: o' =>
      if String.eqb k k' then o' else (k', v') :: delete k o'
  end.
End ops.

(** A canonical array index: "0", or digits without a leading zero, of
    value at most 2^32 - 2.  Such keys are enumerated first, in numeric
    order, whatever the order of creation. *)
Definition digit (c : ascii) : option N :=
  let n := N_of_ascii c in
  if ((48 <=? n) && (n <=? 57))%N then Some (n - 48)%N else None.

Fixpoint digits (acc : N) (s : string) : option N :=
  match s with
  | EmptyString => Some acc
  | String c s' =>
      match digit c with
      | Some d => digits (acc * 10 + d)%N s'
      | None => None
      end
  end.

Definition array_index (k : string) : option N :=
  match k with
  | EmptyString => None
  | String c s' =>
      if Ascii.eqb c "0" then
        match s' with EmptyString => Some 0%N | _ => None end
      else match digits 0 k with
           | Some n => if (n <=? 4294967294)%N then Some n else None
           | None => None
           end
  end.

Section set.
Context {V : Type}.

(** place a new index key after the smaller index keys *)
Fixpoint insert_index (n : N) (k : string) (v : V) (o : list (string * V))
  : list (string * V) :=
  match o with
  | [] => [(k, v)]
  | (k', v') :: o' =>
      match array_index k' with
      | Some n' =>
          if (n' <? n)%N then (k', v') :: insert_index n k v o'
          else (k, v) :: o
      | None => (k, v) :: o
      end
  end.

(** CreateDataProperty, as object spread uses it: an own property is
    overwritten in place, a new one takes its place in the enumeration
    order. *)
Definition define (k : string) (v : V) (o : list (string * V)) : list (string * V) :=
  if has k o then update k v o
  else match array_index k with
       | Some n => insert_index n k v o
       | None => o ++ [(k, v)]
       end.

(** [o[k] = v] on an ordinary object whose prototype chain ends in
    [Object.prototype]: as [define], except that without an own
    property ["__proto__"] the assignment to that key goes to the
    inherited setter and creates no property at all. *)
Definition set (k : string) (v : V) (o : list (string * V)) : list (string * V) :=
  if negb (has k o) && String.eqb k "__proto__" then o
  else define k v o.
End set.
End Obj.

(** ** helpers.ts: canonical serialization *)

(** [Array.prototype.sort()] without a comparator orders strings by their
    UTF-16 code units; here the strings are UTF-8 text ordered by their
    bytes, which is the same order except between a character outside of
    the Basic Multilingual Plane and one from U+E000 to U+FFFF. *)
Definition sort_strings (l : list string) : list string :=
  merge_sort String.le l.

(** Deep-sort object keys recursively for canonical comparison.  The
    recursive call on [obj[key]] is taken on the property list beforehand,
    so that the recursion is structural; [reduce] then builds the result by
    assignment, key after key. *)
Fixpoint sortKeys (obj : json) : json :=
  match obj with
  | JArr items => JArr (map sortKeys items)
  | JObj props =>
      let sorted :=
        (fix go (l : list (string * json)) : list (string * json) :=
           match l with
           | [] => []
           | (k, v) :: l' => (k, sortKeys v) :: go l'
           end) props in
      JObj (fold_left
              (λ acc key,
                 match Obj.get key sorted with
                 | Some v => Obj.set key v acc
                 | None => acc
                 end)
              (sort_strings (Obj.keys props)) [])
  | _ => obj
  end.

(** [JSON.stringify]: the compact form.  Each function prepends its text to
    the continuation [k]. *)
Module JSON.

(** the double quote and the backslash *)
Definition DQ : ascii := Eval cbv in ascii_of_nat 34.
Definition BS : ascii := Eval cbv in ascii_of_nat 92.

Definition hex_digit (n : N) : ascii :=
  ascii_of_N (if (n <? 10)%N then 48 + n else 87 + n)%N.

(** QuoteJSONString, one character *)
Definition quote_char (c : ascii) (k : string) : string :=
  let n := N_of_ascii c in
  if (n =? 34)%N then String BS (String DQ k)
  else if (n =? 92)%N then String BS (String BS k)
  else if (n =? 8)%N then String BS (String "b" k)
  else if (n =? 9)%N then String BS (String "t" k)
  else if (n =? 10)%N then String BS (String "n" k)
  else if (n =? 12)%N then String BS (String "f" k)
  else if (n =? 13)%N then String BS (String "r" k)
  else if (n <? 32)%N then
    String BS (String "u" (String "0" (String "0"
      (String (hex_digit (n / 16)) (String (hex_digit (n mod 16)) k)))))
  else String c k.

Fixpoint quote_body (s : string) (k : string) : string :=
  match s with
  | EmptyString => String DQ k
  | String c s' => quote_char c (quote_body s' k)
  end.

Definition quote (s : string) (k : string) : string :=
  String DQ (quote_body s k).

Fixpoint write (v : json) (k : string) : string :=
  match v with
  | JNull => String "n" (String "u" (String "l" (String "l" k)))
  | JBool true => String "t" (String "r" (String "u" (String "e" k)))
  | JBool false =>
      String "f" (String "a" (String "l" (String "s" (String "e" k))))
  | JNum n => pretty n +:+ k
  | JStr s => quote s k
  | JArr items =>
      String "["
        ((fix go (first : bool) (l : list json) : string :=
            match l with
            | [] => String "]" k
            | x :: l' =>
                if first then write x (go false l')
                else String "," (write x (go false l'))
            end) true items)
  | JObj props =>
      String "{"
        ((fix go (first : bool) (l : list (string * json)) : string :=
            match l with
            | [] => String "}" k
            | (key, x) :: l' =>
                if first then quote key (String ":" (write x (go false l')))
                else String "," (quote key (String ":" (write x (go false l'))))
            end) true props)
  end.

Definition stringify (v : json) : string := write v EmptyString.

End JSON.

(** Produce a canonical JSON string (sorted keys) for signature matching. *)
Definition canonicalStringify (obj : json) : string :=
  JSON.stringify (sortKeys obj).

(** Strip metadata fields (description, title) from a schema tree. *)
Fixpoint stripMetadata (obj : json) : json :=
  match obj with
  | JArr items => JArr (map stripMetadata items)
  | JObj props =>
      JObj ((fix go (l : list (string * json)) (result : list (string * json))
               : list (string * json) :=
               match l with
               | [] => result
               | (key, val) :: l' =>
                   if String.eqb key "description" || String.eqb key "title"
                   then go l' result
                   else go l' (Obj.set key (stripMetadata val) result)
               end) props [])
  | _ => obj
  end.

(** Canonical JSON string ignoring metadata (description, title). *)
Definition structuralStringify (obj : json) : string :=
  JSON.stringify (sortKeys (stripMetadata obj)).

(** ** helpers.ts: percent-decoding of internal references *)

(** [decodeURIComponent]: every escape [%XX] is replaced by its byte; a
    byte above 127 has to start a well-formed UTF-8 sequence whose other
    bytes are escapes too.  Anything else raises [URIError], here [None].
    The result is the UTF-8 text of the decoded string. *)
Module URI.

Definition hexval (c : ascii) : option N :=
  let n := N_of_ascii c in
  if ((48 <=? n) && (n <=? 57))%N then Some (n - 48)%N
  else if ((65 <=? n) && (n <=? 70))%N then Some (n - 55)%N
  else if ((97 <=? n) && (n <=? 102))%N then Some (n - 87)%N
  else None.

Inductive item := Raw (c : ascii) | Esc (b : N).

Fixpoint unescape (s : string) : option (list item) :=
  match s with
  | EmptyString => Some []
  | String c s1 =>
      if Ascii.eqb c "%" then
        match s1 with
        | String h (String l s3) =>
            match hexval h, hexval l with
            | Some a, Some b =>
                match unescape s3 with
                | Some r => Some (Esc (16 * a + b)%N :: r)
                | None => None
                end
            | _, _ => None
            end
        | _ => None
        end
      else
        match unescape s1 with
        | Some r => Some (Raw c :: r)
        | None => None
        end
  end.

Definition between (lo hi b : N) : bool := ((lo <=? b) && (b <=? hi))%N.

(** the second byte of a three- or four-byte sequence, by its first *)
Definition second3 (b0 b1 : N) : bool :=
  if (b0 =? 224)%N then between 160 191 b1
  else if (b0 =? 237)%N then between 128 159 b1
  else between 128 191 b1.
Definition second4 (b0 b1 : N) : bool :=
  if (b0 =? 240)%N then between 144 191 b1
  else if (b0 =? 244)%N then between 128 143 b1
  else between 128 191 b1.

Definition byte (b : N) : ascii := ascii_of_N b.

Fixpoint utf8 (l : list item) : option string :=
  match l with
  | [] => Some EmptyString
  | Raw c :: r =>
      match utf8 r with Some t => Some (String c t) | None => None end
  | Esc b0 :: r =>
      if (b0 <? 128)%N then
        match utf8 r with Some t => Some (String (byte b0) t) | None => None end
      else if between 194 223 b0 then
        match r with
        | Esc b1 :: r' =>
            if between 128 191 b1 then
              match utf8 r' with
              | Some t => Some (String (byte b0) (String (byte b1) t))
              | None => None
              end
            else None
        | _ => None
        end
      else if between 224 239 b0 then
        match r with
        | Esc b1 :: Esc b2 :: r' =>
            if second3 b0 b1 && between 128 191 b2 then
              match utf8 r' with
              | Some t =>
                  Some (String (byte b0) (String (byte b1) (String (byte b2) t)))
              | None => None
              end
            else None
        | _ => None
        end
      else if between 240 244 b0 then
        match r with
        | Esc b1 :: Esc b2 :: Esc b3 :: r' =>
            if second4 b0 b1 && between 128 191 b2 && between 128 191 b3 then
              match utf8 r' with
              | Some t =>
                  Some (String (byte b0) (String (byte b1)
                          (String (byte b2) (String (byte b3) t))))
              | None => None
              end
            else None
        | _ => None
        end
      else None
  end.

Definition decodeURIComponent (s : string) : option string :=
  match unescape s with
  | Some l => utf8 l
  | None => None
  end.

End URI.

(** Decode a URI-encoded internal $ref. *)
Definition normalizeInternalRef (ref : string) : string :=
  if negb (Str.startsWith ref "#") || negb (Str.includes ref "%") then ref
  else match URI.decodeURIComponent (Str.slice 1 ref) with
       | Some d => String "#" d
       | None => ref
       end.

(** Decode a JSON Pointer segment; [None] when [decodeURIComponent] raises. *)
Definition jsonPointerDecode (segment : string) : option string :=
  URI.decodeURIComponent
    (Str.replace2 "~" "0" "~" (Str.replace2 "~" "1" "/" segment)).

(** ** helpers.ts: the hash of a directory tree *)

(** A directory entry is a regular file with its bytes, a directory with
    the entries [readdirSync] lists, in the order it lists them, or
    something else (a link, a socket). *)
Unset Elimination Schemes.
Inductive fsnode : Type :=
| File (content : string)
| Dir (entries : list (string * fsnode))
| Other.
Set Elimination Schemes.

Section fsnode_induction.
Variable P : fsnode → Prop.
Hypothesis Hfile : ∀ c, P (File c).
Hypothesis Hother : P Other.
Hypothesis Hdir : ∀ entries, Forall (λ e, P e.2) entries → P (Dir entries).

Fixpoint fsnode_ind (n : fsnode) : P n :=
  match n with
  | File c => Hfile c
  | Other => Hother
  | Dir entries =>
      Hdir entries
        ((fix go (l : list (string * fsnode)) : Forall (λ e, P e.2) l :=
            match l with
            | [] => Forall_nil_2 _
            | e :: l' => Forall_cons_2 _ e l' (fsnode_ind e.2) (go l')
            end) entries)
  end.
End fsnode_induction.

Fixpoint fs_size (n : fsnode) : nat :=
  match n with
  | Dir entries =>
      S ((fix go (l : list (string * fsnode)) : nat :=
            match l with
            | [] => O
            | (_, x) :: l' => (fs_size x + go l')%nat
            end) entries)
  | _ => 1%nat
  end.

(** [path.join(cur, name)] for a normalized [cur] and an entry name *)
Definition path_join (cur name : string) : string :=
  cur +:+ String "/" name.

(** [path.relative(rootDir, abs)] for a path below [rootDir] *)
Definition path_relative (rootDir abs : string) : string :=
  Str.slice (S (String.length rootDir)) abs.

(** The body of the [for] loop of [listFilesRecursive] over the entries of
    [cur]: directories go onto the stack, files into [out].  A stack item
    is a directory path with the directory it names, and [out] holds each
    file path with the bytes [readFileSync] returns for it. *)
Fixpoint list_entries (cur : string) (entries : list (string * fsnode))
    (stack : list (string * list (string * fsnode)))
    (out : list (string * string))
  : list (string * list (string * fsnode)) * list (string * string) :=
  match entries with
  | [] => (stack, out)
  | (name, e) :: rest =>
      let p := path_join cur name in
      match e with
      | Dir sub => list_entries cur rest ((p, sub) :: stack) out
      | File content => list_entries cur rest stack (out ++ [(p, content)])
      | Other => list_entries cur rest stack out
      end
  end.

(** [while (stack.length)]: the head of the list is the top of the stack *)
Fixpoint list_loop (fuel : nat) (stack : list (string * list (string * fsnode)))
    (out : list (string * string)) : option (list (string * string)) :=
  match stack with
  | [] => Some out
  | (cur, entries) :: stack' =>
      match fuel with
      | O => None
      | S fuel' =>
          let '(stack'', out') := list_entries cur entries stack' out in
          list_loop fuel' stack'' out'
      end
  end.

(** the order of [out.sort()] on the paths, by the bytes of the UTF-8
    text as for [sort_strings] *)
Definition path_le (a b : string * string) : Prop := String.le a.1 b.1.
#[global] Instance path_le_dec : RelDecision path_le.
Proof. intros a b. unfold path_le. apply _. Defined.

(** Recursively list all files under a directory (sorted for determinism).
    [None] when [dir] is no directory ([readdirSync] raises). *)
Definition listFilesRecursive (dir : string) (root : fsnode)
  : option (list (string * string)) :=
  match root with
  | Dir entries =>
      match list_loop (fs_size root) [(dir, entries)] [] with
      | Some out => Some (merge_sort path_le out)
      | None => None
      end
  | _ => None
  end.

Section hash.
(** SHA-256 of a byte string, in hexadecimal ([node:crypto]) *)
Variable sha256_hex : string → string.

(** what the successive [hash.update] calls feed to the hash *)
Fixpoint hash_input (rootDir : string) (files : list (string * string)) : string :=
  match files with
  | [] => EmptyString
  | (abs, content) :: rest =>
      path_relative rootDir abs +:+ content +:+ hash_input rootDir rest
  end.

(** Compute a deterministic SHA-256 hash of an entire directory tree. *)
Definition hashDirectoryTree (rootDir : string) (root : fsnode) : option string :=
  match listFilesRecursive rootDir root with
  | Some files => Some ("sha256:" +:+ sha256_hex (hash_input rootDir files))
  | None => None
  end.
End hash.

(** ** The store: objects and arrays with identity *)

(** an address of the store *)
Abbreviation loc := nat.

Inductive val : Type :=
| VNull
| VBool (b : bool)
| VNum (n : Z)
| VStr (s : string)
| VRef (l : loc).

Inductive cell : Type :=
| CObj (props : list (string * val))
| CArr (items : list val).

Record store := Store { cells : gmap loc cell; next : loc }.

Definition empty_store : store := Store ∅ O.

(** How a computation ends: with a value, with a raised exception, not
    within the steps granted to it, or outside of what is modelled (an
    array or a primitive used where the pipeline keeps named properties). *)
Inductive outcome (A : Type) : Type :=
| Ret (a : A)
| Throw (msg : string)
| OutOfFuel
| Unmodelled.
Arguments Ret {A} a.
Arguments Throw {A} msg.
Arguments OutOfFuel {A}.
Arguments Unmodelled {A}.

Definition M (A : Type) : Type := store → outcome (A * store).

#[global] Instance M_ret : MRet M := λ A a σ, Ret (a, σ).
#[global] Instance M_bind : MBind M := λ A B f m σ,
  match m σ with
  | Ret (a, σ') => f a σ'
  | Throw msg => Throw msg
  | OutOfFuel => OutOfFuel
  | Unmodelled => Unmodelled
  end.

Definition throw {A} (msg : string) : M A := λ _, Throw msg.
Definition out_of_fuel {A} : M A := λ _, OutOfFuel.
Definition unmodelled {A} : M A := λ _, Unmodelled.
Definition get_cells : M (gmap loc cell) := λ σ, Ret (cells σ, σ).

Definition alloc (c : cell) : M val := λ σ,
  Ret (VRef (next σ), Store (<[next σ := c]> (cells σ)) (S (next σ))).

Definition read (l : loc) : M cell := λ σ,
  match cells σ !! l with
  | Some c => Ret (c, σ)
  | None => Throw "TypeError: dangling address"
  end.

Definition write (l : loc) (c : cell) : M unit := λ σ,
  Ret (tt, Store (<[l := c]> (cells σ)) (next σ)).

(** a read-only computation that may exhaust its steps *)
Definition lift_opt {A} (f : gmap loc cell → option A) : M A := λ σ,
  match f (cells σ) with
  | Some a => Ret (a, σ)
  | None => OutOfFuel
  end.

Definition truthy (v : val) : bool :=
  match v with
  | VNull => false
  | VBool b => b
  | VNum n => negb (Z.eqb n 0%Z)
  | VStr s => negb (String.eqb s EmptyString)
  | VRef _ => true
  end.

Definition truthy_opt (o : option val) : bool :=
  match o with Some v => truthy v | None => false end.

(** [c[k]] for an object or an array, for a key that is an own property:
    the members an object inherits from its prototype ([constructor],
    [toString], the accessor [__proto__], the methods of arrays) are not
    modelled and read as [undefined] *)
Definition cell_get (c : cell) (k : string) : option val :=
  match c with
  | CObj props => Obj.get k props
  | CArr items =>
      if String.eqb k "length" then Some (VNum (Z.of_nat (length items)))
      else match Obj.array_index k with
           | Some n => items !! N.to_nat n
           | None => None
           end
  end.

(** [Object.values(c)] *)
Definition cell_values (c : cell) : list val :=
  match c with
  | CObj props => Obj.values props
  | CArr items => items
  end.

(** [Object.entries(c)] *)
Definition cell_entries (c : cell) : list (string * val) :=
  match c with
  | CObj props => props
  | CArr items => imap (λ i v, (pretty i, v)) items
  end.

(** [Object.keys(c).length] *)
Definition cell_size (c : cell) : nat :=
  match c with
  | CObj props => length props
  | CArr items => length items
  end.

(** [typeof c[k] === 'string'] *)
Definition string_prop (c : cell) (k : string) : option string :=
  match cell_get c k with
  | Some (VStr s) => Some s
  | _ => None
  end.

(** [obj['$ref'] = '...'] on an object *)
Definition set_prop (c : cell) (k : string) (v : val) : cell :=
  match c with
  | CObj props => CObj (Obj.set k v props)
  | CArr items => CArr items
  end.

(** [for (const k of Object.keys(obj)) delete obj[k]; obj['$ref'] = ref] *)
Definition ref_cell (ref : string) : cell := CObj [("$ref", VStr ref)].

(** [JSON.parse]: a value in fresh cells *)
Fixpoint load (j : json) : M val :=
  match j with
  | JNull => mret VNull
  | JBool b => mret (VBool b)
  | JNum n => mret (VNum n)
  | JStr s => mret (VStr s)
  | JArr items =>
      vs ← (fix go (l : list json) : M (list val) :=
              match l with
              | [] => mret []
              | x :: l' => v ← load x; vs ← go l'; mret (v :: vs)
              end) items;
      alloc (CArr vs)
  | JObj props =>
      ps ← (fix go (l : list (string * json)) : M (list (string * val)) :=
              match l with
              | [] => mret []
              | (k, x) :: l' => v ← load x; ps ← go l'; mret ((k, v) :: ps)
              end) props;
      alloc (CObj ps)
  end.

(** the JSON value a store value stands for, as [JSON.stringify] reads it;
    [fuel] bounds the depth *)
Fixpoint dump (fuel : nat) (h : gmap loc cell) (v : val) : option json :=
  match v with
  | VNull => Some JNull
  | VBool b => Some (JBool b)
  | VNum n => Some (JNum n)
  | VStr s => Some (JStr s)
  | VRef l =>
      match fuel with
      | O => None
      | S fuel' =>
          match h !! l with
          | None => None
          | Some (CArr items) =>
              match mapM (dump fuel' h) items with
              | Some js => Some (JArr js)
              | None => None
              end
          | Some (CObj props) =>
              match mapM (λ kv, match dump fuel' h kv.2 with
                                | Some j => Some (kv.1, j)
                                | None => None
                                end) props with
              | Some ps => Some (JObj ps)
              | None => None
              end
          end
      end
  end.

(** [JSON.parse(JSON.stringify(v))] *)
Definition deep_copy (fuel : nat) (v : val) : M val :=
  j ← lift_opt (λ h, dump fuel h v); load j.

(** [String(v)] *)
Fixpoint json_toString (j : json) : string :=
  match j with
  | JNull => "null"
  | JBool true => "true"
  | JBool false => "false"
  | JNum n => pretty n
  | JStr s => s
  | JObj _ => "[object Object]"
  | JArr items =>
      (fix go (first : bool) (l : list json) : string :=
         match l with
         | [] => EmptyString
         | x :: l' =>
             (if first then EmptyString else ",")
               +:+ (match x with JNull => EmptyString | _ => json_toString x end)
               +:+ go false l'
         end) true items
  end.

Definition toString (fuel : nat) (v : val) : M string :=
  j ← lift_opt (λ h, dump fuel h v); mret (json_toString j).

(** Resolve an internal $ref against a root document.  [Ret None] is
    [undefined]; [Throw] is the [URIError] of [jsonPointerDecode]. *)
Fixpoint resolve_segments (h : gmap loc cell) (cur : option val)
    (segs : list string) : outcome (option val) :=
  match segs with
  | [] => Ret cur
  | seg :: rest =>
      match cur with
      | Some (VRef l) =>
          match jsonPointerDecode seg with
          | None => Throw "URIError: URI malformed"
          | Some key =>
              match h !! l with
              | Some c => resolve_segments h (cell_get c key) rest
              | None => Throw "TypeError: dangling address"
              end
          end
      | _ => Ret None
      end
  end.

Definition resolveInternalRef (h : gmap loc cell) (root : val) (ref : string)
  : outcome (option val) :=
  if negb (Str.startsWith ref "#/") then Ret None
  else resolve_segments h (Some root) (Str.split "/" (Str.slice 2 ref)).

Definition resolve (root : val) (ref : string) : M (option val) := λ σ,
  match resolveInternalRef (cells σ) root ref with
  | Ret r => Ret (r, σ)
  | Throw msg => Throw msg
  | OutOfFuel => OutOfFuel
  | Unmodelled => Unmodelled
  end.

(** ** helpers.ts: walks over the document *)

Definition COMPONENT_PREFIX : string := "#/components/schemas/".
Definition PATHS_PREFIX : string := "#/paths/".

(** [stack.push] of each value in turn: the last one ends on top *)
Definition push_all (vs : list val) (stack : list val) : list val :=
  rev vs ++ stack.

(** Walk the tree and decode all URI-encoded internal $refs. *)
Fixpoint rewriteInternalRefs_loop (fuel : nat) (stack : list val)
    (seen : gset loc) {struct fuel} : M unit :=
  match stack with
  | [] => mret tt
  | cur :: stack' =>
      match fuel with
      | O => out_of_fuel
      | S fuel' =>
          match cur with
          | VRef l =>
              if decide (l ∈ seen) then rewriteInternalRefs_loop fuel' stack' seen
              else
                c ← read l;
                match c with
                | CArr items =>
                    rewriteInternalRefs_loop fuel' (push_all items stack')
                      ({[l]} ∪ seen)
                | CObj _ =>
                    let c' :=
                      match string_prop c "$ref" with
                      | Some r => set_prop c "$ref" (VStr (normalizeInternalRef r))
                      | None => c
                      end in
                    write l c';;
                    rewriteInternalRefs_loop fuel' (push_all (cell_values c') stack')
                      ({[l]} ∪ seen)
                end
          | _ => rewriteInternalRefs_loop fuel' stack' seen
          end
      end
  end.

Definition rewriteInternalRefs (fuel : nat) (root : val) : M unit :=
  rewriteInternalRefs_loop fuel [root] ∅.

(** [ref.split(sep).pop()]: the text after the last [sep] *)
Fixpoint after_last (sep s acc : string) : string :=
  match s with
  | EmptyString => acc
  | String _ s' =>
      if Str.startsWith s sep
      then after_last sep s' (Str.slice (String.length sep) s)
      else after_last sep s' acc
  end.

(** the rewritten [$ref] of [rewriteExternalRefsToLocal], if it applies *)
Definition external_to_local (ref : string) : option string :=
  if Str.includesStr ref COMPONENT_PREFIX
     && (Str.includesStr ref ".yaml" || Str.includesStr ref ".yml")
  then
    let name := after_last COMPONENT_PREFIX ref ref in
    if String.eqb name EmptyString then None else Some (COMPONENT_PREFIX +:+ name)
  else None.

(** the values of the keys other than [$ref] *)
Definition values_but_ref (c : cell) : list val :=
  match c with
  | CObj props =>
      Obj.values (filter (λ kv, negb (String.eqb kv.1 "$ref")) props)
  | CArr items => items
  end.

(** Rewrite external file $refs to local form. *)
Fixpoint rewriteExternalRefsToLocal_loop (fuel : nat) (stack : list val)
    (seen : gset loc) {struct fuel} : M unit :=
  match stack with
  | [] => mret tt
  | cur :: stack' =>
      match fuel with
      | O => out_of_fuel
      | S fuel' =>
          match cur with
          | VRef l =>
              if decide (l ∈ seen)
              then rewriteExternalRefsToLocal_loop fuel' stack' seen
              else
                c ← read l;
                match c with
                | CArr items =>
                    rewriteExternalRefsToLocal_loop fuel' (push_all items stack')
                      ({[l]} ∪ seen)
                | CObj _ =>
                    let c' :=
                      match string_prop c "$ref" with
                      | Some r =>
                          match external_to_local r with
                          | Some r' => set_prop c "$ref" (VStr r')
                          | None => c
                          end
                      | None => c
                      end in
                    write l c';;
                    rewriteExternalRefsToLocal_loop fuel'
                      (push_all (values_but_ref c') stack') ({[l]} ∪ seen)
                end
          | _ => rewriteExternalRefsToLocal_loop fuel' stack' seen
          end
      end
  end.

Definition rewriteExternalRefsToLocal (fuel : nat) (root : val) : M unit :=
  rewriteExternalRefsToLocal_loop fuel [root] ∅.

(** the test of [findPathLocalLikeRefs] on one object:
    [/\/properties\/(\$like|%24like)$/] on a [#/paths/] reference *)
Definition is_path_local_like (ref : string) : bool :=
  Str.startsWith ref PATHS_PREFIX
  && (Str.endsWith ref "/properties/$like"
      || Str.endsWith ref "/properties/%24like").

(** Count path-local $like refs in the bundled spec. *)
Fixpoint findPathLocalLikeRefs_loop (fuel : nat) (h : gmap loc cell)
    (stack : list val) (seen : gset loc) (count : nat) {struct fuel} : option nat :=
  match stack with
  | [] => Some count
  | node :: stack' =>
      match fuel with
      | O => None
      | S fuel' =>
          match node with
          | VRef l =>
              if decide (l ∈ seen)
              then findPathLocalLikeRefs_loop fuel' h stack' seen count
              else
                match h !! l with
                | None => None
                | Some (CArr items) =>
                    findPathLocalLikeRefs_loop fuel' h (push_all items stack')
                      ({[l]} ∪ seen) count
                | Some (CObj props as c) =>
                    let count' :=
                      match string_prop c "$ref" with
                      | Some r => if is_path_local_like r then S count else count
                      | None => count
                      end in
                    findPathLocalLikeRefs_loop fuel' h
                      (push_all (cell_values c) stack') ({[l]} ∪ seen) count'
                end
          | _ => findPathLocalLikeRefs_loop fuel' h stack' seen count
          end
      end
  end.

Definition findPathLocalLikeRefs (fuel : nat) (h : gmap loc cell) (root : val)
  : option nat :=
  findPathLocalLikeRefs_loop fuel h [root] ∅ O.

(** [canonicalStringify] and [structuralStringify] of a value of the store *)
Definition canonical_of (fuel : nat) (v : val) : M string :=
  j ← lift_opt (λ h, dump fuel h v); mret (canonicalStringify j).
Definition structural_of (fuel : nat) (v : val) : M string :=
  j ← lift_opt (λ h, dump fuel h v); mret (structuralStringify j).

(** [if (name)] on the result of [Map.get] *)
Definition nonempty (o : option string) : option string :=
  match o with
  | Some s => if String.eqb s EmptyString then None else Some s
  | None => None
  end.

(** ** bundle.ts: promotion of inline variants *)

(** White space as [\s] and [trim] see it, on UTF-8 text. *)
Module Ws.

Definition ascii_space (c : ascii) : bool :=
  let n := N_of_ascii c in
  ((9 <=? n) && (n <=? 13) || (n =? 32))%N.

(** the text after one white-space character at the head of [s] *)
Definition take (s : string) : option string :=
  match s with
  | EmptyString => None
  | String c s1 =>
      if ascii_space c then Some s1
      else
        let n0 := N_of_ascii c in
        match s1 with
        | String c1 s2 =>
            let n1 := N_of_ascii c1 in
            if ((n0 =? 194) && (n1 =? 160))%N then Some s2
            else
              match s2 with
              | String c2 s3 =>
                  let n2 := N_of_ascii c2 in
                  if ((n0 =? 225) && (n1 =? 154) && (n2 =? 128)
                      || (n0 =? 226) && (n1 =? 128)
                         && ((128 <=? n2) && (n2 <=? 138) || (n2 =? 168)
                             || (n2 =? 169) || (n2 =? 175))
                      || (n0 =? 226) && (n1 =? 129) && (n2 =? 159)
                      || (n0 =? 227) && (n1 =? 128) && (n2 =? 128)
                      || (n0 =? 239) && (n1 =? 187) && (n2 =? 191))%N
                  then Some s3 else None
              | EmptyString => None
              end
        | EmptyString => None
        end
  end.

(** [s.replace(/\s+/g, '')] *)
Fixpoint remove (fuel : nat) (s : string) : string :=
  match fuel with
  | O => s
  | S fuel' =>
      match take s with
      | Some rest => remove fuel' rest
      | None =>
          match s with
          | EmptyString => EmptyString
          | String c s' => String c (remove fuel' s')
          end
      end
  end.
Definition remove_all (s : string) : string := remove (String.length s) s.

(** skip [\s*] *)
Fixpoint skip (fuel : nat) (s : string) : string :=
  match fuel with
  | O => s
  | S fuel' =>
      match take s with
      | Some rest => skip fuel' rest
      | None => s
      end
  end.

Definition lower (c : ascii) : ascii :=
  let n := N_of_ascii c in
  if ((65 <=? n) && (n <=? 90))%N then ascii_of_N (n + 32) else c.

(** a prefix, letters compared without case; the text after it *)
Fixpoint prefix_ci (p s : string) {struct p} : option string :=
  match p with
  | EmptyString => Some s
  | String c p' =>
      match s with
      | EmptyString => None
      | String d s' =>
          if Ascii.eqb (lower c) (lower d) then prefix_ci p' s' else None
      end
  end.

(** [/exact\s*match/i.test(s)] *)
Definition exact_match_at (s : string) : bool :=
  match prefix_ci "exact" s with
  | Some rest =>
      match prefix_ci "match" (skip (String.length rest) rest) with
      | Some _ => true
      | None => false
      end
  | None => false
  end.

Fixpoint exact_match (s : string) : bool :=
  if exact_match_at s then true
  else match s with
       | EmptyString => false
       | String _ s' => exact_match s'
       end.

End Ws.

(** [schemaName.replace(/FilterProperty$/, '')] on a name with that suffix *)
Definition drop_suffix (n : nat) (s : string) : string :=
  String.rev (Str.slice n (String.rev s)).

(** the name a variant is promoted under, if any *)
Definition promoted_name (schemaName : string) (variant : cell) : option string :=
  let by_pattern :=
    if Str.endsWith schemaName "FilterProperty" then
      match string_prop variant "title" with
      | Some title =>
          if Ws.exact_match title
          then Some (drop_suffix 14 schemaName +:+ "ExactMatch")
          else None
      | None => None
      end
    else None in
  match nonempty by_pattern with
  | Some n => Some n
  | None =>
      match string_prop variant "title" with
      | Some title =>
          let cleanTitle := Ws.remove_all title in
          if String.eqb cleanTitle EmptyString then None
          else nonempty (Some (schemaName +:+ cleanTitle))
      | None => None
      end
  end.

(** [while (schemas[finalName] || newSchemas[finalName])]: the first free
    name among [promotedName], [promotedName1], [promotedName2], ... *)
Fixpoint unique_name (fuel : nat) (taken : string → bool) (promotedName : string)
    (finalName : string) (counter : nat) : option string :=
  if taken finalName then
    match fuel with
    | O => None
    | S fuel' =>
        unique_name fuel' taken promotedName (promotedName +:+ pretty counter)
          (S counter)
    end
  else Some finalName.

Definition has_key (c : cell) (k : string) : bool :=
  match c with
  | CObj props => Obj.has k props
  | CArr _ => false
  end.

(** the loop over [variants[i]] for one composition key of one schema *)
Fixpoint promote_variants (fuel : nat) (schemas : loc) (schemaName : string)
    (variants : list val) (newSchemas : list (string * val))
  : M (list (string * val)) :=
  match variants with
  | [] => mret newSchemas
  | variant :: rest =>
      match variant with
      | VRef l =>
          c ← read l;
          if truthy_opt (cell_get c "$ref") then
            promote_variants fuel schemas schemaName rest newSchemas
          else if negb (has_key c "properties" || has_key c "enum" || has_key c "allOf")
          then promote_variants fuel schemas schemaName rest newSchemas
          else
            match promoted_name schemaName c with
            | None => promote_variants fuel schemas schemaName rest newSchemas
            | Some promotedName =>
                sch ← read schemas;
                let taken name :=
                  truthy_opt (cell_get sch name)
                  || truthy_opt (Obj.get name newSchemas) in
                match unique_name fuel taken promotedName promotedName 1 with
                | None => out_of_fuel
                | Some finalName =>
                    copy ← deep_copy fuel variant;
                    write l (ref_cell (COMPONENT_PREFIX +:+ finalName));;
                    promote_variants fuel schemas schemaName rest
                      (Obj.set finalName copy newSchemas)
                end
            end
      | _ => promote_variants fuel schemas schemaName rest newSchemas
      end
  end.

(** the loop over the two composition keys of one schema *)
Definition promote_schema (fuel : nat) (schemas : loc) (schemaName : string)
    (schemaValue : val) (newSchemas : list (string * val))
  : M (list (string * val)) :=
  match schemaValue with
  | VRef s =>
      fold_left
        (λ (acc : M (list (string * val))) compositionKey,
           newSchemas ← acc;
           schema ← read s;
           match cell_get schema compositionKey with
           | Some (VRef a) =>
               arr ← read a;
               match arr with
               | CArr variants =>
                   promote_variants fuel schemas schemaName variants newSchemas
               | CObj _ => mret newSchemas
               end
           | _ => mret newSchemas
           end)
        ["oneOf"; "anyOf"] (mret newSchemas)
  | _ => mret newSchemas
  end.

(** Promote inline schemas inside component-level oneOf/anyOf compositions
    to named component schemas. *)
Definition promoteInlineSchemas (fuel : nat) (schemas : loc) : M unit :=
  sch ← read schemas;
  newSchemas ←
    fold_left
      (λ (acc : M (list (string * val))) entry,
         newSchemas ← acc;
         promote_schema fuel schemas entry.1 entry.2 newSchemas)
      (cell_entries sch) (mret []);
  sch' ← read schemas;
  match newSchemas with
  | [] => mret tt
  | _ =>
      write schemas (fold_left (λ c kv, set_prop c kv.1 kv.2) newSchemas sch')
  end.

(** [for (const v of Object.values(obj)) f(v)], threading the state of the
    walk (the set of visited objects, a counter) *)
Fixpoint for_each {S : Type} (f : val → S → M S) (vs : list val) (st : S) : M S :=
  match vs with
  | [] => mret st
  | v :: vs' => st' ← f v st; for_each f vs' st'
  end.

(** ** bundle.ts: the closure of [bundle] *)

(** What [safeNormalize] captures from [bundle]: the [schemas] object, the
    set of the component schemas by identity, their signatures as taken
    before normalization, the override table and the snapshot. *)
Record env := Env {
  schemas : loc;
  componentValues : gset loc;
  schemaSignatureMap : gmap string string;
  manualOverrides : list (string * string);
  preNormSnapshot : val
}.

(** the objects among [Object.values(schemas)] *)
Definition refs_of (vs : list val) : gset loc :=
  list_to_set (omap (λ v, match v with VRef l => Some l | _ => None end) vs).

(** [/\/properties\/\$like$/] on the decoded reference *)
Definition is_like_shape (normalized : string) : bool :=
  negb (String.eqb normalized EmptyString)
  && Str.startsWith normalized PATHS_PREFIX
  && Str.endsWith normalized "/properties/$like".

(** The first two questions of the block "Rewrite path-local refs to
    component refs", asked once the target [resolvedObj] has been
    normalized: is the target a reference to a component, and is there a
    manual override for [ref]? *)
Definition adopt_or_override (E : env) (ref : string) (resolvedObj : cell)
  : option string :=
  match string_prop resolvedObj "$ref" with
  | Some r =>
      if Str.startsWith r COMPONENT_PREFIX then Some r
      else
        match nonempty (Obj.get ref (manualOverrides E)) with
        | Some name => Some (COMPONENT_PREFIX +:+ name)
        | None => None
        end
  | None =>
      match nonempty (Obj.get ref (manualOverrides E)) with
      | Some name => Some (COMPONENT_PREFIX +:+ name)
      | None => None
      end
  end.

(** The tail of [safeNormalize] for an object that is no reference to a
    component after the block above: inline dedup, then the rewrite of
    [x-semantic-type]. *)
Definition inline_dedup (fuel : nat) (E : env) (l : loc) : M unit :=
  obj ← read l;
  (if negb (truthy_opt (cell_get obj "$ref")) then
     sig ← canonical_of fuel (VRef l);
     match nonempty (schemaSignatureMap E !! sig) with
     | Some matchingName => write l (ref_cell (COMPONENT_PREFIX +:+ matchingName))
     | None => mret tt
     end
   else mret tt);;
  obj ← read l;
  match cell_get obj "x-semantic-type" with
  | Some x =>
      if truthy x && negb (truthy_opt (cell_get obj "$ref")) then
        target ← toString fuel x;
        sch ← read (schemas E);
        if truthy_opt (cell_get sch target)
        then write l (ref_cell (COMPONENT_PREFIX +:+ target))
        else mret tt
      else mret tt
  | None => mret tt
  end.

(** [safeNormalize]; [seen] is [normSeen].  [fuel] bounds the depth of the
    recursion. *)
Fixpoint safeNormalize (fuel : nat) (E : env) (root : val) (seen : gset loc)
    {struct fuel} : M (gset loc) :=
  match fuel with
  | O => out_of_fuel
  | S fuel' =>
      match root with
      | VRef l =>
          if decide (l ∈ seen) then mret seen
          else
            let seen := {[l]} ∪ seen in
            let all := for_each (safeNormalize fuel' E) in
            obj ← read l;
            sch ← read (schemas E);
            (* Rewrite path-local $like refs -> LikeFilter *)
            if match string_prop obj "$ref" with
               | Some rawRef =>
                   is_like_shape (normalizeInternalRef rawRef)
                   && truthy_opt (cell_get sch "LikeFilter")
               | None => false
               end
            then
              write l (set_prop obj "$ref" (VStr (COMPONENT_PREFIX +:+ "LikeFilter")));;
              mret seen
            (* Don't mutate top-level component schemas themselves *)
            else if decide (l ∈ componentValues E) then all (cell_values obj) seen
            else
              match obj with
              | CArr items => all items seen
              | CObj props =>
                  (* Post-order: normalize children first *)
                  seen ← all (Obj.values props) seen;
                  obj ← read l;
                  (* Rewrite path-local refs to component refs *)
                  '(seen, returned) ←
                    match string_prop obj "$ref" with
                    | Some ref =>
                        if Str.startsWith ref PATHS_PREFIX then
                          resolved ← resolve (preNormSnapshot E) ref;
                          match resolved with
                          | Some (VRef t) =>
                              seen ← safeNormalize fuel' E (VRef t) seen;
                              resolvedObj ← read t;
                              obj ← read l;
                              match string_prop obj "$ref" with
                              | Some ref =>
                                  match adopt_or_override E ref resolvedObj with
                                  | Some ref' =>
                                      write l (set_prop obj "$ref" (VStr ref'));;
                                      mret (seen, true)
                                  | None =>
                                      (* Signature matching *)
                                      sig ← canonical_of fuel' (VRef t);
                                      match nonempty (schemaSignatureMap E !! sig) with
                                      | Some matchingName =>
                                          write l (set_prop obj "$ref"
                                            (VStr (COMPONENT_PREFIX +:+ matchingName)));;
                                          mret (seen, true)
                                      | None => mret (seen, false)
                                      end
                                  end
                              | None => mret (seen, false)
                              end
                          | _ => mret (seen, false)
                          end
                        else mret (seen, false)
                    | None => mret (seen, false)
                    end;
                  if returned : bool then mret seen
                  else inline_dedup fuel' E l;; mret seen
              end
      | _ => mret seen
      end
  end.

(** ** bundle.ts: the fresh signature dedup *)

(** the two signature maps of [freshSignatureDedup], from the entries of
    [schemas] that are objects without a [$ref] *)
Fixpoint signature_maps (fuel : nat) (entries : list (string * val))
    (exact struct : gmap string string)
  : M (gmap string string * gmap string string) :=
  match entries with
  | [] => mret (exact, struct)
  | (name, schema) :: rest =>
      match schema with
      | VRef l =>
          c ← read l;
          if truthy_opt (cell_get c "$ref")
          then signature_maps fuel rest exact struct
          else
            e ← canonical_of fuel schema;
            s ← structural_of fuel schema;
            signature_maps fuel rest (<[e := name]> exact) (<[s := name]> struct)
      | _ => signature_maps fuel rest exact struct
      end
  end.

Definition isSchemaLike (obj : cell) : bool :=
  has_key obj "properties" || has_key obj "enum" || has_key obj "allOf"
  || has_key obj "oneOf" || has_key obj "anyOf".

(** [walk]; the state is [seen] and [replaced] *)
Fixpoint walk (fuel : nat) (components : gset loc)
    (exactSigMap structSigMap : gmap string string)
    (node : val) (st : gset loc * nat) {struct fuel} : M (gset loc * nat) :=
  match fuel with
  | O => out_of_fuel
  | S fuel' =>
      match node with
      | VRef l =>
          if decide (l ∈ st.1) then mret st
          else
            let st := ({[l]} ∪ st.1, st.2) in
            let all := for_each (walk fuel' components exactSigMap structSigMap) in
            c ← read l;
            if decide (l ∈ components) then
              match c with
              | CArr _ => mret st
              | CObj props => all (Obj.values props) st
              end
            else
              match c with
              | CArr items => all items st
              | CObj props =>
                  (* Recurse first (post-order) *)
                  st ← all (Obj.values props) st;
                  obj ← read l;
                  if truthy_opt (cell_get obj "$ref") then mret st
                  else if negb (isSchemaLike obj) then mret st
                  else
                    (* Try exact match first *)
                    exactSig ← canonical_of fuel' (VRef l);
                    matchName ←
                      match nonempty (exactSigMap !! exactSig) with
                      | Some name => mret (Some name)
                      | None =>
                          (* Fall back to structural match *)
                          structSig ← structural_of fuel' (VRef l);
                          mret (nonempty (structSigMap !! structSig))
                      end;
                    match matchName with
                    | Some name =>
                        write l (ref_cell (COMPONENT_PREFIX +:+ name));;
                        mret (st.1, S st.2)
                    | None => mret st
                    end
              end
      | _ => mret st
      end
  end.

(** One dedup pass over [bundled.paths]; the number of replacements. *)
Definition freshSignatureDedup (fuel : nat) (bundled : loc) (schemas : loc)
  : M nat :=
  sch ← read schemas;
  '(exactSigMap, structSigMap) ← signature_maps fuel (cell_entries sch) ∅ ∅;
  let components := refs_of (cell_values sch) in
  b ← read bundled;
  match cell_get b "paths" with
  | Some (VRef p) =>
      st ← walk fuel components exactSigMap structSigMap (VRef p) (∅, O);
      mret st.2
  | _ => mret O
  end.

(** [for (let dedupPass = 1; dedupPass <= 10; dedupPass++)]: [passes] is
    the number of passes still allowed; the result is the total count and
    the number of passes run. *)
Fixpoint dedup_passes (passes : nat) (fuel : nat) (bundled schemas : loc)
    (total ran : nat) : M (nat * nat) :=
  match passes with
  | O => mret (total, ran)
  | S passes' =>
      count ← freshSignatureDedup fuel bundled schemas;
      if Nat.eqb count 0 then mret (total + count, S ran)%nat
      else dedup_passes passes' fuel bundled schemas (total + count)%nat (S ran)
  end.

(** ** bundle.ts: dereferencing the remaining path-local $refs *)

(** [resolveInternalRef(postNormSnapshot, ref) ??
     resolveInternalRef(preNormSnapshot, ref)], copied when it is truthy *)
Definition deref_target (fuel : nat) (post pre : val) (v : val) : M (option val) :=
  match v with
  | VRef t =>
      c ← read t;
      match string_prop c "$ref" with
      | Some ref =>
          if Str.startsWith ref PATHS_PREFIX then
            a ← resolve post ref;
            resolved ←
              match a with
              | None | Some VNull => resolve pre ref
              | Some _ => mret a
              end;
            match resolved with
            | Some r =>
                if truthy r then copy ← deep_copy fuel r; mret (Some copy)
                else mret None
            | None => mret None
            end
          else mret None
      | None => mret None
      end
  | _ => mret None
  end.

(** the [for] loop over the items of an array node *)
Fixpoint deref_items (fuel : nat) (post pre : val) (node : loc) (i : nat)
    (items : list val) (stack : list val) (dereferenced : nat)
  : M (list val * nat) :=
  match items with
  | [] => mret (stack, dereferenced)
  | item :: rest =>
      r ← deref_target fuel post pre item;
      match r with
      | Some copy =>
          c ← read node;
          write node
            (match c with CArr xs => CArr (<[i := copy]> xs) | _ => c end);;
          deref_items fuel post pre node (S i) rest (copy :: stack) (S dereferenced)
      | None =>
          deref_items fuel post pre node (S i) rest (item :: stack) dereferenced
      end
  end.

(** the [for] loop over the entries of an object node *)
Fixpoint deref_entries (fuel : nat) (post pre : val) (node : loc)
    (entries : list (string * val)) (stack : list val) (dereferenced : nat)
  : M (list val * nat) :=
  match entries with
  | [] => mret (stack, dereferenced)
  | (key, val) :: rest =>
      match val with
      | VRef _ =>
          r ← deref_target fuel post pre val;
          match r with
          | Some copy =>
              c ← read node;
              write node
                (match c with
                 | CObj props => CObj (Obj.update key copy props)
                 | _ => c
                 end);;
              deref_entries fuel post pre node rest (copy :: stack) (S dereferenced)
          | None =>
              deref_entries fuel post pre node rest (val :: stack) dereferenced
          end
      | _ => deref_entries fuel post pre node rest stack dereferenced
      end
  end.

(** the body of [while (stack.length)] for the node just popped: the new
    stack, [seen] and count *)
Definition deref_node (fuel : nat) (post pre : val) (node : val)
    (stack : list val) (seen : gset loc) (dereferenced : nat)
  : M (list val * gset loc * nat) :=
  match node with
  | VRef l =>
      if decide (l ∈ seen) then mret (stack, seen, dereferenced)
      else
        c ← read l;
        '(stack', dereferenced') ←
          match c with
          | CArr items => deref_items fuel post pre l O items stack dereferenced
          | CObj props => deref_entries fuel post pre l props stack dereferenced
          end;
        mret (stack', {[l]} ∪ seen, dereferenced')
  | _ => mret (stack, seen, dereferenced)
  end.

(** [while (stack.length)] of one pass; [steps] bounds the iterations *)
Fixpoint deref_loop (steps : nat) (fuel : nat) (post pre : val)
    (stack : list val) (seen : gset loc) (dereferenced : nat) {struct steps}
  : M nat :=
  match stack with
  | [] => mret dereferenced
  | node :: stack' =>
      match steps with
      | O => out_of_fuel
      | S steps' =>
          '(stack'', seen', dereferenced') ←
            deref_node fuel post pre node stack' seen dereferenced;
          deref_loop steps' fuel post pre stack'' seen' dereferenced'
      end
  end.

(** [for (let pass = 1; pass <= 20; pass++)]: the total count and the
    number of passes run *)
Fixpoint deref_passes (passes : nat) (steps fuel : nat) (post pre bundled : val)
    (total ran : nat) : M (nat * nat) :=
  match passes with
  | O => mret (total, ran)
  | S passes' =>
      dereferenced ← deref_loop steps fuel post pre [bundled] ∅ O;
      if Nat.eqb dereferenced 0 then mret (total + dereferenced, S ran)%nat
      else deref_passes passes' steps fuel post pre bundled
             (total + dereferenced)%nat (S ran)
  end.

(** ** bundle.ts: [bundle] *)

Record BundleOptions := {
  specDir : string;
  entryFile : option string;
  outputSpec : option string;
  outputMetadata : option string;
  optManualOverrides : list (string * string);
  dereferencePathLocalRefs : bool;
  allowPathLocalLikeRefs : bool
}.

Record BundleStats := {
  pathCount : nat;
  schemaCount : nat;
  augmentedSchemaCount : nat;
  promotedInlineSchemaCount : nat;
  freshDedupCount : nat;
  dereferencedPathLocalRefCount : nat;
  pathLocalLikeRefCount : nat
}.

(** Default manual overrides for known tricky path-local refs. *)
Definition DEFAULT_MANUAL_OVERRIDES : list (string * string) :=
  [("#/paths/~1process-instances~1search/post/requestBody/content/application~1json/schema/properties/filter/allOf/0",
    "ProcessInstanceFilter");
   ("#/paths/~1process-definitions~1%7BprocessDefinitionKey%7D~1statistics~1element-instances/post/requestBody/content/application~1json/schema/properties/filter/allOf/0/allOf/0",
    "BaseProcessInstanceFilterFields")].

(** [{...a, ...b}] *)
Definition spread {V} (a b : list (string * V)) : list (string * V) :=
  fold_left (λ o kv, Obj.define kv.1 kv.2 o) b
    (fold_left (λ o kv, Obj.define kv.1 kv.2 o) a []).

(** [fs.existsSync] of a path below the root of the tree *)
Fixpoint fs_exists (n : fsnode) (segs : list string) : bool :=
  match segs with
  | [] => true
  | seg :: rest =>
      match n with
      | Dir entries =>
          (fix find (l : list (string * fsnode)) : bool :=
             match l with
             | [] => false
             | (name, e) :: l' =>
                 if String.eqb name seg then fs_exists e rest else find l'
             end) entries
      | _ => false
      end
  end.

Definition path_segments (p : string) : list string :=
  filter (λ s, s ≠ EmptyString) (Str.split "/" p).

(** [doc?.[k]] on a parsed document: own properties of objects *)
Definition json_get (j : option json) (k : string) : option json :=
  match j with
  | Some (JObj props) => Obj.get k props
  | _ => None
  end.

Definition json_truthy (j : option json) : bool :=
  match j with
  | None | Some JNull => false
  | Some (JBool b) => b
  | Some (JNum n) => negb (Z.eqb n 0%Z)
  | Some (JStr s) => negb (String.eqb s EmptyString)
  | Some _ => true
  end.

(** [Object.entries(docSchemas)] *)
Definition json_entries (j : json) : list (string * json) :=
  match j with
  | JObj props => props
  | JArr items => imap (λ i v, (pretty i, v)) items
  | JStr s => imap (λ i c, (pretty i, JStr (String c EmptyString))) (list_ascii_of_string s)
  | _ => []
  end.

(** [ensureComponents]: [if (!doc['components']) doc['components'] = {}]
    and the same for [schemas]; it returns [doc.components].  A truthy
    [schemas] is left as it is, whatever it is.  The assignment of
    [schemas] raises a TypeError on a [components] that is a string, a
    number or [true]; an array in the place of [components], to which the
    code gives a property [schemas], is outside of the model. *)
Definition ensureComponents (doc : loc) : M loc :=
  d ← read doc;
  (if truthy_opt (cell_get d "components") then mret tt
   else c ← alloc (CObj []); write doc (set_prop d "components" c));;
  d ← read doc;
  match cell_get d "components" with
  | Some (VRef components) =>
      c ← read components;
      match c with
      | CArr _ => unmodelled
      | CObj _ =>
          (if truthy_opt (cell_get c "schemas") then mret tt
           else s ← alloc (CObj []); write components (set_prop c "schemas" s));;
          mret components
      end
  | _ => throw "TypeError: Cannot create property 'schemas'"
  end.

(** [components['schemas'] as Record<string, unknown>]: the pipeline that
    follows keeps named properties in it, so a value that is no object is
    outside of the model *)
Definition component_schemas (components : loc) : M loc :=
  c ← read components;
  match cell_get c "schemas" with
  | Some (VRef schemas) =>
      s ← read schemas;
      match s with
      | CObj _ => mret schemas
      | CArr _ => unmodelled
      end
  | _ => unmodelled
  end.

(** the loop over [Object.entries(docSchemas)] of one file *)
Fixpoint augment_entries (fuel : nat) (schemas : loc)
    (entries : list (string * json)) (augmented : nat) : M nat :=
  match entries with
  | [] => mret augmented
  | (name, schema) :: rest =>
      sch ← read schemas;
      if truthy_opt (cell_get sch name)
      then augment_entries fuel schemas rest augmented
      else
        s ← load schema;
        rewriteExternalRefsToLocal fuel s;;
        sch ← read schemas;
        write schemas (set_prop sch name s);;
        augment_entries fuel schemas rest (S augmented)
  end.

(** the signatures of all the entries of [schemas], later entries first *)
Fixpoint signature_map (fuel : nat) (entries : list (string * val))
    (m : gmap string string) : M (gmap string string) :=
  match entries with
  | [] => mret m
  | (name, schema) :: rest =>
      sig ← canonical_of fuel schema;
      signature_map fuel rest (<[sig := name]> m)
  end.

Inductive file_content (Meta : Type) : Type :=
| SpecFile (spec : json)
| MetadataFile (metadata : Meta).
Arguments SpecFile {Meta} spec.
Arguments MetadataFile {Meta} metadata.

Record BundleResult (Meta : Type) := {
  spec : json;
  metadata : Meta;
  stats : BundleStats
}.
Arguments spec {Meta} _.
Arguments metadata {Meta} _.
Arguments stats {Meta} _.

(** what a run leaves behind: the files written, and how it ended *)
Record run (Meta : Type) := {
  written : list (string * file_content Meta);
  result : outcome (BundleResult Meta)
}.
Arguments written {Meta} _.
Arguments result {Meta} _.

(** the message of the error raised by validation *)
Definition like_refs_message (n : nat) : string :=
  pretty n +:+ " path-local $like ref(s) survived normalization. "
    +:+ "This will cause generator failures. Set allowPathLocalLikeRefs to bypass.".

Section bundle.
Context {Meta : Type}.
(** [SwaggerParser.bundle(entryPath)] *)
Variable SwaggerParser_bundle : fsnode → string → outcome json.
(** [parseYaml(content)]; [None] when it raises *)
Variable parseYaml : string → option json.
Variable extractMetadata : json → json → string → outcome Meta.
Variable sha256_hex : string → string.

Definition entry_file (options : BundleOptions) : string :=
  match entryFile options with Some f => f | None => "rest-api.yaml" end.

Definition is_yaml (file : string) : bool :=
  Str.endsWith file ".yaml" || Str.endsWith file ".yml".

(** Step 2: augment with missing schemas from all upstream YAML files *)
Fixpoint augment (fuel : nat) (schemas : loc) (allFiles : list (string * string))
    (augmented : nat) : M nat :=
  match allFiles with
  | [] => mret augmented
  | (file, content) :: rest =>
      if negb (is_yaml file) then augment fuel schemas rest augmented
      else
        match parseYaml content with
        | None => augment fuel schemas rest augmented
        | Some doc =>
            let docSchemas := json_get (json_get (Some doc) "components") "schemas" in
            match docSchemas with
            | Some ds =>
                if json_truthy docSchemas then
                  n ← augment_entries fuel schemas (json_entries ds) augmented;
                  augment fuel schemas rest n
                else augment fuel schemas rest augmented
            | None => augment fuel schemas rest augmented
            end
        end
  end.

(** the state of a run between its steps *)
Record stage := {
  st_bundled : loc;
  st_schemas : loc;
  st_pre : val;
  st_post : val;
  st_augmented : nat;
  st_promoted : nat;
  st_dereferenced : nat;
  st_deduped : nat
}.

(** Steps 1 and 2 *)
Definition prepare (fuel : nat) (fs : fsnode) (options : BundleOptions)
    (doc : json) : M (loc * loc * nat) :=
  match doc with
  | JObj _ =>
      b ← load doc;
      match b with
      | VRef bundled =>
          components ← ensureComponents bundled;
          schemas ← component_schemas components;
          match listFilesRecursive (specDir options) fs with
          | Some allFiles =>
              n ← augment fuel schemas allFiles O;
              mret (bundled, schemas, n)
          | None => throw "ENOTDIR: not a directory, scandir"
          end
      | _ => unmodelled
      end
  | _ => unmodelled
  end.

(** Step 3, what [safeNormalize] closes over: the component values, the
    signatures, the override table and the snapshot *)
Definition closure (fuel : nat) (options : BundleOptions)
    (bundled schemas : loc) : M env :=
  sch ← read schemas;
  let values := refs_of (cell_values sch) in
  sigs ← signature_map fuel (cell_entries sch) ∅;
  pre ← deep_copy fuel (VRef bundled);
  mret (Env schemas values sigs
          (spread DEFAULT_MANUAL_OVERRIDES (optManualOverrides options)) pre).

(** Step 3: normalize path-local $refs via signature matching *)
Definition normalize (fuel : nat) (options : BundleOptions)
    (bundled schemas : loc) : M val :=
  E ← closure fuel options bundled schemas;
  safeNormalize fuel E (VRef bundled) ∅;;
  rewriteInternalRefs fuel (VRef bundled);;
  mret (preNormSnapshot E).

(** Step 3b: promote inline schemas to named components *)
Definition promote (fuel : nat) (bundled schemas : loc) : M (nat * val) :=
  sch ← read schemas;
  let prePromotionCount := cell_size sch in
  promoteInlineSchemas fuel schemas;;
  sch ← read schemas;
  post ← deep_copy fuel (VRef bundled);
  mret ((cell_size sch - prePromotionCount)%nat, post).

(** Steps 1 to 4b: everything before validation *)
Definition transform (fuel : nat) (fs : fsnode) (options : BundleOptions)
    (doc : json) : M stage :=
  '(bundled, schemas, augmented) ← prepare fuel fs options doc;
  pre ← normalize fuel options bundled schemas;
  '(promoted, post) ← promote fuel bundled schemas;
  '(dereferenced, _) ←
    (if dereferencePathLocalRefs options
     then deref_passes 20 fuel fuel post pre (VRef bundled) O O
     else mret (O, O));
  '(deduped, _) ← dedup_passes 10 fuel bundled schemas O O;
  mret {| st_bundled := bundled; st_schemas := schemas; st_pre := pre;
          st_post := post; st_augmented := augmented; st_promoted := promoted;
          st_dereferenced := dereferenced; st_deduped := deduped |}.

(** Step 5, the count *)
Definition count_like_refs (fuel : nat) (s : stage) : M nat :=
  lift_opt (λ h, findPathLocalLikeRefs fuel h (VRef (st_bundled s))).

(** [paths ? Object.keys(paths).length : 0] *)
Definition count_paths (bundled : loc) : M nat :=
  b ← read bundled;
  match cell_get b "paths" with
  | Some (VRef p) => c ← read p; mret (cell_size c)
  | Some (VStr s) => mret (String.length s)
  | _ => mret O
  end.

(** Steps 5 (the counters), 6 and 7, for a run that passed validation *)
Definition finish (fuel : nat) (fs : fsnode) (options : BundleOptions)
    (s : stage) (likeRefs : nat)
  : M (list (string * file_content Meta) * BundleResult Meta) :=
  paths ← count_paths (st_bundled s);
  sch ← read (st_schemas s);
  let stats :=
    {| pathCount := paths;
       schemaCount := cell_size sch;
       augmentedSchemaCount := st_augmented s;
       promotedInlineSchemaCount := st_promoted s;
       freshDedupCount := st_deduped s;
       dereferencedPathLocalRefCount := st_dereferenced s;
       pathLocalLikeRefCount := likeRefs |} in
  match hashDirectoryTree sha256_hex (specDir options) fs with
  | None => throw "ENOTDIR: not a directory, scandir"
  | Some specHash =>
      specJ ← lift_opt (λ h, dump fuel h (VRef (st_bundled s)));
      schemasJ ← lift_opt (λ h, dump fuel h (VRef (st_schemas s)));
      match extractMetadata specJ schemasJ specHash with
      | Ret meta =>
          let w1 :=
            match nonempty (outputSpec options) with
            | Some f => [(f, SpecFile specJ)]
            | None => []
            end in
          let w2 :=
            match nonempty (outputMetadata options) with
            | Some f => [(f, MetadataFile meta)]
            | None => []
            end in
          mret ((w1 ++ w2)%list, {| spec := specJ; metadata := meta; stats := stats |})
      | Throw msg => throw msg
      | OutOfFuel => out_of_fuel
      | Unmodelled => unmodelled
      end
  end.

(** Steps 1 to 5, up to the count of the surviving $like refs *)
Definition validation (fuel : nat) (fs : fsnode) (options : BundleOptions)
    (doc : json) : outcome (stage * nat * store) :=
  (s ← transform fuel fs options doc;
   n ← count_like_refs fuel s;
   mret (s, n)) empty_store.

(** Bundle the multi-file OpenAPI spec into a single normalized JSON
    document.  Nothing is written before step 7, so a run that does not
    reach it leaves no file. *)
Definition bundle (fuel : nat) (fs : fsnode) (options : BundleOptions)
  : run Meta :=
  let no_output r := {| written := []; result := r |} in
  if negb (fs_exists fs (path_segments (entry_file options))) then
    no_output
      (Throw ("Spec entry not found at "
                +:+ path_join (specDir options) (entry_file options)
                +:+ ". Ensure the upstream spec has been fetched."))
  else
    match SwaggerParser_bundle fs (path_join (specDir options) (entry_file options)) with
    | Ret doc =>
        match validation fuel fs options doc with
        | Ret ((s, n), σ) =>
            if (0 <? n)%nat && negb (allowPathLocalLikeRefs options) then
              no_output (Throw (like_refs_message n))
            else
              match finish fuel fs options s n σ with
              | Ret ((files, r), _) => {| written := files; result := Ret r |}
              | Throw msg => no_output (Throw msg)
              | OutOfFuel => no_output OutOfFuel
              | Unmodelled => no_output Unmodelled
              end
        | Throw msg => no_output (Throw msg)
        | OutOfFuel => no_output OutOfFuel
        | Unmodelled => no_output Unmodelled
        end
    | Throw msg => no_output (Throw msg)
    | OutOfFuel => no_output OutOfFuel
    | Unmodelled => no_output Unmodelled
    end.
End bundle.

(** ** The process and its surroundings *)

Module Sys.

(** the calls into the file system, the clock and other programs *)
Inductive call : Type :=
| ExistsSync (path : string)
| MkdirSync (path : string)
| RmSync (path : string)
| CpSync (src dest : string)
| ExecFileSync (file : string) (args : list string)
| DateNow.

(** The surroundings of the process: the environment and the working
    directory it starts with, and what each call meets, given the calls
    made before it (the latest first): whether a path exists, the time,
    the error a call raises if it raises one, what a program prints. *)
Record world := World {
  env : string → option string;
  path_resolve : list string → string;
  path_join : list string → string;
  exists_now : list call → string → bool;
  time_now : list call → Z;
  raised : list call → call → option string;
  printed : list call → string → list string → string
}.

(** a computation that makes calls: from the calls made so far to the
    calls made then, and how it ends *)
Definition IO (A : Type) : Type := list call → list call * outcome A.

#[export] Instance IO_ret : MRet IO := λ A a h, (h, Ret a).
#[export] Instance IO_bind : MBind IO := λ A B f m h,
  match m h with
  | (h', Ret a) => f a h'
  | (h', Throw msg) => (h', Throw msg)
  | (h', OutOfFuel) => (h', OutOfFuel)
  | (h', Unmodelled) => (h', Unmodelled)
  end.

Definition throw {A} (msg : string) : IO A := λ h, (h, Throw msg).

(** [try { body } finally { final }] *)
Definition try_finally {A} (body : IO A) (final : IO unit) : IO A := λ h,
  match body h with
  | (h1, r) =>
      match final h1 with
      | (h2, Ret _) => (h2, r)
      | (h2, Throw msg) => (h2, Throw msg)
      | (h2, OutOfFuel) => (h2, OutOfFuel)
      | (h2, Unmodelled) => (h2, Unmodelled)
      end
  end.


Section calls.
Variable w : world.

Definition existsSync (path : string) : IO bool := λ h,
  (ExistsSync path :: h, Ret (exists_now w h path)).

Definition Date_now : IO Z := λ h, (DateNow :: h, Ret (time_now w h)).

Definition effect (c : call) : IO unit := λ h,
  (c :: h, match raised w h c with Some e => Throw e | None => Ret tt end).

(** [mkdirSync(path, { recursive: true })] *)
Definition mkdirSync (path : string) : IO unit := effect (MkdirSync path).
(** [rmSync(path, { recursive: true, force: true })] *)
Definition rmSync (path : string) : IO unit := effect (RmSync path).
(** [cpSync(src, dest, { recursive: true })] *)
Definition cpSync (src dest : string) : IO unit := effect (CpSync src dest).

(** [execFileSync(file, args, ...).toString()] *)
Definition execFileSync (file : string) (args : list string) : IO string := λ h,
  (ExecFileSync file args :: h,
   match raised w h (ExecFileSync file args) with
   | Some e => Throw e
   | None => Ret (printed w h file args)
   end).

End calls.
End Sys.




(** ** fetch.ts: the sparse clone of the upstream specification *)

Module FetchResult.
Record t := {
  specDir : string;
  entryPath : string;
  fetched : bool
}.
End FetchResult.

Module Fetch.
Import Sys.

Record FetchOptions := {
  repoUrl : option string;
  ref : option string;
  specDir : option string;
  entryFile : option string;
  outputDir : string;
  skipIfExists : option bool
}.

Definition DEFAULT_REPO_URL : string := "https://github.com/camunda/camunda.git".
Definition DEFAULT_REF : string := "main".
Definition DEFAULT_SPEC_DIR : string := "zeebe/gateway-protocol/src/main/proto/v2".
Definition DEFAULT_ENTRY_FILE : string := "rest-api.yaml".

Section fetchSpec.
Variable w : world.

(** the name of the temporary clone *)
Definition tmp_dir (outputDir : string) (now : Z) : string :=
  path_join w [outputDir; ".."; ".tmp-clone-" +:+ pretty now].

Definition run (args : list string) : IO string :=
  match args with
  | file :: rest => execFileSync w file rest
  | [] => Sys.throw "TypeError"
  end.

(** the body of the [try] of [fetchSpec] *)
Definition clone_and_copy (repoUrl ref specDir entryFile outputDir entryPath
    tmpDir : string) : IO FetchResult.t :=
  mkdirSync w tmpDir;;
  run ["git"; "clone"; "--depth"; "1"; "--branch"; ref; "--filter=blob:none";
       "--sparse"; repoUrl; tmpDir];;
  run ["git"; "-C"; tmpDir; "sparse-checkout"; "init"; "--no-cone"];;
  run ["git"; "-C"; tmpDir; "sparse-checkout"; "set"; "/" +:+ specDir];;
  run ["git"; "-C"; tmpDir; "checkout"];;
  let sourceDir := path_resolve w [tmpDir; specDir] in
  let sourceEntry := path_resolve w [sourceDir; entryFile] in
  found ← existsSync w sourceEntry;
  if negb (found : bool)
  then Sys.throw ("Upstream spec entry not found at " +:+ sourceEntry
                  +:+ " (ref: " +:+ ref +:+ ")")
  else
    stale ← existsSync w outputDir;
    (if stale : bool then rmSync w outputDir else (mret tt : IO unit));;
    mkdirSync w outputDir;;
    cpSync w sourceDir outputDir;;
    mret {| FetchResult.specDir := outputDir;
            FetchResult.entryPath := entryPath;
            FetchResult.fetched := true |}.

(** the [finally] of [fetchSpec] *)
Definition clean_up (tmpDir : string) : IO unit :=
  left ← existsSync w tmpDir;
  if left : bool then rmSync w tmpDir else (mret tt : IO unit).

(** Fetch the upstream spec via sparse git clone. *)
Definition fetchSpec (options : FetchOptions) : IO FetchResult.t :=
  let repoUrl := default DEFAULT_REPO_URL (repoUrl options) in
  let ref := default DEFAULT_REF (ref options) in
  let specDir := default DEFAULT_SPEC_DIR (specDir options) in
  let entryFile := default DEFAULT_ENTRY_FILE (entryFile options) in
  let outputDir := path_resolve w [outputDir options] in
  let entryPath := path_join w [outputDir; entryFile] in
  skip ← (if default false (skipIfExists options) then existsSync w entryPath
          else (mret false : IO bool));
  if skip : bool
  then mret {| FetchResult.specDir := outputDir;
               FetchResult.entryPath := entryPath;
               FetchResult.fetched := false |}
  else
    now ← Date_now w;
    let tmpDir := tmp_dir outputDir now in
    try_finally
      (clone_and_copy repoUrl ref specDir entryFile outputDir entryPath tmpDir)
      (clean_up tmpDir).

End fetchSpec.
End Fetch.

(** ** detect-ref.ts: the upstream ref of the current branch *)

Module DetectRef.
Import Sys.




End DetectRef.

(** ** cli.ts: the command line *)

(** how a call ends that may stop the process: [process.exit(code)] after
    a line on the standard error *)
Inductive ending (A : Type) : Type :=
| Returns (a : A)
| Exits (code : Z) (stderr : string).
Arguments Returns {A} a.
Arguments Exits {A} code stderr.

Module Cli.

Record CliArgs := {
  fetch : bool;
  specDir : option string;
  ref : option string;
  repoUrl : option string;
  outputDir : option string;
  entryFile : option string;
  outputSpec : option string;
  outputMetadata : option string;
  derefPathLocal : bool;
  allowLikeRefs : bool;
  skipFetchIfExists : bool;
  help : bool
}.

(** the assignments [args.field = v] *)
Definition set_fetch (v : bool) (a : CliArgs) : CliArgs :=
  {| fetch := v; specDir := specDir a; ref := ref a; repoUrl := repoUrl a;
     outputDir := outputDir a; entryFile := entryFile a;
     outputSpec := outputSpec a; outputMetadata := outputMetadata a;
     derefPathLocal := derefPathLocal a; allowLikeRefs := allowLikeRefs a;
     skipFetchIfExists := skipFetchIfExists a; help := help a |}.
Definition set_specDir (v : option string) (a : CliArgs) : CliArgs :=
  {| fetch := fetch a; specDir := v; ref := ref a; repoUrl := repoUrl a;
     outputDir := outputDir a; entryFile := entryFile a;
     outputSpec := outputSpec a; outputMetadata := outputMetadata a;
     derefPathLocal := derefPathLocal a; allowLikeRefs := allowLikeRefs a;
     skipFetchIfExists := skipFetchIfExists a; help := help a |}.
Definition set_ref (v : option string) (a : CliArgs) : CliArgs :=
  {| fetch := fetch a; specDir := specDir a; ref := v; repoUrl := repoUrl a;
     outputDir := outputDir a; entryFile := entryFile a;
     outputSpec := outputSpec a; outputMetadata := outputMetadata a;
     derefPathLocal := derefPathLocal a; allowLikeRefs := allowLikeRefs a;
     skipFetchIfExists := skipFetchIfExists a; help := help a |}.
Definition set_repoUrl (v : option string) (a : CliArgs) : CliArgs :=
  {| fetch := fetch a; specDir := specDir a; ref := ref a; repoUrl := v;
     outputDir := outputDir a; entryFile := entryFile a;
     outputSpec := outputSpec a; outputMetadata := outputMetadata a;
     derefPathLocal := derefPathLocal a; allowLikeRefs := allowLikeRefs a;
     skipFetchIfExists := skipFetchIfExists a; help := help a |}.
Definition set_outputDir (v : option string) (a : CliArgs) : CliArgs :=
  {| fetch := fetch a; specDir := specDir a; ref := ref a; repoUrl := repoUrl a;
     outputDir := v; entryFile := entryFile a;
     outputSpec := outputSpec a; outputMetadata := outputMetadata a;
     derefPathLocal := derefPathLocal a; allowLikeRefs := allowLikeRefs a;
     skipFetchIfExists := skipFetchIfExists a; help := help a |}.
Definition set_entryFile (v : option string) (a : CliArgs) : CliArgs :=
  {| fetch := fetch a; specDir := specDir a; ref := ref a; repoUrl := repoUrl a;
     outputDir := outputDir a; entryFile := v;
     outputSpec := outputSpec a; outputMetadata := outputMetadata a;
     derefPathLocal := derefPathLocal a; allowLikeRefs := allowLikeRefs a;
     skipFetchIfExists := skipFetchIfExists a; help := help a |}.
Definition set_outputSpec (v : option string) (a : CliArgs) : CliArgs :=
  {| fetch := fetch a; specDir := specDir a; ref := ref a; repoUrl := repoUrl a;
     outputDir := outputDir a; entryFile := entryFile a;
     outputSpec := v; outputMetadata := outputMetadata a;
     derefPathLocal := derefPathLocal a; allowLikeRefs := allowLikeRefs a;
     skipFetchIfExists := skipFetchIfExists a; help := help a |}.
Definition set_outputMetadata (v : option string) (a : CliArgs) : CliArgs :=
  {| fetch := fetch a; specDir := specDir a; ref := ref a; repoUrl := repoUrl a;
     outputDir := outputDir a; entryFile := entryFile a;
     outputSpec := outputSpec a; outputMetadata := v;
     derefPathLocal := derefPathLocal a; allowLikeRefs := allowLikeRefs a;
     skipFetchIfExists := skipFetchIfExists a; help := help a |}.
Definition set_derefPathLocal (v : bool) (a : CliArgs) : CliArgs :=
  {| fetch := fetch a; specDir := specDir a; ref := ref a; repoUrl := repoUrl a;
     outputDir := outputDir a; entryFile := entryFile a;
     outputSpec := outputSpec a; outputMetadata := outputMetadata a;
     derefPathLocal := v; allowLikeRefs := allowLikeRefs a;
     skipFetchIfExists := skipFetchIfExists a; help := help a |}.
Definition set_allowLikeRefs (v : bool) (a : CliArgs) : CliArgs :=
  {| fetch := fetch a; specDir := specDir a; ref := ref a; repoUrl := repoUrl a;
     outputDir := outputDir a; entryFile := entryFile a;
     outputSpec := outputSpec a; outputMetadata := outputMetadata a;
     derefPathLocal := derefPathLocal a; allowLikeRefs := v;
     skipFetchIfExists := skipFetchIfExists a; help := help a |}.
Definition set_skipFetchIfExists (v : bool) (a : CliArgs) : CliArgs :=
  {| fetch := fetch a; specDir := specDir a; ref := ref a; repoUrl := repoUrl a;
     outputDir := outputDir a; entryFile := entryFile a;
     outputSpec := outputSpec a; outputMetadata := outputMetadata a;
     derefPathLocal := derefPathLocal a; allowLikeRefs := allowLikeRefs a;
     skipFetchIfExists := v; help := help a |}.
Definition set_help (v : bool) (a : CliArgs) : CliArgs :=
  {| fetch := fetch a; specDir := specDir a; ref := ref a; repoUrl := repoUrl a;
     outputDir := outputDir a; entryFile := entryFile a;
     outputSpec := outputSpec a; outputMetadata := outputMetadata a;
     derefPathLocal := derefPathLocal a; allowLikeRefs := allowLikeRefs a;
     skipFetchIfExists := skipFetchIfExists a; help := v |}.

(** the object [parseArgs] starts from *)
Definition initial : CliArgs :=
  {| fetch := false; specDir := None; ref := None; repoUrl := None;
     outputDir := None; entryFile := None; outputSpec := None;
     outputMetadata := None; derefPathLocal := false; allowLikeRefs := false;
     skipFetchIfExists := false; help := false |}.

(** the loop of [parseArgs] over [argv[i]], [argv[i+1]], ...: an option
    with a value takes [argv[++i]], which is [undefined] past the end *)
Fixpoint parseArgs_from (args : CliArgs) (argv : list string) : ending CliArgs :=
  match argv with
  | [] => Returns args
  | a :: rest =>
      let flag (f : CliArgs → CliArgs) := parseArgs_from (f args) rest in
      let valued (f : option string → CliArgs → CliArgs) :=
        match rest with
        | [] => Returns (f None args)
        | v :: rest' => parseArgs_from (f (Some v) args) rest'
        end in
      if String.eqb a "--fetch" then flag (set_fetch true)
      else if String.eqb a "--spec-dir" then valued set_specDir
      else if String.eqb a "--ref" then valued set_ref
      else if String.eqb a "--repo-url" then valued set_repoUrl
      else if String.eqb a "--output-dir" then valued set_outputDir
      else if String.eqb a "--entry-file" then valued set_entryFile
      else if String.eqb a "--output-spec" then valued set_outputSpec
      else if String.eqb a "--output-metadata" then valued set_outputMetadata
      else if String.eqb a "--deref-path-local" then flag (set_derefPathLocal true)
      else if String.eqb a "--allow-like-refs" then flag (set_allowLikeRefs true)
      else if String.eqb a "--skip-fetch-if-exists"
      then flag (set_skipFetchIfExists true)
      else if String.eqb a "--help" || String.eqb a "-h" then flag (set_help true)
      else Exits 1 ("Unknown option: " +:+ a)
  end.

Definition parseArgs (argv : list string) : ending CliArgs :=
  parseArgs_from initial (drop 2 argv).

(** what [main] does with the arguments: the help text, or a bundle of a
    local directory, or a fetch followed by the bundle of the directory
    the fetch returns *)
Inductive action : Type :=
| PrintHelp
| BundleLocal (options : BundleOptions)
| FetchThenBundle (fetchOptions : Fetch.FetchOptions)
    (options : string → BundleOptions).

(** the options [main] passes to [bundle]: [specDir], [entryFile],
    [outputSpec], [outputMetadata], no [manualOverrides],
    [dereferencePathLocalRefs] and [allowPathLocalLikeRefs] *)
Definition bundle_options (args : CliArgs) (dir : string) : BundleOptions :=
  Build_BundleOptions dir (entryFile args) (outputSpec args)
    (outputMetadata args) [] (derefPathLocal args) (allowLikeRefs args).

(** [main] after [parseArgs], up to the lines it prints; paths are joined
    as on POSIX *)
Definition run (args : CliArgs) : action :=
  if help args then PrintHelp
  else
    match specDir args with
    | Some (String c dir) => BundleLocal (bundle_options args (String c dir))
    | _ =>
        FetchThenBundle
          {| Fetch.repoUrl := repoUrl args;
             Fetch.ref := ref args;
             Fetch.specDir := None;
             Fetch.entryFile := entryFile args;
             Fetch.outputDir :=
               match outputDir args with
               | Some d => d
               | None => "external-spec/upstream/" +:+ Fetch.DEFAULT_SPEC_DIR
               end;
             Fetch.skipIfExists := Some (skipFetchIfExists args) |}
          (bundle_options args)
    end.

Definition main (argv : list string) : ending action :=
  match parseArgs argv with
  | Returns args => Returns (run args)
  | Exits code stderr => Exits code stderr
  end.

End Cli.

(** ** metadata.ts: the metadata of the bundled specification *)

Module SemanticKeyEntry.
Inductive category_kind : Type := system_key | cursor | model_id | other.
Inductive schema_kind : Type := inline | allOf.
Record composition_t := {
  schemaKind : schema_kind;
  refs : list string;
  inlineFragments : nat
}.
Record extensions_t := {
  x_semantic_type : option json;
  x_semantic_key : option json
}.
Record flags_t := {
  semanticKey : bool;
  includesLongKeyRef : bool;
  deprecated : bool
}.
Record t := {
  name : string;
  semanticType : json;
  category : category_kind;
  description : option json;
  composition : composition_t;
  constraints : list (string * json);
  examples : option (list string);
  extensions : extensions_t;
  flags : flags_t;
  stableId : string
}.
End SemanticKeyEntry.

Module UnionEntry.
Inductive UnionBranch : Type :=
| ref (ref : string)
| composed (refs : list string)
| uuid
| other.
Inductive kind_t : Type := union_wrapper | hybrid_union.
Record t := {
  name : string;
  kind : kind_t;
  description : option json;
  branches : list UnionBranch;
  stableId : string
}.
End UnionEntry.

Module ArraySchemaEntry.
Record t := {
  name : string;
  itemRef : option string;
  itemType : option json;
  minItems : option Z;
  maxItems : option Z;
  uniqueItems : bool
}.
End ArraySchemaEntry.

Module OperationQueryParam.
Record t := {
  name : json;
  required : bool
}.
End OperationQueryParam.

Module OperationSummary.
Record t := {
  operationId : json;
  path : string;
  method : string;
  tags : json;
  summary : option json;
  description : option json;
  eventuallyConsistent : bool;
  hasRequestBody : bool;
  requestBodyUnion : bool;
  bodyOnly : bool;
  pathParams : list json;
  queryParams : list OperationQueryParam.t;
  requestBodyUnionRefs : list string;
  optionalTenantIdInBody : bool
}.
End OperationSummary.

Module EventuallyConsistentOp.
Record t := {
  operationId : json;
  path : string;
  method : string;
  tags : json
}.
End EventuallyConsistentOp.

Module SpecMetadata.
Record integrity_t := {
  totalSemanticKeys : nat;
  totalUnions : nat;
  totalOperations : nat;
  totalEventuallyConsistent : nat
}.
Record t := {
  schemaVersion : string;
  specHash : string;
  semanticKeys : list SemanticKeyEntry.t;
  unions : list UnionEntry.t;
  arrays : list ArraySchemaEntry.t;
  eventuallyConsistentOps : list EventuallyConsistentOp.t;
  operations : list OperationSummary.t;
  integrity : integrity_t
}.
End SpecMetadata.

Module Metadata.

#[local] Instance outcome_ret : MRet outcome := λ A a, Ret a.
#[local] Instance outcome_bind : MBind outcome := λ A B f m,
  match m with
  | Ret a => f a
  | Throw msg => Throw msg
  | OutOfFuel => OutOfFuel
  | Unmodelled => Unmodelled
  end.

Definition HTTP_METHODS : list string :=
  ["get"; "post"; "put"; "patch"; "delete"; "head"; "options"; "trace"].

(** [v[k]] for a value [v] other than null, and for the keys this file
    reads, none of which a prototype defines: an own property of an
    object, [undefined] on an array, a string, a number or a boolean *)
Definition field (v : json) (k : string) : option json :=
  match v with
  | JObj props => Obj.get k props
  | _ => None
  end.

(** [v[k]]: a TypeError on null; the text of the message is not modelled *)
Definition read (v : json) (k : string) : outcome (option json) :=
  match v with
  | JNull => Throw "TypeError"
  | _ => Ret (field v k)
  end.

(** [v?.[k]] *)
Definition read_opt (v : option json) (k : string) : option json :=
  match v with
  | None | Some JNull => None
  | Some v => field v k
  end.

(** [Array.isArray(v)] *)
Definition is_array (v : option json) : bool :=
  match v with Some (JArr _) => true | _ => false end.

(** [typeof v === 'string'] and [typeof v === 'number'] *)
Definition is_string (v : json) : bool :=
  match v with JStr _ => true | _ => false end.
Definition is_number (v : json) : bool :=
  match v with JNum _ => true | _ => false end.

(** [v === s] for a string [s] *)
Definition is_text (v : option json) (s : string) : bool :=
  match v with Some (JStr t) => String.eqb t s | _ => false end.

(** [v === true] *)
Definition is_true (v : option json) : bool :=
  match v with Some (JBool true) => true | _ => false end.

Definition is_upper (c : ascii) : bool :=
  let n := N_of_ascii c in ((65 <=? n) && (n <=? 90))%N.

Definition is_lower_or_digit (c : ascii) : bool :=
  let n := N_of_ascii c in
  ((97 <=? n) && (n <=? 122) || (48 <=? n) && (n <=? 57))%N.

(** [s.replace(/([a-z0-9])([A-Z])/g, '$1-$2')] *)
Fixpoint hyphenate (s : string) : string :=
  match s with
  | String a (String b s' as rest) =>
      if is_lower_or_digit a && is_upper b
      then String a (String "-" (String b (hyphenate s')))
      else String a (hyphenate rest)
  | _ => s
  end.

(** [s.replace(/_/g, '-')] *)
Fixpoint dashes (s : string) : string :=
  match s with
  | EmptyString => EmptyString
  | String c s' => String (if Ascii.eqb c "_" then "-"%char else c) (dashes s')
  end.

(** [s.toLowerCase()] on ASCII text *)
Fixpoint lower_case (s : string) : string :=
  match s with
  | EmptyString => EmptyString
  | String c s' => String (Ws.lower c) (lower_case s')
  end.

Fixpoint is_ascii (s : string) : bool :=
  match s with
  | EmptyString => true
  | String c s' => (N_of_ascii c <? 128)%N && is_ascii s'
  end.

(** [toStableId]; a name with a character outside ASCII is not modelled *)
Definition toStableId (name : string) : outcome string :=
  if is_ascii name then Ret (lower_case (dashes (hyphenate name)))
  else Unmodelled.

(** [if (typeof obj[k] === ...) c[k] = obj[k]] *)
Definition keep (test : json → bool) (k : string) (obj : json)
    (c : list (string * json)) : list (string * json) :=
  match field obj k with
  | Some v => if test v then Obj.set k v c else c
  | None => c
  end.

Definition extractConstraints (obj : json) : outcome (list (string * json)) :=
  match obj with
  | JNull => Throw "TypeError"
  | _ =>
      Ret (keep is_string "format" obj
             (keep is_number "maxLength" obj
                (keep is_number "minLength" obj
                   (keep is_string "pattern" obj []))))
  end.

Definition mergeConstraints (target extra : list (string * json))
  : list (string * json) :=
  fold_left (λ t kv, Obj.set kv.1 kv.2 t) extra target.

(** what the loop over [schema['allOf']] keeps: [includesLongKeyRef],
    [constraints], [inlineFragments] and [examples] *)
Record parts_state := {
  ps_includesLongKeyRef : bool;
  ps_constraints : list (string * json);
  ps_inlineFragments : nat;
  ps_examples : option (list string)
}.

Fixpoint allOf_parts (parts : list json) (st : parts_state) : outcome parts_state :=
  match parts with
  | [] => Ret st
  | part :: rest =>
      r ← read part "$ref";
      let includes :=
        if is_text r "#/components/schemas/LongKey" then true
        else ps_includesLongKeyRef st in
      if negb (json_truthy r) then
        c ← extractConstraints part;
        let examples :=
          match field part "example" with
          | Some e =>
              if json_truthy (Some e)
              then Some (default [] (ps_examples st) ++ [json_toString e])%list
              else ps_examples st
          | None => ps_examples st
          end in
        allOf_parts rest
          {| ps_includesLongKeyRef := includes;
             ps_constraints := mergeConstraints (ps_constraints st) c;
             ps_inlineFragments := S (ps_inlineFragments st);
             ps_examples := examples |}
      else
        allOf_parts rest
          {| ps_includesLongKeyRef := includes;
             ps_constraints := ps_constraints st;
             ps_inlineFragments := ps_inlineFragments st;
             ps_examples := ps_examples st |}
  end.

(** [/suffix$/i.test(name)] for a suffix of ASCII letters *)
Definition ends_with_ci (name suffix : string) : bool :=
  match Ws.prefix_ci (String.rev suffix) (String.rev name) with
  | Some _ => true
  | None => false
  end.

(** the body of the loop of [extractSemanticKeys]: the entry pushed for
    one schema, if one is *)
Definition semantic_key (longKey : option json) (name : string) (schema : json)
  : outcome (option SemanticKeyEntry.t) :=
  if String.eqb name "LongKey" || String.eqb name "CamundaKey" then Ret None
  else
    all ← read schema "allOf";
    let isAllOf := is_array all in
    let isOneOf := is_array (field schema "oneOf") in
    let isAnyOf := is_array (field schema "anyOf") in
    if isOneOf || isAnyOf then Ret None
    else
      let semanticKey :=
        is_true (field schema "x-semantic-key")
        || json_truthy (field schema "x-semantic-type") in
      if negb semanticKey then Ret None
      else
        let description := field schema "description" in
        let examples :=
          match field schema "example" with
          | Some e => if json_truthy (Some e) then Some [json_toString e] else None
          | None => None
          end in
        st ← match all with
             | Some (JArr parts) =>
                 allOf_parts parts
                   {| ps_includesLongKeyRef := false; ps_constraints := [];
                      ps_inlineFragments := O; ps_examples := examples |}
             | _ =>
                 c ← extractConstraints schema;
                 Ret {| ps_includesLongKeyRef := false;
                        ps_constraints := mergeConstraints [] c;
                        ps_inlineFragments := O; ps_examples := examples |}
             end;
        constraints ←
          (if ps_includesLongKeyRef st
              && Nat.eqb (length (Obj.keys (ps_constraints st))) 0
              && json_truthy longKey
           then
             match longKey with
             | Some lk =>
                 c ← extractConstraints lk;
                 Ret (mergeConstraints (ps_constraints st) c)
             | None => Ret (ps_constraints st)
             end
           else Ret (ps_constraints st));
        let category :=
          if ends_with_ci name "Cursor" then SemanticKeyEntry.cursor
          else if ends_with_ci name "Id" then SemanticKeyEntry.model_id
          else if negb (ps_includesLongKeyRef st)
                  && negb (json_truthy (Obj.get "pattern" constraints))
          then SemanticKeyEntry.other
          else SemanticKeyEntry.system_key in
        id ← toStableId name;
        Ret (Some
          {| SemanticKeyEntry.name := name;
             SemanticKeyEntry.semanticType :=
               match field schema "x-semantic-type" with
               | Some t => if json_truthy (Some t) then t else JStr name
               | None => JStr name
               end;
             SemanticKeyEntry.category := category;
             SemanticKeyEntry.description := description;
             SemanticKeyEntry.composition :=
               {| SemanticKeyEntry.schemaKind :=
                    if isAllOf then SemanticKeyEntry.allOf
                    else SemanticKeyEntry.inline;
                  SemanticKeyEntry.refs :=
                    if ps_includesLongKeyRef st then ["LongKey"] else [];
                  SemanticKeyEntry.inlineFragments := ps_inlineFragments st |};
             SemanticKeyEntry.constraints := constraints;
             SemanticKeyEntry.examples := ps_examples st;
             SemanticKeyEntry.extensions :=
               {| SemanticKeyEntry.x_semantic_type := field schema "x-semantic-type";
                  SemanticKeyEntry.x_semantic_key := field schema "x-semantic-key" |};
             SemanticKeyEntry.flags :=
               {| SemanticKeyEntry.semanticKey := semanticKey;
                  SemanticKeyEntry.includesLongKeyRef := ps_includesLongKeyRef st;
                  SemanticKeyEntry.deprecated :=
                    json_truthy (field schema "deprecated") |};
             SemanticKeyEntry.stableId := id |}).

(** a loop over [Object.entries(schemas)] that pushes at most one entry
    for each schema *)
Fixpoint collect {A} (body : string → json → outcome (option A))
    (entries : list (string * json)) (acc : list A) : outcome (list A) :=
  match entries with
  | [] => Ret acc
  | (name, rawSchema) :: rest =>
      e ← body name rawSchema;
      collect body rest (match e with Some x => (acc ++ [x])%list | None => acc end)
  end.

Definition extractSemanticKeys (schemas : list (string * json))
  : outcome (list SemanticKeyEntry.t) :=
  collect (semantic_key (Obj.get "LongKey" schemas)) schemas [].

(** [r.split('/').pop()] for the value [r] of a [$ref] that is truthy: a
    TypeError unless it is a string *)
Definition ref_name (r : option json) : outcome string :=
  match r with
  | Some (JStr s) => Ret (after_last "/" s s)
  | _ => Throw "TypeError"
  end.

(** the loop over [b['allOf']] *)
Fixpoint composed_refs (parts : list json) (compRefs : list string)
  : outcome (list string) :=
  match parts with
  | [] => Ret compRefs
  | part :: rest =>
      r ← read part "$ref";
      if json_truthy r
      then n ← ref_name r; composed_refs rest (compRefs ++ [n])%list
      else composed_refs rest compRefs
  end.

(** the branch pushed for one member of the list *)
Definition union_branch (b : json) : outcome UnionEntry.UnionBranch :=
  r ← read b "$ref";
  if json_truthy r then n ← ref_name r; Ret (UnionEntry.ref n)
  else
    match field b "allOf" with
    | Some (JArr parts) =>
        refs ← composed_refs parts []; Ret (UnionEntry.composed refs)
    | _ =>
        if is_text (field b "type") "string" && is_text (field b "format") "uuid"
        then Ret UnionEntry.uuid
        else Ret UnionEntry.other
    end.

Fixpoint union_branches (members : list json)
    (branches : list UnionEntry.UnionBranch)
  : outcome (list UnionEntry.UnionBranch) :=
  match members with
  | [] => Ret branches
  | b :: rest =>
      br ← union_branch b;
      union_branches rest (branches ++ [br])%list
  end.

Definition is_ref (br : UnionEntry.UnionBranch) : bool :=
  match br with UnionEntry.ref _ => true | _ => false end.

(** the body of the loop of [extractUnions]; [for (const b of list)]
    raises a TypeError on a list that is an object, a number or [true],
    and a string in the place of the list is not modelled *)
Definition union (name : string) (schema : json) : outcome (option UnionEntry.t) :=
  oneOf ← read schema "oneOf";
  let anyOf := field schema "anyOf" in
  if negb (is_array oneOf) && negb (is_array anyOf) then Ret None
  else
    let members := if json_truthy oneOf then oneOf else anyOf in
    match members with
    | Some (JArr items) =>
        branches ← union_branches items [];
        id ← toStableId name;
        Ret (Some
          {| UnionEntry.name := name;
             UnionEntry.kind :=
               if forallb is_ref branches then UnionEntry.union_wrapper
               else UnionEntry.hybrid_union;
             UnionEntry.description := field schema "description";
             UnionEntry.branches := branches;
             UnionEntry.stableId := id |})
    | Some (JStr _) => Unmodelled
    | _ => Throw "TypeError"
    end.

Definition extractUnions (schemas : list (string * json))
  : outcome (list UnionEntry.t) :=
  collect union schemas [].

(** the body of the loop of [extractArraySchemas] *)
Definition array_schema (name : string) (schema : json)
  : outcome (option ArraySchemaEntry.t) :=
  type ← read schema "type";
  if negb (is_text type "array") then Ret None
  else
    let items := field schema "items" in
    let number (k : string) : option Z :=
      match field schema k with
      | Some (JNum n) => Some n
      | _ => None
      end in
    Ret (Some
      {| ArraySchemaEntry.name := name;
         ArraySchemaEntry.itemRef :=
           match read_opt items "$ref" with
           | Some r =>
               if json_truthy (Some r)
               then Some (after_last "/" (json_toString r) (json_toString r))
               else None
           | None => None
           end;
         ArraySchemaEntry.itemType := read_opt items "type";
         ArraySchemaEntry.minItems := number "minItems";
         ArraySchemaEntry.maxItems := number "maxItems";
         ArraySchemaEntry.uniqueItems := json_truthy (field schema "uniqueItems") |}).

Definition extractArraySchemas (schemas : list (string * json))
  : outcome (list ArraySchemaEntry.t) :=
  collect array_schema schemas [].

(** [typeof v === 'object'] for a truthy [v] *)
Definition is_object (v : json) : bool :=
  match v with JObj _ | JArr _ => true | _ => false end.

(** [componentSchemas[name]]: an own property of an object or an item of
    an array.  [None] stands for [undefined] and also for what the value
    inherits or has as a primitive (a function, [Object.prototype], a
    length, a character of a string): the result is only passed to
    [rs && hasOptionalTenantId(rs)], which is falsy for [undefined] and
    false for each of these, as none has a [type]. *)
Definition member (v : json) (name : string) : option json :=
  match v with
  | JObj props => Obj.get name props
  | JArr items =>
      match Obj.array_index name with
      | Some n => items !! N.to_nat n
      | None => None
      end
  | _ => None
  end.

(** Resolve a single $ref to a component schema, or return the schema
    itself. *)
Definition resolveSchemaRef (schema componentSchemas : json) : option json :=
  match field schema "$ref" with
  | Some (JStr r) =>
      if String.eqb r EmptyString then Some schema
      else member componentSchemas (after_last "/" r r)
  | _ => Some schema
  end.

(** Check if a resolved schema has an optional tenantId property;
    [required.includes] is the method of arrays, or that of strings, and
    a TypeError on a number, a boolean or an object *)
Definition hasOptionalTenantId (schema : json) : outcome bool :=
  if negb (is_text (field schema "type") "object") then Ret false
  else
    match field schema "properties" with
    | Some props =>
        if negb (json_truthy (Some props))
           || negb (json_truthy (field props "tenantId"))
        then Ret false
        else
          match field schema "required" with
          | None | Some JNull => Ret true
          | Some (JArr items) =>
              Ret (negb (existsb (λ x, is_text (Some x) "tenantId") items))
          | Some (JStr s) => Ret (negb (Str.includesStr s "tenantId"))
          | Some _ => Throw "TypeError"
          end
    | None => Ret false
    end.

(** [for (const p of rawParams)] with [rawParams = op['parameters'] ?? []]:
    the items of an array; nothing for a string, whose characters have no
    [name]; a TypeError on a number, a boolean or an object, which cannot
    be iterated *)
Definition raw_parameters (v : option json) : outcome (list json) :=
  match v with
  | None | Some JNull => Ret []
  | Some (JArr items) => Ret items
  | Some (JStr _) => Ret []
  | Some _ => Throw "TypeError"
  end.

(** the loop over the parameters: [pathParams] and [queryParams] *)
Fixpoint parameters (rawParams : list json) (pathParams : list json)
    (queryParams : list OperationQueryParam.t)
  : outcome (list json * list OperationQueryParam.t) :=
  match rawParams with
  | [] => Ret (pathParams, queryParams)
  | p :: rest =>
      pIn ← read p "in";
      match field p "name" with
      | Some pName =>
          if negb (json_truthy (Some pName))
          then parameters rest pathParams queryParams
          else if is_text pIn "path"
          then parameters rest (pathParams ++ [pName])%list queryParams
          else if is_text pIn "query"
          then parameters rest pathParams
                 (queryParams ++
                    [{| OperationQueryParam.name := pName;
                        OperationQueryParam.required :=
                          json_truthy (field p "required") |}])%list
          else parameters rest pathParams queryParams
      | None => parameters rest pathParams queryParams
      end
  end.

(** [s] holds [p], letters compared without case *)
Fixpoint contains_ci (s p : string) : bool :=
  match Ws.prefix_ci p s with
  | Some _ => true
  | None =>
      match s with
      | EmptyString => false
      | String _ s' => contains_ci s' p
      end
  end.

(** [/json|octet|multipart|text\//i.test(contentType)] *)
Definition json_like (contentType : string) : bool :=
  contains_ci contentType "json" || contains_ci contentType "octet"
  || contains_ci contentType "multipart" || contains_ci contentType "text/".

(** what the loop over the content types keeps: [requestBodyUnion],
    [requestBodyUnionRefs] and [optionalTenantIdInBody] *)
Record body_state := {
  bs_requestBodyUnion : bool;
  bs_requestBodyUnionRefs : list string;
  bs_optionalTenantIdInBody : bool
}.

(** the loop over the variants that collects the names of their [$ref] *)
Fixpoint variant_refs (variants : list json) (refs : list string)
  : outcome (list string) :=
  match variants with
  | [] => Ret refs
  | v :: rest =>
      r ← read v "$ref";
      match r with
      | Some (JStr s) =>
          if String.eqb s EmptyString then variant_refs rest refs
          else variant_refs rest (refs ++ [after_last "/" s s])%list
      | _ => variant_refs rest refs
      end
  end.

(** [resolved.every((rs) => rs && hasOptionalTenantId(rs))], which stops
    at the first variant that fails *)
Fixpoint every_optional (resolved : list (option json)) : outcome bool :=
  match resolved with
  | [] => Ret true
  | rs :: rest =>
      b ← match rs with
          | Some s => if json_truthy rs then hasOptionalTenantId s else Ret false
          | None => Ret false
          end;
      if b : bool then every_optional rest else Ret false
  end.

(** the loop over [Object.entries(content)] *)
Fixpoint content_types (entries : list (string * json)) (componentSchemas : json)
    (st : body_state) : outcome body_state :=
  match entries with
  | [] => Ret st
  | (contentType, mediaObj) :: rest =>
      if negb (json_like contentType) then content_types rest componentSchemas st
      else
        match read_opt (Some mediaObj) "schema" with
        | Some schema =>
            if negb (json_truthy (Some schema))
            then content_types rest componentSchemas st
            else
              let variants :=
                if json_truthy (field schema "oneOf") then field schema "oneOf"
                else field schema "anyOf" in
              let single :=
                let resolved := resolveSchemaRef schema componentSchemas in
                b ← match resolved with
                    | Some r =>
                        if json_truthy resolved then hasOptionalTenantId r
                        else Ret false
                    | None => Ret false
                    end;
                content_types rest componentSchemas
                  {| bs_requestBodyUnion := bs_requestBodyUnion st;
                     bs_requestBodyUnionRefs := bs_requestBodyUnionRefs st;
                     bs_optionalTenantIdInBody :=
                       if b : bool then true else bs_optionalTenantIdInBody st |} in
              match variants with
              | Some (JArr vs) =>
                  if (1 <? length vs)%nat then
                    refs ← variant_refs vs (bs_requestBodyUnionRefs st);
                    let resolved :=
                      (λ v, resolveSchemaRef v componentSchemas) <$> vs in
                    b ← (if (0 <? length resolved)%nat then every_optional resolved
                         else Ret false);
                    content_types rest componentSchemas
                      {| bs_requestBodyUnion := true;
                         bs_requestBodyUnionRefs := refs;
                         bs_optionalTenantIdInBody :=
                           if b : bool then true else bs_optionalTenantIdInBody st |}
                  else single
              | _ => single
              end
        | None => content_types rest componentSchemas st
        end
  end.

(** the summary pushed for the operation [op] of [method] at [pathStr] *)
Definition operation (componentSchemas : json) (pathStr method : string)
    (op : json) : outcome OperationSummary.t :=
  let operationId :=
    match field op "operationId" with
    | Some id =>
        if json_truthy (Some id) then id else JStr (method +:+ "_" +:+ pathStr)
    | None => JStr (method +:+ "_" +:+ pathStr)
    end in
  let tags :=
    match field op "tags" with
    | Some t => if json_truthy (Some t) then t else JArr []
    | None => JArr []
    end in
  rawParams ← raw_parameters (field op "parameters");
  '(pathParams, queryParams) ← parameters rawParams [] [];
  let hasRequestBody := json_truthy (field op "requestBody") in
  let no_body :=
    {| bs_requestBodyUnion := false; bs_requestBodyUnionRefs := [];
       bs_optionalTenantIdInBody := false |} in
  body ←
    (if hasRequestBody then
       match field op "requestBody" with
       | Some rb =>
           match field rb "content" with
           | Some content =>
               if json_truthy (Some content)
               then content_types (json_entries content) componentSchemas no_body
               else Ret no_body
           | None => Ret no_body
           end
       | None => Ret no_body
       end
     else Ret no_body);
  Ret {| OperationSummary.operationId := operationId;
         OperationSummary.path := pathStr;
         OperationSummary.method := method;
         OperationSummary.tags := tags;
         OperationSummary.summary := field op "summary";
         OperationSummary.description := field op "description";
         OperationSummary.eventuallyConsistent :=
           is_true (field op "x-eventually-consistent");
         OperationSummary.hasRequestBody := hasRequestBody;
         OperationSummary.requestBodyUnion := bs_requestBodyUnion body;
         OperationSummary.bodyOnly :=
           hasRequestBody && Nat.eqb (length pathParams) 0
           && Nat.eqb (length queryParams) 0;
         OperationSummary.pathParams := pathParams;
         OperationSummary.queryParams := queryParams;
         OperationSummary.requestBodyUnionRefs := bs_requestBodyUnionRefs body;
         OperationSummary.optionalTenantIdInBody := bs_optionalTenantIdInBody body |}.

Definition eventually_consistent (o : OperationSummary.t) : EventuallyConsistentOp.t :=
  {| EventuallyConsistentOp.operationId := OperationSummary.operationId o;
     EventuallyConsistentOp.path := OperationSummary.path o;
     EventuallyConsistentOp.method := OperationSummary.method o;
     EventuallyConsistentOp.tags := OperationSummary.tags o |}.

(** the two arrays [extractOperations] pushes to *)
Definition operations_state : Type :=
  list EventuallyConsistentOp.t * list OperationSummary.t.

(** the loop over [HTTP_METHODS] for one path *)
Fixpoint path_operations (componentSchemas : json) (pathStr : string)
    (pathObj : json) (methods : list string) (st : operations_state)
  : outcome operations_state :=
  match methods with
  | [] => Ret st
  | method :: rest =>
      match field pathObj method with
      | Some op =>
          if json_truthy (Some op) then
            o ← operation componentSchemas pathStr method op;
            path_operations componentSchemas pathStr pathObj rest
              (if OperationSummary.eventuallyConsistent o
               then (st.1 ++ [eventually_consistent o])%list else st.1,
               (st.2 ++ [o])%list)
          else path_operations componentSchemas pathStr pathObj rest st
      | None => path_operations componentSchemas pathStr pathObj rest st
      end
  end.

(** the loop over [Object.entries(paths)] *)
Fixpoint all_operations (componentSchemas : json) (entries : list (string * json))
    (st : operations_state) : outcome operations_state :=
  match entries with
  | [] => Ret st
  | (pathStr, pathItem) :: rest =>
      if negb (json_truthy (Some pathItem)) || negb (is_object pathItem)
      then all_operations componentSchemas rest st
      else
        st' ← path_operations componentSchemas pathStr pathItem HTTP_METHODS st;
        all_operations componentSchemas rest st'
  end.

Definition extractOperations (spec : json) : outcome operations_state :=
  paths ← read spec "paths";
  match paths with
  | Some p =>
      if json_truthy paths then
        let componentSchemas :=
          match read_opt (field spec "components") "schemas" with
          | None | Some JNull => JObj []
          | Some schemas => schemas
          end in
        all_operations componentSchemas (json_entries p) ([], [])
      else Ret ([], [])
  | None => Ret ([], [])
  end.

Section extractMetadata.
(** [a.localeCompare(b)], the collation of the host: negative, zero or
    positive *)
Variable localeCompare : string → string → Z.

(** [list.sort((a, b) => a.name.localeCompare(b.name))], a stable sort:
    each entry goes before the first of the later ones that is not below
    it *)
Fixpoint insert_by_name {A} (name : A → string) (x : A) (l : list A) : list A :=
  match l with
  | [] => [x]
  | y :: l' =>
      if (localeCompare (name x) (name y) <=? 0)%Z then x :: l
      else y :: insert_by_name name x l'
  end.

Definition sort_by_name {A} (name : A → string) (l : list A) : list A :=
  foldr (insert_by_name name) [] l.

(** Extract metadata from the bundled OpenAPI spec. *)
Definition extractMetadata (spec schemas : json) (specHash : string)
  : outcome SpecMetadata.t :=
  match schemas with
  | JNull => Throw "TypeError"
  | _ =>
      semanticKeys ← extractSemanticKeys (json_entries schemas);
      unions ← extractUnions (json_entries schemas);
      arrays ← extractArraySchemas (json_entries schemas);
      '(eventuallyConsistentOps, operations) ← extractOperations spec;
      Ret {| SpecMetadata.schemaVersion := "1.0.0";
             SpecMetadata.specHash := specHash;
             SpecMetadata.semanticKeys :=
               sort_by_name SemanticKeyEntry.name semanticKeys;
             SpecMetadata.unions := sort_by_name UnionEntry.name unions;
             SpecMetadata.arrays := sort_by_name ArraySchemaEntry.name arrays;
             SpecMetadata.eventuallyConsistentOps := eventuallyConsistentOps;
             SpecMetadata.operations := operations;
             SpecMetadata.integrity :=
               {| SpecMetadata.totalSemanticKeys := length semanticKeys;
                  SpecMetadata.totalUnions := length unions;
                  SpecMetadata.totalOperations := length operations;
                  SpecMetadata.totalEventuallyConsistent :=
                    length eventuallyConsistentOps |} |}
  end.
End extractMetadata.

End Metadata.

(** ** Sample documents *)

Module Samples.
Definition ref (target : string) : json := JObj [("$ref", JStr target)].

(** a collaborator set for runs on a one-file spec directory *)
Definition fs1 : fsnode := Dir [("rest-api.yaml", File "openapi: 3.0.3")].
Definition run_on (doc : json) (fuel : nat) (options : BundleOptions) : run unit :=
  bundle (λ _ _, Ret doc) (λ _, None) (λ _ _ _, Ret tt) (λ s, s) fuel fs1 options.

Definition options0 : BundleOptions :=
  {| specDir := "/spec"; entryFile := None;
     outputSpec := Some "out/spec.json"; outputMetadata := Some "out/meta.json";
     optManualOverrides := []; dereferencePathLocalRefs := false;
     allowPathLocalLikeRefs := false |}.


(** a $like reference with no [LikeFilter] component to point it at *)
Definition like_doc : json :=
  JObj [("paths",
         JObj [("/a",
                JObj [("properties", JObj [("$like", JObj [("type", JStr "string")])]);
                      ("x", ref "#/paths/~1a/properties/$like")])])].

(** a path-local reference whose target matches no component *)
Definition stray_doc : json :=
JObj [("paths",
       JObj [("/a",
              JObj [("x", JObj [("type", JStr "string")]);
                    ("y", ref "#/paths/~1a/x")])])].

(** the result of a run, or an empty one when the run does not return *)
Definition result_of (r : run unit) : BundleResult unit :=
match result r with
| Ret x => x
| _ =>
    {| spec := JNull; metadata := tt;
       stats := {| pathCount := 0; schemaCount := 0; augmentedSchemaCount := 0;
                   promotedInlineSchemaCount := 0; freshDedupCount := 0;
                   dereferencedPathLocalRefCount := 0;
                   pathLocalLikeRefCount := 0 |} |}
end.

Definition stray_result : BundleResult unit :=
Eval vm_compute in result_of (run_on stray_doc 50 options0).

(** two operations, each with a request body that refers to a component *)
Definition operation (id : string) (schema : json) : json :=
JObj [("operationId", JStr id);
      ("requestBody",
       JObj [("content", JObj [("application/json", JObj [("schema", schema)])])]);
      ("responses", JObj [("204", JObj [("description", JStr "Done")])])].

(** Two component schemas, [items] and [not], with different names and the
    same structure [twin]; a third, [additionalProperties], whose
    structure is that of the whole collection once its children are
    normalized. *)
Definition twin : json :=
JObj [("additionalProperties", ref "#/components/schemas/not");
      ("items", ref "#/components/schemas/not");
      ("not", ref "#/components/schemas/not")].

Definition collapse_doc : json :=
JObj [("openapi", JStr "3.0.3");
      ("info", JObj [("title", JStr "Test"); ("version", JStr "1.0.0")]);
      ("paths",
       JObj [("/a", JObj [("post", operation "a" (ref "#/components/schemas/items"))]);
             ("/b", JObj [("post", operation "b" (ref "#/components/schemas/not"))])]);
      ("components",
       JObj [("schemas",
              JObj [("additionalProperties",
                     JObj [("additionalProperties", twin); ("items", twin);
                           ("not", twin)]);
                    ("items", twin);
                    ("not", twin)])])].

Definition collapse_result : BundleResult unit :=
Eval vm_compute in result_of (run_on collapse_doc 50 options0).

(** [r1] points at the inline fragment [k], which matches the component
    [S]; [r2] points inside [k], at a reference to the component [T]. *)
Definition S_schema : json :=
JObj [("type", JStr "object");
      ("properties", JObj [("x", ref "#/components/schemas/T")])].

Definition snapshot_doc : json :=
JObj [("paths",
       JObj [("/p",
              JObj [("k", S_schema);
                    ("r1", ref "#/paths/~1p/k");
                    ("r2", ref "#/paths/~1p/k/properties/x")])]);
      ("components",
       JObj [("schemas",
              JObj [("S", S_schema); ("T", JObj [("type", JStr "string")])])])].

(** the same document with [r2] listed before [r1] *)
Definition snapshot_doc' : json :=
JObj [("paths",
       JObj [("/p",
              JObj [("k", S_schema);
                    ("r2", ref "#/paths/~1p/k/properties/x");
                    ("r1", ref "#/paths/~1p/k")])]);
      ("components",
       JObj [("schemas",
              JObj [("S", S_schema); ("T", JObj [("type", JStr "string")])])])].

(** the store and the snapshot after step 3 *)
Definition after_normalize (doc : json) (fuel : nat)
  : outcome (val * store) :=
('(bundled, schemas, _) ← prepare (λ _, None) fuel fs1 options0 doc;
 normalize fuel options0 bundled schemas) empty_store.

(** [/paths/<path>/<key>] of a returned document *)
Definition at_path (r : BundleResult unit) (path key : string) : option json :=
json_get (json_get (json_get (Some (spec r)) "paths") path) key.

(** a reference with a malformed escape *)
Definition malformed_doc : json :=
JObj [("paths", JObj [("/a", JObj [("x", ref "#/paths/%")])])].

(** a schema that refers to itself by a path-local reference, as the
    upstream bundler leaves a recursive schema of an included file *)
Definition recursive_doc : json :=
JObj [("paths", JObj [("/a", JObj [("x", ref "#/paths/~1a")])])].

Definition dereferencing (o : BundleOptions) : BundleOptions :=
{| specDir := specDir o; entryFile := entryFile o;
   outputSpec := outputSpec o; outputMetadata := outputMetadata o;
   optManualOverrides := optManualOverrides o;
   dereferencePathLocalRefs := true;
   allowPathLocalLikeRefs := allowPathLocalLikeRefs o |}.

(** the store, the snapshots and the document before step 4 *)
Definition before_dereference (doc : json) (fuel : nat)
  : outcome (loc * val * val * store) :=
('(bundled, schemas, _) ← prepare (λ _, None) fuel fs1 options0 doc;
 pre ← normalize fuel options0 bundled schemas;
 '(_, post) ← promote fuel bundled schemas;
 mret (bundled, pre, post)) empty_store.


(** a reference of [recursive_doc] *)
Definition self_ref : cell := CObj [("$ref", VStr "#/paths/~1a")].


(** the store of [recursive_doc] before step 4: the document at address 3,
    the snapshots at 11 and 17 *)
Definition recursive_store : store :=
Eval vm_compute in
  match before_dereference recursive_doc 50 with
  | Ret (_, σ) => σ
  | _ => empty_store
  end.
(** [r] points at the inline fragment [k], which matches the component
    [S]; [q] points at nothing; the override table has an entry for each *)
Definition override_doc : json :=
JObj [("paths",
       JObj [("/p",
              JObj [("k", S_schema);
                    ("r", ref "#/paths/~1p/k");
                    ("q", ref "#/paths/~1p/nowhere")])]);
      ("components",
       JObj [("schemas",
              JObj [("S", S_schema); ("T", JObj [("type", JStr "string")]);
                    ("Manual", JObj [("type", JStr "integer")]);
                    ("Other", JObj [("type", JStr "boolean")])])])].

Definition override_options : BundleOptions :=
{| specDir := "/spec"; entryFile := None;
   outputSpec := Some "out/spec.json"; outputMetadata := Some "out/meta.json";
   optManualOverrides :=
     [("#/paths/~1p/k", "Manual"); ("#/paths/~1p/nowhere", "Other")];
   dereferencePathLocalRefs := false;
   allowPathLocalLikeRefs := false |}.

Definition override_result : BundleResult unit :=
Eval vm_compute in result_of (run_on override_doc 50 override_options).

(** the document, the closure and the store when the walk of step 3 starts *)
Definition before_walk (doc : json) (fuel : nat) (options : BundleOptions)
  : outcome (loc * env * store) :=
('(bundled, schemas, _) ← prepare (λ _, None) fuel fs1 options doc;
 E ← closure fuel options bundled schemas;
 mret (bundled, E)) empty_store.

(** the closure and the store of [override_doc] when the walk starts: the
    document at address 15, [k], [r] and [q] at 2, 3 and 4, the component
    collection at 13, the snapshot at 31 with its [k] at 18 *)
Definition override_env : env :=
Eval vm_compute in
  match before_walk override_doc 50 override_options with
  | Ret (_, E, _) => E
  | _ => Env 0 ∅ ∅ [] VNull
  end.

Definition override_store : store :=
Eval vm_compute in
  match before_walk override_doc 50 override_options with
  | Ret (_, σ) => σ
  | _ => empty_store
  end.

(** the visited set and the store once the target of [r] is normalized *)
Definition override_target : gset loc * store :=
Eval vm_compute in
  match safeNormalize 49 override_env (VRef 18) ({[3]} ∪ ∅) override_store with
  | Ret x => x
  | _ => (∅, empty_store)
  end.

(** two trees with the same files: the entries listed in another order,
    an empty directory in one and a link in the other *)
Definition tree1 : list (string * fsnode) :=
[("a.yaml", File "x");
 ("sub", Dir [("b.yaml", File "y"); ("c.yaml", File "z")]);
 ("link", Other)].

Definition tree2 : list (string * fsnode) :=
[("sub", Dir [("c.yaml", File "z"); ("b.yaml", File "y")]);
 ("empty", Dir []);
 ("a.yaml", File "x")].

(** two values with the same content, the keys in another order at two
    depths *)
Definition keyed1 : json :=
JObj [("a", JNum 1); ("title", JStr "t");
      ("b", JArr [JObj [("x", JNull); ("y", JStr "s")]; JBool true])].

Definition keyed2 : json :=
JObj [("b", JArr [JObj [("y", JStr "s"); ("x", JNull)]; JBool true]);
      ("title", JStr "t"); ("a", JNum 1)].

(** an object with its keys in two orders; two schemas that differ in
    their description; an object whose only key is [__proto__] *)
Definition ab : json := JObj [("a", JNum 1); ("b", JNum 2)].
Definition ba : json := JObj [("b", JNum 2); ("a", JNum 1)].
Definition described (text : string) : json :=
JObj [("type", JStr "string"); ("description", JStr text)].
Definition proto : json := JObj [("__proto__", JNum 1)].

(** the store of [override_doc] before step 4, the document at address 15
    and its component collection at 13, and what a pass of
    [freshSignatureDedup] makes of it *)
Definition override_ready : store :=
Eval vm_compute in
  match before_dereference override_doc 50 with
  | Ret (_, σ) => σ
  | _ => empty_store
  end.

Definition override_deduped : nat * store :=
Eval vm_compute in
  match freshSignatureDedup 50 15 13 override_ready with
  | Ret x => x
  | _ => (O, empty_store)
  end.

(** [like_doc] as [JSON.parse] leaves it in an empty store: the document
    at address 5 *)
Definition like_store : store :=
Eval vm_compute in
  match load like_doc empty_store with
  | Ret (_, σ) => σ
  | _ => empty_store
  end.

(** a document with an encoded reference, in an empty store (the document
    at address 2), and the store after [rewriteInternalRefs] *)
Definition encoded_doc : json :=
JObj [("paths",
       JObj [("/a", ref "#/paths/~1b/properties/%24like")])].

Definition encoded_store : store :=
Eval vm_compute in
  match load encoded_doc empty_store with
  | Ret (_, σ) => σ
  | _ => empty_store
  end.

Definition encoded_rewritten : store :=
Eval vm_compute in
  match rewriteInternalRefs 50 (VRef 2) encoded_store with
  | Ret (_, σ) => σ
  | _ => empty_store
  end.

(** a world in which every path exists, no call fails, paths are joined
    with [/] and nothing is printed *)
Definition calm_world : Sys.world :=
  {| Sys.env := λ _, None;
     Sys.path_resolve := String.concat "/";
     Sys.path_join := String.concat "/";
     Sys.exists_now := λ _ _, true;
     Sys.time_now := λ _, 1700000000000%Z;
     Sys.raised := λ _ _, None;
     Sys.printed := λ _ _ _, EmptyString |}.

Definition fetch_options : Fetch.FetchOptions :=
  {| Fetch.repoUrl := None; Fetch.ref := Some "stable/8.8";
     Fetch.specDir := None; Fetch.entryFile := None;
     Fetch.outputDir := "/work/spec"; Fetch.skipIfExists := None |}.

(** the calls of the fetch in the calm world up to the removal of the
    output directory, the latest first *)
Definition fetch_calls : list Sys.call :=
  let tmp := "/work/spec/../.tmp-clone-1700000000000" in
  [Sys.ExistsSync "/work/spec";
   Sys.ExistsSync
     (tmp +:+ "/zeebe/gateway-protocol/src/main/proto/v2/rest-api.yaml");
   Sys.ExecFileSync "git" ["-C"; tmp; "checkout"];
   Sys.ExecFileSync "git"
     ["-C"; tmp; "sparse-checkout"; "set";
      "/zeebe/gateway-protocol/src/main/proto/v2"];
   Sys.ExecFileSync "git" ["-C"; tmp; "sparse-checkout"; "init"; "--no-cone"];
   Sys.ExecFileSync "git"
     ["clone"; "--depth"; "1"; "--branch"; "stable/8.8"; "--filter=blob:none";
      "--sparse"; "https://github.com/camunda/camunda.git"; tmp];
   Sys.MkdirSync tmp;
   Sys.DateNow].

(** a specification with three operations, one of them eventually
    consistent, one with parameters and a union as request body, and a
    path item that lists [post] before [get] *)
Definition operations_doc : json :=
  JObj [("paths", JObj
     [("/jobs", JObj
        [("post", JObj
           [("operationId", JStr "activateJobs");
            ("parameters", JArr
               [JObj [("in", JStr "query"); ("name", JStr "limit")];
                JObj [("in", JStr "path"); ("name", JStr "jobKey");
                      ("required", JBool true)]]);
            ("requestBody", JObj [("content", JObj
               [("application/json", JObj [("schema", JObj [("oneOf", JArr
                  [JObj [("$ref", JStr "#/components/schemas/ByKey")];
                   JObj [("$ref", JStr "#/components/schemas/ById")]])])])])])]);
         ("get", JObj [("x-eventually-consistent", JBool true)])]);
      ("/users", JObj
        [("parameters", JArr []);
         ("delete", JObj [("operationId", JStr "deleteUser");
                          ("x-eventually-consistent", JStr "true")])])]);
        ("components", JObj [("schemas", JObj
           [("ByKey", JObj [("type", JStr "object");
                            ("properties", JObj [("tenantId", JObj [])])]);
            ("ById", JObj [("type", JStr "object");
                           ("properties", JObj [("tenantId", JObj [])]);
                           ("required", JArr [JStr "id"])])])])].

(** the paths of that specification *)
Definition operations_paths : list (string * json) :=
  match operations_doc with
  | JObj (("paths", JObj paths) :: _) => paths
  | _ => []
  end.

(** what [extractOperations] returns for it *)
Definition operations_result
  : list EventuallyConsistentOp.t * list OperationSummary.t :=
  Eval vm_compute in
    match Metadata.extractOperations operations_doc with
    | Ret r => r
    | _ => ([], [])
    end.

(** schemas of which one is a semantic key and one a union *)
Definition metadata_schemas : list (string * json) :=
  [("LongKey", JObj [("type", JStr "string"); ("x-semantic-type", JStr "LongKey")]);
   ("JobKey", JObj [("x-semantic-type", JStr "JobKey");
                    ("allOf", JArr [JObj [("$ref", JStr "#/components/schemas/LongKey")]])]);
   ("ResourceKey", JObj [("x-semantic-type", JStr "ResourceKey");
                         ("oneOf", JArr [JObj [("$ref", JStr "#/components/schemas/JobKey")]])])].

(** a document that holds itself, with a path-local $like reference *)
Definition knot : gmap loc cell :=
  {[ O := CObj [("$ref", VStr "#/paths/~1jobs/post/properties/$like");
                ("self", VRef O); ("items", VRef 1%nat)];
     1%nat := CArr [VRef O; VRef 1%nat; VNull] ]}.



End Samples.

(** ** Vocabulary of the properties *)

(** the objects of a JSON value, at any depth *)
Fixpoint objects_of (j : json) : list (list (string * json)) :=
  match j with
  | JArr items => flat_map objects_of items
  | JObj props => props :: flat_map (λ kv, objects_of kv.2) props
  | _ => []
  end.

(** an object of the store that is no path-local $like reference *)
Definition clean_cell (c : cell) : Prop :=
  ∀ ref, string_prop c "$ref" = Some ref → is_path_local_like ref = false.

(** a set of addresses that holds only clean objects and is closed under
    [Object.values] *)
Definition clean_closed (h : gmap loc cell) (visited : gset loc) : Prop :=
  ∀ l, l ∈ visited →
    ∃ c, h !! l = Some c ∧ clean_cell c
         ∧ ∀ l', VRef l' ∈ cell_values c → l' ∈ visited.

(** Percent-encoding, one level: every character that is not kept becomes
    [%XX], as [encodeURIComponent] and the bundler upstream write it. *)
Definition HEX (n : N) : ascii :=
  ascii_of_N (if (n <? 10)%N then 48 + n else 55 + n)%N.

Fixpoint percentEncode (keep : ascii → bool) (s : string) : string :=
  match s with
  | EmptyString => EmptyString
  | String c s' =>
      if keep c then String c (percentEncode keep s')
      else
        let n := N_of_ascii c in
        String "%" (String (HEX (n / 16)) (String (HEX (n mod 16))
          (percentEncode keep s')))
  end.

(** text of 7-bit characters only *)
Fixpoint ascii7 (s : string) : bool :=
  match s with
  | EmptyString => true
  | String c s' => (N_of_ascii c <? 128)%N && ascii7 s'
  end.

(** what [encodeURIComponent] keeps, and the separator of a pointer *)
Definition pointer_char (c : ascii) : bool :=
  let n := N_of_ascii c in
  ((48 <=? n) && (n <=? 57) || (65 <=? n) && (n <=? 90)
   || (97 <=? n) && (n <=? 122))%N
  || existsb (Ascii.eqb c) (list_ascii_of_string "-_.!~*'()/").

(** the state of the dereferencing loop of [recursive_doc] once it goes
    round: on top of the stack an object [t] whose [x] is a reference [r]
    to the path of the object it was copied from; the snapshot as it was
    taken *)
Record going_round (σ : store) (t r : loc) (seen : gset loc) : Prop := {
  gr_top : cells σ !! t = Some (CObj [("x", VRef r)]);
  gr_ref : cells σ !! r = Some Samples.self_ref;
  gr_root : cells σ !! 17 = Some (CObj [("paths", VRef 14); ("components", VRef 16)]);
  gr_paths : cells σ !! 14 = Some (CObj [("/a", VRef 13)]);
  gr_a : cells σ !! 13 = Some (CObj [("x", VRef 12)]);
  gr_x : cells σ !! 12 = Some Samples.self_ref;
  gr_live : t ∉ [12; 13; 14; 17];
  gr_next : (17 < next σ)%nat;
  gr_below : (t < next σ)%nat;
  gr_seen : ∀ l, l ∈ seen → (l < next σ)%nat ∧ l ≠ t
}.

(** the store after one more round: the copy at [next σ] and [S (next σ)],
    and [t.x] set to it *)
Definition one_more (σ : store) (t : loc) : store :=
  Store (<[t := CObj [("x", VRef (S (next σ)))]]>
           (<[S (next σ) := CObj [("x", VRef (next σ))]]>
              (<[next σ := Samples.self_ref]> (cells σ))))
        (S (S (next σ))).

(** The candidates of the block "Rewrite path-local refs to component
    refs", each for a target [target] of signature [sig] and a reference
    [ref]: the target refers to a component; the override table has an
    entry; a component has this signature. *)
Definition adopted (target : cell) : option string :=
  match string_prop target "$ref" with
  | Some r => if Str.startsWith r COMPONENT_PREFIX then Some r else None
  | None => None
  end.

Definition overridden (E : env) (ref : string) : option string :=
  String.append COMPONENT_PREFIX <$> nonempty (Obj.get ref (manualOverrides E)).

Definition signature_matched (E : env) (sig : string) : option string :=
  String.append COMPONENT_PREFIX <$> nonempty (schemaSignatureMap E !! sig).

(** the first candidate that applies *)
Definition first_match (candidates : list (option string)) : option string :=
  head (omap id candidates).

(** the order of the three, on the target as it is once normalized *)
Definition rewrite_priority (E : env) (ref : string) (target : cell)
    (sig : string) : option string :=
  first_match [adopted target; overridden E ref; signature_matched E sig].

(** the test of the short-circuit to [LikeFilter] *)
Definition like_filter (sch : cell) (ref : string) : bool :=
  is_like_shape (normalizeInternalRef ref)
  && truthy_opt (cell_get sch "LikeFilter").

(** The order as C4 words it, decided on the target as the pointer resolves
    to it: [target] and [sig] are absent when the pointer resolves to no
    object. *)
Definition claimed_priority (E : env) (sch : cell) (ref : string)
    (target : option cell) (sig : option string) : option string :=
  first_match
    [ (if like_filter sch ref then Some (COMPONENT_PREFIX +:+ "LikeFilter") else None);
      target ≫= adopted;
      overridden E ref;
      sig ≫= signature_matched E ].

(** [obj['$ref'] = ref] on the object at [l] *)
Definition point_at (l : loc) (obj : cell) (ref : string) (σ : store) : store :=
  Store (<[l := set_prop obj "$ref" (VStr ref)]> (cells σ)) (next σ).

(** a step of the store that writes at [l] at most *)
Definition writes_only (l : loc) (σ σ' : store) : Prop :=
  next σ' = next σ ∧ ∀ x, x ≠ l → cells σ' !! x = cells σ !! x.

(** what a call of [safeNormalize] leaves alone: the objects that were
    visited before it *)
Definition keeps (seen : gset loc) (σ : store) (seen' : gset loc) (σ' : store)
  : Prop :=
  seen ⊆ seen' ∧ next σ' = next σ
  ∧ ∀ x, x ∈ seen → cells σ' !! x = cells σ !! x.

(** The files below a node whose path is [p], with their paths and their
    bytes, in the order of the entries. *)
Fixpoint files_of (p : string) (n : fsnode) : list (string * string) :=
  match n with
  | File content => [(p, content)]
  | Dir entries =>
      (fix go (l : list (string * fsnode)) : list (string * string) :=
         match l with
         | [] => []
         | (name, e) :: l' => (files_of (path_join p name) e ++ go l')%list
         end) entries
  | Other => []
  end.

(** the files below the entries of a directory; [path] gives the path of
    an entry of the directory from its name *)
Definition files_below (path : string → string) (entries : list (string * fsnode))
  : list (string * string) :=
  flat_map (λ ne, files_of (path ne.1) ne.2) entries.

(** the relative paths of the files of a tree, each with its bytes *)
Definition relative_files (root : fsnode) : list (string * string) :=
  match root with
  | Dir entries => files_below id entries
  | _ => []
  end.

(** the finite map of relative file paths to file contents *)
Definition file_map (root : fsnode) : gmap string string :=
  list_to_map (relative_files root).

(** the nodes below the entries of a directory, and below the directories
    of a stack *)
Definition entries_size (entries : list (string * fsnode)) : nat :=
  sum_list (fs_size ∘ snd <$> entries).

Definition stack_size (stack : list (string * list (string * fsnode))) : nat :=
  sum_list (S ∘ entries_size ∘ snd <$> stack).

(** the files a stack of directories still has to give *)
Definition stack_files (stack : list (string * list (string * fsnode)))
  : list (string * string) :=
  flat_map (λ d, files_below (path_join d.1) d.2) stack.

(** a relative path with its bytes, made absolute *)
Definition below (rootDir : string) (f : string * string) : string * string :=
  (path_join rootDir f.1, f.2).

(** Two values are equal up to the order of the keys, at any depth: the
    same scalar; arrays of the same length, equal up to the order of the
    keys item by item; objects with as many keys, every key of the first
    a key of the second, with values equal up to the order of the keys. *)
Fixpoint same_up_to_keys (a b : json) : bool :=
  match a, b with
  | JNull, JNull => true
  | JBool x, JBool y => Bool.eqb x y
  | JNum x, JNum y => Z.eqb x y
  | JStr x, JStr y => String.eqb x y
  | JArr xs, JArr ys =>
      (fix go (l1 l2 : list json) : bool :=
         match l1, l2 with
         | [], [] => true
         | x :: l1', y :: l2' => same_up_to_keys x y && go l1' l2'
         | _, _ => false
         end) xs ys
  | JObj o1, JObj o2 =>
      Nat.eqb (length o1) (length o2)
      && forallb (λ kv, match Obj.get kv.1 o2 with
                        | Some w => same_up_to_keys kv.2 w
                        | None => false
                        end) o1
  | _, _ => false
  end.

(** the keys of every object are distinct, as they are in a JavaScript
    object *)
Fixpoint distinct_keys (v : json) : bool :=
  match v with
  | JArr items => forallb distinct_keys items
  | JObj props =>
      bool_decide (NoDup (Obj.keys props))
      && forallb (λ kv, distinct_keys kv.2) props
  | _ => true
  end.

(** no object has an own property ["__proto__"] *)
Fixpoint proto_free (v : json) : bool :=
  match v with
  | JArr items => forallb proto_free items
  | JObj props =>
      negb (Obj.has "__proto__" props)
      && forallb (λ kv, proto_free kv.2) props
  | _ => true
  end.

(** the items of an array and the properties of an object as
    [JSON.stringify] writes them, after the opening bracket *)
Fixpoint write_items (first : bool) (l : list json) (k : string) : string :=
  match l with
  | [] => String "]" k
  | x :: l' =>
      if first then JSON.write x (write_items false l' k)
      else String "," (JSON.write x (write_items false l' k))
  end.

Fixpoint write_props (first : bool) (l : list (string * json)) (k : string)
  : string :=
  match l with
  | [] => String "}" k
  | (key, x) :: l' =>
      if first
      then JSON.quote key (String ":" (JSON.write x (write_props false l' k)))
      else String "," (JSON.quote key (String ":"
             (JSON.write x (write_props false l' k))))
  end.

(** the loop of [stripMetadata] over the entries of an object *)
Fixpoint strip_entries (l : list (string * json)) (result : list (string * json))
  : list (string * json) :=
  match l with
  | [] => result
  | (key, val) :: l' =>
      if String.eqb key "description" || String.eqb key "title"
      then strip_entries l' result
      else strip_entries l' (Obj.set key (stripMetadata val) result)
  end.

(** the [reduce] of [sortKeys] over the sorted keys, [f] giving the
    sorted value of a key *)
Definition assign_all (f : string → option json) (keys : list string)
    (acc : list (string * json)) : list (string * json) :=
  fold_left (λ acc key, match f key with
                        | Some v => Obj.set key v acc
                        | None => acc
                        end) keys acc.

(** a character that is a decimal digit *)
Definition is_digit (c : ascii) : bool :=
  let n := N_of_ascii c in ((48 <=? n) && (n <=? 57))%N.

(** text that can follow a value in what [JSON.stringify] writes: it does
    not go on with a digit *)
Definition delimited (k : string) : bool :=
  match k with
  | EmptyString => true
  | String c _ => negb (is_digit c)
  end.

(** the inverse of [JSON.quote_char]: the character that an escape, or a
    plain character, stands for, and the rest of the text *)
Definition hex_value (c : ascii) : option N :=
  let n := N_of_ascii c in
  if ((48 <=? n) && (n <=? 57))%N then Some (n - 48)%N
  else if ((97 <=? n) && (n <=? 102))%N then Some (n - 87)%N
  else None.

Definition unquote_char (s : string) : option (ascii * string) :=
  match s with
  | EmptyString => None
  | String c r =>
      if Ascii.eqb c JSON.BS then
        match r with
        | String e r' =>
            if Ascii.eqb e JSON.DQ then Some (JSON.DQ, r')
            else if Ascii.eqb e JSON.BS then Some (JSON.BS, r')
            else if Ascii.eqb e "b" then Some (ascii_of_N 8, r')
            else if Ascii.eqb e "t" then Some (ascii_of_N 9, r')
            else if Ascii.eqb e "n" then Some (ascii_of_N 10, r')
            else if Ascii.eqb e "f" then Some (ascii_of_N 12, r')
            else if Ascii.eqb e "r" then Some (ascii_of_N 13, r')
            else
              match r' with
              | String _ (String _ (String h (String l r''))) =>
                  match hex_value h, hex_value l with
                  | Some a, Some b => Some (ascii_of_N (a * 16 + b), r'')
                  | _, _ => None
                  end
              | _ => None
              end
        | EmptyString => None
        end
      else if Ascii.eqb c JSON.DQ then None
      else Some (c, r)
  end.

(** text of decimal digits only *)
Fixpoint all_digits (s : string) : bool :=
  match s with
  | EmptyString => true
  | String c s' => is_digit c && all_digits s'
  end.

(** what the first character of its text tells about a value *)
Inductive json_kind : Type :=
| KNull | KBool | KNum | KStr | KArr | KObj | KNone.

Definition kind_of (v : json) : json_kind :=
  match v with
  | JNull => KNull
  | JBool _ => KBool
  | JNum _ => KNum
  | JStr _ => KStr
  | JArr _ => KArr
  | JObj _ => KObj
  end.

Definition kind_of_text (s : string) : json_kind :=
  match s with
  | EmptyString => KNone
  | String c _ =>
      if Ascii.eqb c "n" then KNull
      else if Ascii.eqb c "t" || Ascii.eqb c "f" then KBool
      else if is_digit c || Ascii.eqb c "-" then KNum
      else if Ascii.eqb c JSON.DQ then KStr
      else if Ascii.eqb c "[" then KArr
      else if Ascii.eqb c "{" then KObj
      else KNone
  end.

(** the keys that the stripped form of an object never has *)
Definition metadata_key (k : string) : Prop :=
  k = "description" ∨ k = "title" ∨ k = "__proto__".

(** the items [unescape] finds in an encoded text *)
Fixpoint items_of (keep : ascii → bool) (s : string) : list URI.item :=
  match s with
  | EmptyString => []
  | String c s' =>
      (if keep c then URI.Raw c else URI.Esc (N_of_ascii c)) :: items_of keep s'
  end.

(** what follows a value that is written decides nothing about it *)
Definition write_inj_at (x : json) : Prop :=
  ∀ y k1 k2, delimited k1 = true → delimited k2 = true →
    JSON.write x k1 = JSON.write y k2 → x = y ∧ k1 = k2.

(** ** Vocabulary of the further properties *)

(** [s] starts with two hexadecimal digits *)
Definition two_hex (s : string) : bool :=
  match s with
  | String h (String l _) =>
      match URI.hexval h, URI.hexval l with
      | Some _, Some _ => true
      | _, _ => false
      end
  | _ => false
  end.

(** RFC 6901: a key as a segment of a JSON pointer, [~] written [~0] and
    [/] written [~1] *)
Fixpoint pointer_escape (key : string) : string :=
  match key with
  | EmptyString => EmptyString
  | String c key' =>
      if Ascii.eqb c "~" then String "~" (String "0" (pointer_escape key'))
      else if Ascii.eqb c "/" then String "~" (String "1" (pointer_escape key'))
      else String c (pointer_escape key')
  end.

(** the same with [/] left as it is *)
Fixpoint tilde_escape (key : string) : string :=
  match key with
  | EmptyString => EmptyString
  | String c key' =>
      if Ascii.eqb c "~" then String "~" (String "0" (tilde_escape key'))
      else String c (tilde_escape key')
  end.

(** the segments of a pointer, each after its [/] *)
Fixpoint pointer_segments (keys : list string) : string :=
  match keys with
  | [] => EmptyString
  | k :: rest => String "/" (pointer_escape k +:+ pointer_segments rest)
  end.

(** the JSON pointer of a path of keys, as a URI fragment *)
Definition pointer_of (keys : list string) : string :=
  String "#" (pointer_segments keys).

(** [root[k1][k2]...] through own properties (and the items and the
    length of arrays): [Some v] is the value the keys lead to; [None]
    stands for a key that is no own property of the object reached, where
    JavaScript goes on to the prototype chain, and for a path that leaves
    the objects *)
Fixpoint follow (h : gmap loc cell) (cur : option val) (keys : list string)
  : outcome (option val) :=
  match keys with
  | [] => Ret cur
  | k :: rest =>
      match cur with
      | Some (VRef l) =>
          match h !! l with
          | Some c => follow h (cell_get c k) rest
          | None => Throw "TypeError: dangling address"
          end
      | _ => Ret None
      end
  end.

(** the names [promoteInlineSchemas] tries in turn for a promoted schema:
    the name itself, then the name with 1, 2, ... after it *)
Definition candidate (promotedName : string) (i : nat) : string :=
  match i with
  | O => promotedName
  | S _ => promotedName +:+ pretty i
  end.

(** the one change [safeNormalize] makes to a component schema: a
    reference of the $like shape is pointed at [LikeFilter] *)
Definition like_rewritten (c c' : cell) : Prop :=
  ∃ raw, string_prop c "$ref" = Some raw
         ∧ is_like_shape (normalizeInternalRef raw) = true
         ∧ c' = set_prop c "$ref" (VStr (COMPONENT_PREFIX +:+ "LikeFilter")).

(** a step of the store that allocates nothing and leaves the objects of
    [P] as they are, but for the rewrite of a $like reference *)
Definition spares (P : gset loc) (σ σ' : store) : Prop :=
  next σ' = next σ
  ∧ ∀ x, x ∈ P →
      cells σ' !! x = cells σ !! x
      ∨ ∃ c c', cells σ !! x = Some c ∧ cells σ' !! x = Some c'
                ∧ like_rewritten c c'.

(** a step of the store that allocates nothing and leaves the objects of
    [P] as they are *)
Definition untouched (P : gset loc) (σ σ' : store) : Prop :=
  next σ' = next σ ∧ ∀ x, x ∈ P → cells σ' !! x = cells σ !! x.

(** [l'] is a value of the object or of the array at [l] *)
Definition edge (h : gmap loc cell) (l l' : loc) : Prop :=
  ∃ c, h !! l = Some c ∧ VRef l' ∈ cell_values c.

(** the object at [l] is a path-local $like reference, by the test of
    [findPathLocalLikeRefs] *)
Definition like_at (h : gmap loc cell) (l : loc) : bool :=
  match h !! l with
  | Some (CObj props) =>
      match string_prop (CObj props) "$ref" with
      | Some r => is_path_local_like r
      | None => false
      end
  | _ => false
  end.

(** an object after [rewriteInternalRefs] has visited it *)
Definition normalized (c : cell) : cell :=
  match c with
  | CObj _ =>
      match string_prop c "$ref" with
      | Some r => set_prop c "$ref" (VStr (normalizeInternalRef r))
      | None => c
      end
  | CArr _ => c
  end.

(** *** cli.ts: the options of a command line *)

Inductive cli_flag : Type :=
| OFetch | ODerefPathLocal | OAllowLikeRefs | OSkipFetchIfExists | OHelp | OH.

Inductive cli_valued : Type :=
| OSpecDir | ORef | ORepoUrl | OOutputDir | OEntryFile | OOutputSpec
| OOutputMetadata.

Inductive cli_option : Type :=
| Flag (f : cli_flag)
| Valued (o : cli_valued) (v : string).

Definition flag_word (f : cli_flag) : string :=
  match f with
  | OFetch => "--fetch"
  | ODerefPathLocal => "--deref-path-local"
  | OAllowLikeRefs => "--allow-like-refs"
  | OSkipFetchIfExists => "--skip-fetch-if-exists"
  | OHelp => "--help"
  | OH => "-h"
  end.

Definition valued_word (o : cli_valued) : string :=
  match o with
  | OSpecDir => "--spec-dir"
  | ORef => "--ref"
  | ORepoUrl => "--repo-url"
  | OOutputDir => "--output-dir"
  | OEntryFile => "--entry-file"
  | OOutputSpec => "--output-spec"
  | OOutputMetadata => "--output-metadata"
  end.

(** the words of an option on the command line *)
Definition words (o : cli_option) : list string :=
  match o with
  | Flag f => [flag_word f]
  | Valued o v => [valued_word o; v]
  end.

Definition command_line (opts : list cli_option) : list string :=
  concat (words <$> opts).

Definition set_flag (f : cli_flag) : Cli.CliArgs → Cli.CliArgs :=
  match f with
  | OFetch => Cli.set_fetch true
  | ODerefPathLocal => Cli.set_derefPathLocal true
  | OAllowLikeRefs => Cli.set_allowLikeRefs true
  | OSkipFetchIfExists => Cli.set_skipFetchIfExists true
  | OHelp | OH => Cli.set_help true
  end.

Definition set_valued (o : cli_valued) : option string → Cli.CliArgs → Cli.CliArgs :=
  match o with
  | OSpecDir => Cli.set_specDir
  | ORef => Cli.set_ref
  | ORepoUrl => Cli.set_repoUrl
  | OOutputDir => Cli.set_outputDir
  | OEntryFile => Cli.set_entryFile
  | OOutputSpec => Cli.set_outputSpec
  | OOutputMetadata => Cli.set_outputMetadata
  end.

(** what an option does to the arguments *)
Definition set_option (args : Cli.CliArgs) (o : cli_option) : Cli.CliArgs :=
  match o with
  | Flag f => set_flag f args
  | Valued o v => set_valued o (Some v) args
  end.

(** the words [parseArgs] knows *)
Definition known_words : list string :=
  ["--fetch"; "--spec-dir"; "--ref"; "--repo-url"; "--output-dir";
   "--entry-file"; "--output-spec"; "--output-metadata"; "--deref-path-local";
   "--allow-like-refs"; "--skip-fetch-if-exists"; "--help"; "-h"].

(** *** fetch.ts: the calls of a fetch *)

(** the call [c] was made when the calls before it were [k] *)
Definition made (c : Sys.call) (k h : list Sys.call) : Prop :=
  (c :: k) `suffix_of` h.

(** the last calls of [h] look for [tmp] and remove it if it is there *)
Definition cleaned (w : Sys.world) (tmp : string) (h : list Sys.call) : Prop :=
  ∃ k, (h = Sys.ExistsSync tmp :: k ∧ Sys.exists_now w k tmp = false)
       ∨ (h = Sys.RmSync tmp :: Sys.ExistsSync tmp :: k
          ∧ Sys.exists_now w k tmp = true).

(** the calls that change the directory [dir] *)
Definition changes (dir : string) (c : Sys.call) : Prop :=
  c = Sys.RmSync dir ∨ c = Sys.MkdirSync dir ∨ ∃ src, c = Sys.CpSync src dir.

(** whether [fetchSpec] returns without a fetch *)
Definition skipped (w : Sys.world) (options : Fetch.FetchOptions)
    (h : list Sys.call) : bool :=
  default false (Fetch.skipIfExists options)
  && Sys.exists_now w h
       (Sys.path_join w [Sys.path_resolve w [Fetch.outputDir options];
                         default Fetch.DEFAULT_ENTRY_FILE (Fetch.entryFile options)]).

(** *** metadata.ts: names and operations *)

(** the characters of a stable id: no capital letter of ASCII and no [_] *)
Definition stable_char (c : ascii) : bool :=
  negb (Metadata.is_upper c) && negb (Ascii.eqb c "_").

(** the path and the method of an operation *)
Definition operation_key (o : OperationSummary.t) : string * string :=
  (OperationSummary.path o, OperationSummary.method o).

(** the paths of a document with each of the methods, in the order of the
    document and of [HTTP_METHODS] *)
Definition operation_keys (paths : list (string * json)) : list (string * string) :=
  p ← Obj.keys paths; (λ m, (p, m)) <$> Metadata.HTTP_METHODS.

(** [schema] has an array as [oneOf] or [anyOf] *)
Definition is_union (schema : json) : bool :=
  Metadata.is_array (Metadata.field schema "oneOf")
  || Metadata.is_array (Metadata.field schema "anyOf").

(** *** helpers.ts: documents without dangling parts *)

(** every address stored in an object or an array of the heap is in the
    heap *)
Definition closed (h : gmap loc cell) : Prop :=
  ∀ l c l', h !! l = Some c → VRef l' ∈ cell_values c → is_Some (h !! l').

(** the number of the values of the objects and of the items of the
    arrays of the heap *)
Definition stored_values (h : gmap loc cell) : nat :=
  map_fold (λ _ c n, length (cell_values c) + n)%nat O h.

(** *** bundle.ts: the components of a document *)

(** the addresses in use are below the next one *)
Definition fresh_next (σ : store) : Prop :=
  ∀ l, is_Some (cells σ !! l) → (l < next σ)%nat.

(** [doc.components] is the object at [c], and it has a truthy [schemas] *)
Definition components_at (σ : store) (doc c : loc) : Prop :=
  ∃ dp cp,
    cells σ !! doc = Some (CObj dp) ∧ Obj.get "components" dp = Some (VRef c)
    ∧ cells σ !! c = Some (CObj cp)
    ∧ truthy_opt (Obj.get "schemas" cp) = true.

(** the [components] of the document with the properties [props] is
    missing, falsy or an object that is no array *)
Definition components_fit (σ : store) (props : list (string * val)) : Prop :=
  match Obj.get "components" props with
  | Some (VRef c) => ∃ cp, cells σ !! c = Some (CObj cp)
  | Some v => truthy v = false
  | None => True
  end.

(** *** bundle.ts: the files of a run *)


(** * Properties *)

(** ** The monad of the store *)

Lemma bind_Ret {A B} (m : M A) (f : A → M B) σ b σ' :
  (m ≫= f) σ = Ret (b, σ') →
  ∃ a σ1, m σ = Ret (a, σ1) ∧ f a σ1 = Ret (b, σ').
Proof.
  unfold mbind, M_bind. destruct (m σ) as [[a σ1]| | |]; try discriminate.
  intros H. eauto.
Qed.

Lemma bind_eq {A B} (m : M A) (f : A → M B) σ a σ1 :
  m σ = Ret (a, σ1) → (m ≫= f) σ = f a σ1.
Proof. unfold mbind, M_bind. intros ->. reflexivity. Qed.

Lemma read_Ret l σ c σ' :
  read l σ = Ret (c, σ') → σ' = σ ∧ cells σ !! l = Some c.
Proof.
  unfold read. destruct (cells σ !! l); [|discriminate].
  intros [= -> ->]. auto.
Qed.

Lemma read_eq l σ c : cells σ !! l = Some c → read l σ = Ret (c, σ).
Proof. unfold read. intros ->. reflexivity. Qed.

Lemma lift_opt_Ret {A} (f : gmap loc cell → option A) σ a σ' :
  lift_opt f σ = Ret (a, σ') → σ' = σ ∧ f (cells σ) = Some a.
Proof.
  unfold lift_opt. destruct (f (cells σ)); [|discriminate].
  intros [= -> ->]. auto.
Qed.

(** ** C5: validation *)




Section validation_facts.
Context {Meta : Type}.
Variable SwaggerParser_bundle : fsnode → string → outcome json.
Variable parseYaml : string → option json.
Variable extractMetadata : json → json → string → outcome Meta.
Variable sha256_hex : string → string.




End validation_facts.



(** ** C2: what survives validation *)

Lemma find_loop_mono fuel h stack seen c n :
  findPathLocalLikeRefs_loop fuel h stack seen c = Some n → (c ≤ n)%nat.
Proof.
  revert stack seen c. induction fuel as [|fuel IH]; intros stack seen c.
  - destruct stack; simpl; [intros [= ->]; lia | discriminate].
  - destruct stack as [|node stack']; simpl; [intros [= ->]; lia|].
    destruct node as [| | | |l]; try (apply IH).
    destruct (decide (l ∈ seen)); [apply IH|].
    destruct (h !! l) as [[props|items]|]; [| apply IH | discriminate].
    intros H. apply IH in H.
    destruct (string_prop (CObj props) "$ref") as [r|]; [|lia].
    destruct (is_path_local_like r); lia.
Qed.

Lemma string_prop_arr items k :
  k ≠ "length" → Obj.array_index k = None → string_prop (CArr items) k = None.
Proof.
  intros Hk Hi. unfold string_prop, cell_get.
  destruct (String.eqb_spec k "length"); [done|]. by rewrite Hi.
Qed.

Lemma elem_of_push_all (v : val) vs stack :
  v ∈ push_all vs stack ↔ v ∈ vs ∨ v ∈ stack.
Proof.
  unfold push_all. rewrite elem_of_app, !list_elem_of_In, <- in_rev. done.
Qed.

Lemma find_loop_sound fuel h stack seen c :
  findPathLocalLikeRefs_loop fuel h stack seen c = Some c →
  ∃ visited,
    seen ⊆ visited
    ∧ (∀ l, VRef l ∈ stack → l ∈ visited)
    ∧ ∀ l, l ∈ visited → l ∉ seen →
        ∃ cl, h !! l = Some cl ∧ clean_cell cl
              ∧ ∀ l', VRef l' ∈ cell_values cl → l' ∈ visited.
Proof.
  revert stack seen c. induction fuel as [|fuel IH]; intros stack seen c.
  - destruct stack; simpl; [|discriminate]. intros _.
    exists seen. split; [done|]. split; [intros l Hl; inversion Hl|].
    intros l Hl Hn. done.
  - destruct stack as [|node stack']; simpl.
    { intros _. exists seen. split; [done|]. split; [intros l Hl; inversion Hl|].
      intros l Hl Hn. done. }
    assert (Hskip : ∀ v, (∀ l, v ≠ VRef l) ∨ (∃ l, v = VRef l ∧ l ∈ seen) →
      findPathLocalLikeRefs_loop fuel h stack' seen c = Some c →
      ∃ visited, seen ⊆ visited ∧ (∀ l, VRef l ∈ v :: stack' → l ∈ visited)
        ∧ ∀ l, l ∈ visited → l ∉ seen →
            ∃ cl, h !! l = Some cl ∧ clean_cell cl
                  ∧ ∀ l', VRef l' ∈ cell_values cl → l' ∈ visited).
    { intros v Hv H. apply IH in H as (visited & Hsub & Hst & Hcl).
      exists visited. split; [done|]. split; [|done].
      intros l Hl. apply elem_of_cons in Hl as [Hl|Hl]; [|by apply Hst].
      destruct Hv as [Hv|(l0 & -> & Hin)]; [by destruct (Hv l)|].
      simplify_eq. by apply Hsub. }
    destruct node as [| | | |l]; try (apply Hskip; left; done).
    destruct (decide (l ∈ seen)) as [Hin|Hnin]. { apply Hskip. right. exists l. split; [reflexivity|exact Hin]. }
    clear Hskip.
    destruct (h !! l) as [[props|items]|] eqn:Hl; [| |discriminate].
    + intros H.
      assert (Hc : match string_prop (CObj props) "$ref" with
                   | Some r => if is_path_local_like r then S c else c
                   | None => c
                   end = c).
      { pose proof (find_loop_mono _ _ _ _ _ _ H) as Hm.
        destruct (string_prop (CObj props) "$ref") as [r|]; [|done].
        destruct (is_path_local_like r); [lia|done]. }
      rewrite Hc in H. apply IH in H as (visited & Hsub & Hst & Hcl).
      exists visited. split; [set_solver|]. split.
      * intros l0 Hl0. apply elem_of_cons in Hl0 as [Hl0|Hl0].
        -- simplify_eq. set_solver.
        -- apply Hst, elem_of_push_all. by right.
      * intros l0 Hl0 Hn0. destruct (decide (l0 = l)) as [->|Hne].
        -- exists (CObj props). split; [done|]. split.
           ++ intros r Hr. rewrite Hr in Hc.
              destruct (is_path_local_like r); [lia|done].
           ++ intros l' Hl'. apply Hst, elem_of_push_all. by left.
        -- apply Hcl; [done|]. set_solver.
    + intros H. apply IH in H as (visited & Hsub & Hst & Hcl).
      exists visited. split; [set_solver|]. split.
      * intros l0 Hl0. apply elem_of_cons in Hl0 as [Hl0|Hl0].
        -- simplify_eq. set_solver.
        -- apply Hst, elem_of_push_all. by right.
      * intros l0 Hl0 Hn0. destruct (decide (l0 = l)) as [->|Hne].
        -- exists (CArr items). split; [done|]. split.
           ++ intros r Hr. rewrite string_prop_arr in Hr; [done|done|done].
           ++ intros l' Hl'. apply Hst, elem_of_push_all. by left.
        -- apply Hcl; [done|]. set_solver.
Qed.

Lemma find_zero_closed fuel h root :
  findPathLocalLikeRefs fuel h (VRef root) = Some O →
  ∃ visited, root ∈ visited ∧ clean_closed h visited.
Proof.
  intros H. apply find_loop_sound in H as (visited & _ & Hst & Hcl).
  exists visited. split.
  - apply Hst. by apply list_elem_of_singleton.
  - intros l Hl. apply Hcl; [done|]. apply not_elem_of_empty.
Qed.

Lemma dump_JStr fuel h v s : dump fuel h v = Some (JStr s) → v = VStr s.
Proof.
  destruct fuel, v as [| | | |l]; simpl; try (intros [= <-]; done); try done.
  destruct (h !! l) as [[props|items]|]; [| |done].
  - destruct (mapM _ props); done.
  - destruct (mapM _ items); done.
Qed.

Lemma dump_get fuel h props ps k j :
  mapM (λ kv : string * val,
          match dump fuel h kv.2 with
          | Some j => Some (kv.1, j)
          | None => None
          end) props = Some ps →
  Obj.get k ps = Some j →
  ∃ v, Obj.get k props = Some v ∧ dump fuel h v = Some j.
Proof.
  intros H. apply mapM_Some in H. induction H as [|[k1 v1] [k2 j2] props ps H1 H IH].
  - done.
  - simpl in *. destruct (dump fuel h v1) as [j1|] eqn:Hd; [|done].
    injection H1 as <- <-. destruct (String.eqb k k1).
    + intros [= <-]. eauto.
    + apply IH.
Qed.

Lemma dump_clean fuel h visited v j :
  clean_closed h visited →
  (∀ l, v = VRef l → l ∈ visited) →
  dump fuel h v = Some j →
  ∀ props ref, props ∈ objects_of j →
    Obj.get "$ref" props = Some (JStr ref) → is_path_local_like ref = false.
Proof.
  intros Hcl. revert v j. induction fuel as [|fuel IH]; intros v j Hv.
  - destruct v; simpl; try (intros [= <-] props ref Hin; inversion Hin); done.
  - destruct v as [| | | |l]; simpl;
      try (intros [= <-] props ref Hin; inversion Hin).
    destruct (Hcl l (Hv l eq_refl)) as (c & Hl & Hclean & Hch).
    rewrite Hl. destruct c as [ps|items].
    + destruct (mapM _ ps) as [js|] eqn:Hm; [|done].
      intros [= <-] props ref Hin Hget. simpl in Hin.
      apply elem_of_cons in Hin as [->|Hin].
      * destruct (dump_get _ _ _ _ _ _ Hm Hget) as (v & Hgv & Hdv).
        apply dump_JStr in Hdv as ->. apply Hclean.
        unfold string_prop. simpl. by rewrite Hgv.
      * apply list_elem_of_In, in_flat_map in Hin as ([k jx] & Hk & Hin).
        apply list_elem_of_In in Hk, Hin. simpl in Hin.
        apply mapM_Some in Hm.
        assert (∃ vx, (k, vx) ∈ ps ∧ dump fuel h vx = Some jx) as (vx & Hvx & Hdx).
        { clear -Hm Hk. induction Hm as [|[k1 v1] [k2 j2] ps js H1 H IHm].
          - inversion Hk.
          - simpl in H1. destruct (dump fuel h v1) eqn:Hd; [|done].
            injection H1 as <- <-. apply elem_of_cons in Hk as [[= -> ->]|Hk].
            + exists v1. split; [left|done].
            + destruct (IHm Hk) as (vx & ? & ?). exists vx. split; [by right|done]. }
        eapply (IH vx jx); [|done|done|done].
        intros l' ->. apply Hch. simpl. unfold Obj.values.
        apply list_elem_of_fmap. exists (k, VRef l'). done.
    + destruct (mapM _ items) as [js|] eqn:Hm; [|done].
      intros [= <-] props ref Hin Hget. simpl in Hin.
      apply list_elem_of_In, in_flat_map in Hin as (jx & Hk & Hin).
      apply list_elem_of_In in Hk, Hin.
      apply mapM_Some in Hm.
      assert (∃ vx, vx ∈ items ∧ dump fuel h vx = Some jx) as (vx & Hvx & Hdx).
      { clear -Hm Hk. induction Hm as [|v1 j2 ps js H1 H IHm].
        - inversion Hk.
        - apply elem_of_cons in Hk as [->|Hk].
          + exists v1. split; [left|done].
          + destruct (IHm Hk) as (vx & ? & ?). exists vx. split; [by right|done]. }
      eapply (IH vx jx); [|done|done|done].
      intros l' ->. apply Hch. done.
Qed.

Lemma count_paths_pure bundled σ n σ' :
  count_paths bundled σ = Ret (n, σ') → σ' = σ.
Proof.
  unfold count_paths. intros H.
  apply bind_Ret in H as (b & σ1 & Hb & H). apply read_Ret in Hb as [-> _].
  destruct (cell_get b "paths") as [[| | |s|p]|]; try (by injection H as _ <-).
  apply bind_Ret in H as (c & σ2 & Hc & H). apply read_Ret in Hc as [-> _].
  by injection H as _ <-.
Qed.

Section survivors.
Context {Meta : Type}.
Variable SwaggerParser_bundle : fsnode → string → outcome json.
Variable parseYaml : string → option json.
Variable extractMetadata : json → json → string → outcome Meta.
Variable sha256_hex : string → string.

Lemma finish_spec fuel fs options s n σ files r σ' :
  finish extractMetadata sha256_hex fuel fs options s n σ = Ret ((files, r), σ') →
  dump fuel (cells σ) (VRef (st_bundled s)) = Some (spec r)
  ∧ pathLocalLikeRefCount (stats r) = n.
Proof.
  unfold finish. intros H.
  apply bind_Ret in H as (paths & σ1 & H1 & H). apply count_paths_pure in H1 as ->.
  apply bind_Ret in H as (sch & σ2 & H2 & H). apply read_Ret in H2 as [-> _].
  destruct (hashDirectoryTree _ _ _); [|discriminate].
  apply bind_Ret in H as (specJ & σ3 & H3 & H). apply lift_opt_Ret in H3 as [-> H3].
  apply bind_Ret in H as (schemasJ & σ4 & H4 & H). apply lift_opt_Ret in H4 as [-> H4].
  destruct (extractMetadata _ _ _); try discriminate.
  injection H as <- <- <-. simpl. done.
Qed.

(** C2, as the code has it.  In non-tolerant mode a run that returns has
    found no path-local $like reference: the counter is zero and no object
    of the final document carries a [$ref] that starts with [#/paths/] and
    ends in [/properties/$like] or [/properties/%24like].  (Other
    [#/paths/] references are not looked for.) *)
Theorem no_like_ref_survives fuel fs options r :
  allowPathLocalLikeRefs options = false →
  result (bundle SwaggerParser_bundle parseYaml extractMetadata sha256_hex
            fuel fs options) = Ret r →
  pathLocalLikeRefCount (stats r) = O
  ∧ ∀ props ref,
      props ∈ objects_of (spec r) →
      Obj.get "$ref" props = Some (JStr ref) →
      is_path_local_like ref = false.
Proof.
  intros Hallow. unfold bundle.
  destruct (fs_exists _ _); [|discriminate]. simpl.
  destruct (SwaggerParser_bundle _ _) as [doc| | |]; try discriminate.
  destruct (validation _ _ _ _ _) as [[[s n] σ]| | |] eqn:Hval; try discriminate.
  rewrite Hallow. simpl. destruct (0 <? n)%nat eqn:Hn; [discriminate|]. simpl.
  apply Nat.ltb_ge in Hn. assert (n = O) as -> by lia.
  destruct (finish _ _ _ _ _ _ _ _) as [[[files r0] σ']| | |] eqn:Hfin;
    try discriminate.
  simpl. intros [= ->]. apply finish_spec in Hfin as [Hdump Hcount].
  split; [done|].
  unfold validation in Hval.
  apply bind_Ret in Hval as (s1 & σ1 & _ & Hval).
  apply bind_Ret in Hval as (n1 & σ2 & Hc & Hval).
  unfold count_like_refs in Hc. apply lift_opt_Ret in Hc as [-> Hc].
  injection Hval as -> -> ->.
  apply find_zero_closed in Hc as (visited & Hroot & Hcl).
  eapply dump_clean; [exact Hcl| |exact Hdump].
  intros l [= <-]. exact Hroot.
Qed.
End survivors.

Lemma no_like_ref_survives_witness :
  pathLocalLikeRefCount (stats Samples.stray_result) = O
  ∧ ∀ props ref,
      props ∈ objects_of (spec Samples.stray_result) →
      Obj.get "$ref" props = Some (JStr ref) →
      is_path_local_like ref = false.
Proof.
  apply (no_like_ref_survives
           (λ _ _, Ret Samples.stray_doc) (λ _, None) (λ _ _ _, Ret tt) (λ s, s)
           50 Samples.fs1 Samples.options0).
  - reflexivity.
  - vm_compute. reflexivity.
Defined.

(** C2 as stated fails: with the default options a path-local reference
    that matches no component is still in the document a completed run
    returns, and it points into [paths], not into the component
    collection. *)
Lemma transient_pointer_survives :
  allowPathLocalLikeRefs Samples.options0 = false
  ∧ result (Samples.run_on Samples.stray_doc 50 Samples.options0)
    = Ret Samples.stray_result
  ∧ [("$ref", JStr "#/paths/~1a/x")] ∈ objects_of (spec Samples.stray_result)
  ∧ Str.startsWith "#/paths/~1a/x" PATHS_PREFIX = true
  ∧ Str.startsWith "#/paths/~1a/x" COMPONENT_PREFIX = false.
Proof.
  split; [reflexivity|]. split; [vm_compute; reflexivity|].
  split; [|split; reflexivity].
  vm_compute objects_of.
  repeat first [apply list_elem_of_here | apply list_elem_of_further].
Qed.

(** ** C8: decoding of internal references *)

Lemma unescape_escape c rest :
  URI.unescape
    (String "%" (String (HEX (N_of_ascii c / 16))
       (String (HEX (N_of_ascii c mod 16)) rest)))
  = match URI.unescape rest with
    | Some r => Some (URI.Esc (N_of_ascii c) :: r)
    | None => None
    end.
Proof. destruct c as [[] [] [] [] [] [] [] []]; reflexivity. Qed.

Lemma unescape_raw c rest :
  Ascii.eqb c "%" = false →
  URI.unescape (String c rest)
  = match URI.unescape rest with
    | Some r => Some (URI.Raw c :: r)
    | None => None
    end.
Proof. intros H. simpl. rewrite H. reflexivity. Qed.

Section percent.
Variable keep : ascii → bool.
Hypothesis keep_percent : keep "%" = false.

Lemma keep_not_percent c : keep c = true → Ascii.eqb c "%" = false.
Proof.
  intros H. destruct (Ascii.eqb_spec c "%") as [->|]; [|done]. congruence.
Qed.

Lemma unescape_percentEncode s :
  URI.unescape (percentEncode keep s) = Some (items_of keep s).
Proof.
  induction s as [|c s IH]; [done|]. simpl. destruct (keep c) eqn:Hk.
  - rewrite unescape_raw by (by apply keep_not_percent). by rewrite IH.
  - rewrite unescape_escape. by rewrite IH.
Qed.

Lemma utf8_items_of s : ascii7 s = true → URI.utf8 (items_of keep s) = Some s.
Proof.
  induction s as [|c s IH]; [done|]. simpl.
  intros [Hc Hs]%andb_true_iff. specialize (IH Hs).
  destruct (keep c); simpl.
  - by rewrite IH.
  - rewrite Hc, IH. unfold URI.byte. by rewrite ascii_N_embedding.
Qed.

Lemma decode_percentEncode s :
  ascii7 s = true → URI.decodeURIComponent (percentEncode keep s) = Some s.
Proof.
  intros H. unfold URI.decodeURIComponent.
  rewrite unescape_percentEncode. by apply utf8_items_of.
Qed.

Lemma HEX_ascii7 n : (n < 16)%N → (N_of_ascii (HEX n) <? 128)%N = true.
Proof.
  intros H. unfold HEX. destruct (n <? 10)%N eqn:E.
  - apply N.ltb_lt in E. rewrite N_ascii_embedding by lia. apply N.ltb_lt. lia.
  - rewrite N_ascii_embedding by lia. apply N.ltb_lt. lia.
Qed.

Lemma N_of_ascii_bound c : (N_of_ascii c < 256)%N.
Proof. destruct c as [[] [] [] [] [] [] [] []]; vm_compute; reflexivity. Qed.

Lemma percentEncode_ascii7 s : ascii7 s = true → ascii7 (percentEncode keep s) = true.
Proof.
  induction s as [|c s IH]; [done|]. simpl.
  intros [Hc Hs]%andb_true_iff. specialize (IH Hs).
  destruct (keep c); simpl.
  - by rewrite Hc, IH.
  - pose proof (N_of_ascii_bound c).
    rewrite !HEX_ascii7, IH; [done| |].
    + apply N.mod_lt. lia.
    + apply N.Div0.div_lt_upper_bound. lia.
Qed.

Lemma percentEncode_plain s :
  Str.includes (percentEncode keep s) "%" = false → percentEncode keep s = s.
Proof.
  induction s as [|c s IH]; [done|]. cbn [percentEncode].
  destruct (keep c) eqn:Hk.
  - cbn [Str.includes]. destruct (Ascii.eqb "%" c); [done|].
    intros H. by rewrite IH.
  - cbn [Str.includes]. change (Ascii.eqb "%" "%") with true. done.
Qed.

Lemma normalize_percentEncode s :
  ascii7 s = true →
  normalizeInternalRef (String "#" (percentEncode keep s)) = String "#" s.
Proof.
  intros H. unfold normalizeInternalRef.
  change (Str.startsWith (String "#" (percentEncode keep s)) "#") with true.
  change (Str.includes (String "#" (percentEncode keep s)) "%")
    with (Str.includes (percentEncode keep s) "%").
  simpl negb at 1. cbv beta iota. rewrite orb_false_l.
  destruct (Str.includes (percentEncode keep s) "%") eqn:E; simpl.
  - by rewrite decode_percentEncode.
  - by rewrite percentEncode_plain.
Qed.

(** C8, as the code has it.  A reference that does not start with [#] or
    holds no [%] is returned unchanged, so decoding is idempotent at every
    reference whose decoded form holds no [%]; and one call removes one
    level of percent-encoding, no more: of a text encoded twice it leaves
    the text encoded once. *)
Theorem normalizeInternalRef_one_level :
  (∀ ref, Str.startsWith ref "#" = false ∨ Str.includes ref "%" = false →
     normalizeInternalRef ref = ref)
  ∧ (∀ ref, Str.includes (normalizeInternalRef ref) "%" = false →
       normalizeInternalRef (normalizeInternalRef ref) = normalizeInternalRef ref)
  ∧ (∀ s, ascii7 s = true →
       normalizeInternalRef (String "#" (percentEncode keep s)) = String "#" s
       ∧ normalizeInternalRef
           (String "#" (percentEncode keep (percentEncode keep s)))
         = String "#" (percentEncode keep s)).
Proof.
  assert (Hid : ∀ ref,
    Str.startsWith ref "#" = false ∨ Str.includes ref "%" = false →
    normalizeInternalRef ref = ref).
  { intros ref [H|H]; unfold normalizeInternalRef; rewrite H; simpl; [done|].
    by rewrite orb_true_r. }
  split; [exact Hid|]. split.
  - intros ref H. apply Hid. by right.
  - intros s Hs. split; [by apply normalize_percentEncode|].
    apply normalize_percentEncode. by apply percentEncode_ascii7.
Qed.
End percent.

Lemma normalizeInternalRef_one_level_witness :
  normalizeInternalRef (String "#" (percentEncode pointer_char "/paths/{id}"))
  = "#/paths/{id}"
  ∧ normalizeInternalRef
      (String "#" (percentEncode pointer_char
                     (percentEncode pointer_char "/paths/{id}")))
    = String "#" (percentEncode pointer_char "/paths/{id}").
Proof.
  apply (proj2 (proj2 (normalizeInternalRef_one_level pointer_char eq_refl))).
  reflexivity.
Defined.

(** C8 as stated fails: decoding is not idempotent at the double-encoded
    pointer of the test suite, which a second call decodes further. *)
Lemma normalizeInternalRef_not_idempotent :
  normalizeInternalRef "#/paths/%257Bid%257D" = "#/paths/%7Bid%7D"
  ∧ normalizeInternalRef (normalizeInternalRef "#/paths/%257Bid%257D")
    = "#/paths/{id}"
  ∧ normalizeInternalRef (normalizeInternalRef "#/paths/%257Bid%257D")
    ≠ normalizeInternalRef "#/paths/%257Bid%257D".
Proof. split; [reflexivity|]. split; [reflexivity|]. vm_compute. discriminate. Qed.

(** ** Evaluation *)

(** a conjunction of closed equations, each settled by evaluation *)
Ltac split_all := repeat match goal with |- _ ∧ _ => split end.
Ltac by_evaluation := split_all; vm_compute; split_all; reflexivity.

(** ** C9: resolution of a malformed pointer *)

(** C9 fails on the code: a segment with a malformed escape makes
    [jsonPointerDecode] raise, [resolveInternalRef] does not catch it, and
    the exception ends the run of [bundle]. *)
Lemma resolveInternalRef_raises :
  match load Samples.malformed_doc empty_store with
  | Ret (root, σ) =>
      resolveInternalRef (cells σ) root "#/paths/%"
      = Throw "URIError: URI malformed"
  | _ => False
  end
  ∧ Samples.run_on Samples.malformed_doc 50 Samples.options0
    = {| written := []; result := Throw "URIError: URI malformed" |}.
Proof. by_evaluation. Qed.

(** ** C1: two named schemas of the same structure *)

(** C1 fails on the code: [safeNormalize] treats the [schemas] object as
    one more inline fragment, and here its signature after the
    normalization of its children is that of the component
    [additionalProperties]; its keys are deleted, and the two named
    schemas [items] and [not] that the operations refer to are gone. *)
Lemma named_schemas_deleted :
  result (Samples.run_on Samples.collapse_doc 50 Samples.options0)
  = Ret Samples.collapse_result
  ∧ json_get (json_get (Some (spec Samples.collapse_result)) "components") "schemas"
    = Some (Samples.ref "#/components/schemas/additionalProperties")
  ∧ json_get (json_get (json_get (Some (spec Samples.collapse_result))
                          "components") "schemas") "items" = None
  ∧ json_get (json_get (json_get (Some (spec Samples.collapse_result))
                          "components") "schemas") "not" = None
  ∧ Samples.at_path Samples.collapse_result "/a" "post"
    = Some (Samples.operation "a" (Samples.ref "#/components/schemas/items"))
  ∧ Samples.at_path Samples.collapse_result "/b" "post"
    = Some (Samples.operation "b" (Samples.ref "#/components/schemas/not")).
Proof. by_evaluation. Qed.

(** ** C3: the snapshot *)

(** C3 fails on the code: [safeNormalize(resolved)] normalizes the target
    inside the snapshot.  Before normalization the pointer of [r2]
    resolves to a reference to [T]; once [r1] has been handled the target
    [k] of [r1] is a reference to [S] in the snapshot too, and the pointer
    of [r2] no longer resolves: [r2] stays a path-local reference, where
    the same document with [r2] listed first has it rewritten to [T]. *)
Lemma snapshot_is_mutated :
  match load Samples.snapshot_doc empty_store with
  | Ret (root, σ) =>
      match resolveInternalRef (cells σ) root "#/paths/~1p/k/properties/x" with
      | Ret (Some v) =>
          dump 5 (cells σ) v = Some (Samples.ref "#/components/schemas/T")
      | _ => False
      end
  | _ => False
  end
  ∧ match Samples.after_normalize Samples.snapshot_doc 50 with
    | Ret (pre, σ) =>
        resolveInternalRef (cells σ) pre "#/paths/~1p/k/properties/x" = Ret None
        ∧ match resolveInternalRef (cells σ) pre "#/paths/~1p/k" with
          | Ret (Some v) =>
              dump 5 (cells σ) v = Some (Samples.ref "#/components/schemas/S")
          | _ => False
          end
    | _ => False
    end
  ∧ Samples.at_path
      (Samples.result_of (Samples.run_on Samples.snapshot_doc 50 Samples.options0))
      "/p" "r2"
    = Some (Samples.ref "#/paths/~1p/k/properties/x")
  ∧ Samples.at_path
      (Samples.result_of (Samples.run_on Samples.snapshot_doc' 50 Samples.options0))
      "/p" "r2"
    = Some (Samples.ref "#/components/schemas/T").
Proof. by_evaluation. Qed.

(** ** C6: the passes of full inlining *)

Lemma resolve_eq root ref σ r :
  resolveInternalRef (cells σ) root ref = Ret r → resolve root ref σ = Ret (r, σ).
Proof. unfold resolve. intros ->. reflexivity. Qed.

Lemma lift_opt_eq {A} (f : gmap loc cell → option A) σ a :
  f (cells σ) = Some a → lift_opt f σ = Ret (a, σ).
Proof. unfold lift_opt. intros ->. reflexivity. Qed.

Lemma lift_opt_None {A} (f : gmap loc cell → option A) σ :
  f (cells σ) = None → lift_opt f σ = OutOfFuel.
Proof. unfold lift_opt. intros ->. reflexivity. Qed.

Lemma bind_OutOfFuel {A B} (m : M A) (f : A → M B) σ :
  m σ = OutOfFuel → (m ≫= f) σ = OutOfFuel.
Proof. unfold mbind, M_bind. intros ->. reflexivity. Qed.

Lemma resolve_going_round σ t r seen :
  going_round σ t r seen →
  resolveInternalRef (cells σ) (VRef 17) "#/paths/~1a" = Ret (Some (VRef 13)).
Proof.
  intros H. unfold resolveInternalRef.
  change (Str.startsWith "#/paths/~1a" "#/") with true.
  change (Str.split "/" (Str.slice 2 "#/paths/~1a")) with ["paths"; "~1a"].
  cbn [negb resolve_segments].
  change (jsonPointerDecode "paths") with (Some "paths").
  change (jsonPointerDecode "~1a") with (Some "/a").
  rewrite (gr_root _ _ _ _ H). cbn [cell_get].
  change (Obj.get "paths" [("paths", VRef 14); ("components", VRef 16)])
    with (Some (VRef 14)).
  cbv beta iota. rewrite (gr_paths _ _ _ _ H).
  reflexivity.
Qed.

Lemma dump_going_round σ t r seen f :
  going_round σ t r seen →
  dump (S (S f)) (cells σ) (VRef 13)
  = Some (JObj [("x", JObj [("$ref", JStr "#/paths/~1a")])]).
Proof.
  intros H. cbn [dump]. rewrite (gr_a _ _ _ _ H). cbn [mapM fmap snd fst].
  cbn. rewrite (gr_x _ _ _ _ H). destruct f; reflexivity.
Qed.

Lemma deref_target_going_round fuel σ t r seen :
  going_round σ t r seen →
  deref_target fuel (VRef 17) (VRef 11) (VRef r) σ
  = match fuel with
    | S (S _) =>
        Ret (Some (VRef (S (next σ))),
             Store (<[S (next σ) := CObj [("x", VRef (next σ))]]>
                      (<[next σ := Samples.self_ref]> (cells σ)))
                   (S (S (next σ))))
    | _ => OutOfFuel
    end.
Proof.
  intros H. unfold deref_target.
  rewrite (bind_eq _ _ _ _ _ (read_eq _ _ _ (gr_ref _ _ _ _ H))).
  change (string_prop Samples.self_ref "$ref") with (Some "#/paths/~1a"). cbv beta iota.
  change (Str.startsWith "#/paths/~1a" PATHS_PREFIX) with true. cbv beta iota.
  rewrite (bind_eq _ _ _ _ _ (resolve_eq _ _ _ _ (resolve_going_round _ _ _ _ H))).
  cbv beta iota.
  rewrite (bind_eq (mret _) _ _ _ _ eq_refl).
  cbn [truthy]. unfold deep_copy.
  destruct fuel as [|[|f]].
  - apply bind_OutOfFuel, bind_OutOfFuel, lift_opt_None. reflexivity.
  - apply bind_OutOfFuel, bind_OutOfFuel, lift_opt_None.
    cbn [dump]. rewrite (gr_a _ _ _ _ H). reflexivity.
  - assert (Hcopy : (j ← lift_opt (λ h, dump (S (S f)) h (VRef 13)); load j) σ
      = Ret (VRef (S (next σ)),
             Store (<[S (next σ) := CObj [("x", VRef (next σ))]]>
                      (<[next σ := Samples.self_ref]> (cells σ)))
                   (S (S (next σ))))).
    { rewrite (bind_eq _ _ _ _ _ (lift_opt_eq _ _ _ (dump_going_round _ _ _ _ _ H))).
      reflexivity. }
    rewrite (bind_eq _ _ _ _ _ Hcopy). reflexivity.
Qed.

Lemma going_round_next σ t r seen :
  going_round σ t r seen →
  going_round (one_more σ t) (S (next σ)) (next σ) ({[t]} ∪ seen).
Proof.
  intros H. pose proof (gr_next _ _ _ _ H). pose proof (gr_below _ _ _ _ H).
  pose proof (gr_live _ _ _ _ H) as Hlive.
  rewrite !not_elem_of_cons in Hlive. destruct Hlive as (? & ? & ? & ? & _).
  unfold one_more. split; cbn [cells next]; try lia.
  - rewrite lookup_insert_ne by lia. by rewrite lookup_insert_eq.
  - rewrite !lookup_insert_ne by lia. by rewrite lookup_insert_eq.
  - rewrite !lookup_insert_ne by lia. apply (gr_root _ _ _ _ H).
  - rewrite !lookup_insert_ne by lia. apply (gr_paths _ _ _ _ H).
  - rewrite !lookup_insert_ne by lia. apply (gr_a _ _ _ _ H).
  - rewrite !lookup_insert_ne by lia. apply (gr_x _ _ _ _ H).
  - rewrite !not_elem_of_cons. repeat split; try lia. apply not_elem_of_nil.
  - intros l [->%elem_of_singleton|Hl]%elem_of_union; [lia|].
    apply (gr_seen _ _ _ _ H) in Hl. lia.
Qed.

Lemma deref_node_going_round f σ t r seen d stack :
  going_round σ t r seen →
  deref_node (S (S f)) (VRef 17) (VRef 11) (VRef t) stack seen d σ
  = Ret (VRef (S (next σ)) :: stack, {[t]} ∪ seen, S d, one_more σ t).
Proof.
  intros H. unfold deref_node.
  destruct (decide (t ∈ seen)) as [Hin|_].
  { apply (gr_seen _ _ _ _ H) in Hin. by destruct Hin. }
  rewrite (bind_eq _ _ _ _ _ (read_eq _ _ _ (gr_top _ _ _ _ H))).
  pose proof (deref_target_going_round (S (S f)) _ _ _ _ H) as Ht.
  pose proof (gr_below _ _ _ _ H).
  assert (Hentries :
    deref_entries (S (S f)) (VRef 17) (VRef 11) t [("x", VRef r)] stack d σ
    = Ret (VRef (S (next σ)) :: stack, S d, one_more σ t)).
  { cbn [deref_entries]. rewrite (bind_eq _ _ _ _ _ Ht). cbv beta iota.
    erewrite bind_eq; cycle 1.
    { apply read_eq. cbn [cells]. rewrite !lookup_insert_ne by lia.
      apply (gr_top _ _ _ _ H). }
    reflexivity. }
  rewrite (bind_eq _ _ _ _ _ Hentries). reflexivity.
Qed.

Lemma deref_loop_going_round steps fuel σ t r seen d :
  going_round σ t r seen →
  deref_loop steps fuel (VRef 17) (VRef 11) [VRef t] seen d σ = OutOfFuel.
Proof.
  revert σ t r seen d. induction steps as [|steps IH]; intros σ t r seen d H; [done|].
  cbn [deref_loop].
  destruct fuel as [|[|f]].
  - apply bind_OutOfFuel. unfold deref_node.
    destruct (decide (t ∈ seen)) as [Hin|_].
    { apply (gr_seen _ _ _ _ H) in Hin. by destruct Hin. }
    rewrite (bind_eq _ _ _ _ _ (read_eq _ _ _ (gr_top _ _ _ _ H))).
    cbn [deref_entries]. apply bind_OutOfFuel, bind_OutOfFuel.
    exact (deref_target_going_round 0 σ t r seen H).
  - apply bind_OutOfFuel. unfold deref_node.
    destruct (decide (t ∈ seen)) as [Hin|_].
    { apply (gr_seen _ _ _ _ H) in Hin. by destruct Hin. }
    rewrite (bind_eq _ _ _ _ _ (read_eq _ _ _ (gr_top _ _ _ _ H))).
    cbn [deref_entries]. apply bind_OutOfFuel, bind_OutOfFuel.
    exact (deref_target_going_round 1 σ t r seen H).
  - rewrite (bind_eq _ _ _ _ _ (deref_node_going_round f _ _ _ _ d [] H)).
    cbv beta iota. eapply IH. exact (going_round_next _ _ _ _ H).
Qed.

Lemma initial_rounds fuel n :
  deref_loop (S (S (S (S n)))) fuel (VRef 17) (VRef 11) [VRef 3] ∅ 0 Samples.recursive_store
  = deref_loop n fuel (VRef 17) (VRef 11) [VRef 1]
      ({[2]} ∪ ({[5]} ∪ ({[4]} ∪ ({[3]} ∪ ∅)))) 0 Samples.recursive_store.
Proof.
  assert (H1 : deref_node fuel (VRef 17) (VRef 11) (VRef 3) [] ∅ 0 Samples.recursive_store
    = Ret ([VRef 4; VRef 2], {[3]} ∪ ∅, 0, Samples.recursive_store)).
  { vm_compute. reflexivity. }
  assert (H2 : deref_node fuel (VRef 17) (VRef 11) (VRef 4) [VRef 2]
                 ({[3]} ∪ ∅) 0 Samples.recursive_store
    = Ret ([VRef 5; VRef 2], {[4]} ∪ ({[3]} ∪ ∅), 0, Samples.recursive_store)).
  { vm_compute. reflexivity. }
  assert (H3 : deref_node fuel (VRef 17) (VRef 11) (VRef 5) [VRef 2]
                 ({[4]} ∪ ({[3]} ∪ ∅)) 0 Samples.recursive_store
    = Ret ([VRef 2], {[5]} ∪ ({[4]} ∪ ({[3]} ∪ ∅)), 0, Samples.recursive_store)).
  { vm_compute. reflexivity. }
  assert (H4 : deref_node fuel (VRef 17) (VRef 11) (VRef 2) []
                 ({[5]} ∪ ({[4]} ∪ ({[3]} ∪ ∅))) 0 Samples.recursive_store
    = Ret ([VRef 1], {[2]} ∪ ({[5]} ∪ ({[4]} ∪ ({[3]} ∪ ∅))), 0, Samples.recursive_store)).
  { vm_compute. reflexivity. }
  cbn [deref_loop].
  rewrite (bind_eq _ _ _ _ _ H1). cbv beta iota. cbn [deref_loop].
  rewrite (bind_eq _ _ _ _ _ H2). cbv beta iota. cbn [deref_loop].
  rewrite (bind_eq _ _ _ _ _ H3). cbv beta iota. cbn [deref_loop].
  rewrite (bind_eq _ _ _ _ _ H4). reflexivity.
Qed.

Lemma deref_loop_recursive_doc steps fuel :
  deref_loop steps fuel (VRef 17) (VRef 11) [VRef 3] ∅ 0 Samples.recursive_store
  = OutOfFuel.
Proof.
  destruct steps as [|[|[|[|n]]]].
  - reflexivity.
  - vm_compute. reflexivity.
  - vm_compute. reflexivity.
  - vm_compute. reflexivity.
  - rewrite (initial_rounds fuel n).
    apply (deref_loop_going_round n fuel Samples.recursive_store 1 0).
    split; try (vm_compute; reflexivity).
    + rewrite !not_elem_of_cons. repeat split; try lia. apply not_elem_of_nil.
    + change (next Samples.recursive_store) with 18%nat. lia.
    + intros l Hl.
      rewrite !elem_of_union, !elem_of_singleton, elem_of_empty in Hl.
      change (next Samples.recursive_store) with 18%nat. lia.
Qed.

(** C6 fails on the code: the pass budget bounds the number of passes, not
    the work of one pass.  On a schema that refers to itself by a
    path-local reference, the [while] loop of the first pass replaces the
    reference by a copy of its target, visits the copy, finds the same
    reference in it, and so on: whatever the number of steps granted, the
    pass does not end. *)
Theorem full_inlining_never_ends :
  Samples.before_dereference Samples.recursive_doc 50
  = Ret (3%nat, VRef 11, VRef 17, Samples.recursive_store)
  ∧ (∀ steps fuel,
       deref_passes 20 steps fuel (VRef 17) (VRef 11) (VRef 3) 0 0
         Samples.recursive_store = OutOfFuel)
  ∧ result (Samples.run_on Samples.recursive_doc 50
              (Samples.dereferencing Samples.options0)) = OutOfFuel
  ∧ result (Samples.run_on Samples.recursive_doc 400
              (Samples.dereferencing Samples.options0)) = OutOfFuel.
Proof.
  split; [vm_compute; reflexivity|]. split.
  - intros steps fuel. cbn [deref_passes]. apply bind_OutOfFuel.
    apply deref_loop_recursive_doc.
  - split; vm_compute; reflexivity.
Qed.

(** ** C4: the rewrite of a transient pointer *)

Lemma write_Ret l c σ u σ' :
  write l c σ = Ret (u, σ') → σ' = Store (<[l := c]> (cells σ)) (next σ).
Proof. unfold write. by intros [= _ <-]. Qed.

Lemma mret_Ret {A} (a b : A) σ σ' :
  mret (M:=M) a σ = Ret (b, σ') → b = a ∧ σ' = σ.
Proof. unfold mret, M_ret. by intros [= <- <-]. Qed.

Lemma resolve_Ret root ref σ r σ' :
  resolve root ref σ = Ret (r, σ') →
  σ' = σ ∧ resolveInternalRef (cells σ) root ref = Ret r.
Proof.
  unfold resolve. destruct (resolveInternalRef _ _ _); try done.
  by intros [= <- <-].
Qed.

Lemma canonical_of_Ret fuel v σ s σ' :
  canonical_of fuel v σ = Ret (s, σ') →
  σ' = σ ∧ ∃ j, dump fuel (cells σ) v = Some j ∧ s = canonicalStringify j.
Proof.
  unfold canonical_of. intros H. apply bind_Ret in H as (j & σ1 & Hj & H).
  apply lift_opt_Ret in Hj as [-> Hj]. apply mret_Ret in H as [-> ->]. eauto.
Qed.

Lemma toString_Ret fuel v σ s σ' : toString fuel v σ = Ret (s, σ') → σ' = σ.
Proof.
  unfold toString. intros H. apply bind_Ret in H as (j & σ1 & Hj & H).
  apply lift_opt_Ret in Hj as [-> Hj]. by apply mret_Ret in H as [-> ->].
Qed.

Lemma writes_only_refl l σ : writes_only l σ σ.
Proof. by split. Qed.

Lemma writes_only_write l c σ :
  writes_only l σ (Store (<[l := c]> (cells σ)) (next σ)).
Proof. split; [done|]. intros x Hx. simpl. by rewrite lookup_insert_ne. Qed.

Lemma writes_only_trans l σ1 σ2 σ3 :
  writes_only l σ1 σ2 → writes_only l σ2 σ3 → writes_only l σ1 σ3.
Proof.
  intros [H1 H2] [H3 H4]. split; [congruence|].
  intros x Hx. rewrite H4, H2; done.
Qed.

Lemma inline_dedup_writes fuel E l σ u σ' :
  inline_dedup fuel E l σ = Ret (u, σ') → writes_only l σ σ'.
Proof.
  unfold inline_dedup. intros H.
  apply bind_Ret in H as (obj & σ1 & Ho & H). apply read_Ret in Ho as [-> Ho].
  apply bind_Ret in H as (u1 & σ2 & H1 & H).
  assert (writes_only l σ σ2) as H12.
  { destruct (negb _).
    - apply bind_Ret in H1 as (sig & σ3 & Hs & H1).
      apply canonical_of_Ret in Hs as [-> _].
      destruct (nonempty _).
      + apply write_Ret in H1 as ->. apply writes_only_write.
      + apply mret_Ret in H1 as [_ ->]. apply writes_only_refl.
    - apply mret_Ret in H1 as [_ ->]. apply writes_only_refl. }
  eapply writes_only_trans; [exact H12|]. clear H12 H1.
  apply bind_Ret in H as (obj2 & σ3 & Ho2 & H). apply read_Ret in Ho2 as [-> Ho2].
  destruct (cell_get obj2 "x-semantic-type") as [x|].
  - destruct (truthy x && _).
    + apply bind_Ret in H as (target & σ4 & Ht & H). apply toString_Ret in Ht as ->.
      apply bind_Ret in H as (sch & σ5 & Hs & H). apply read_Ret in Hs as [-> _].
      destruct (truthy_opt _).
      * apply write_Ret in H as ->. apply writes_only_write.
      * apply mret_Ret in H as [_ ->]. apply writes_only_refl.
    + apply mret_Ret in H as [_ ->]. apply writes_only_refl.
  - apply mret_Ret in H as [_ ->]. apply writes_only_refl.
Qed.

Lemma keeps_refl seen σ : keeps seen σ seen σ.
Proof. by repeat split. Qed.

Lemma keeps_trans s1 σ1 s2 σ2 s3 σ3 :
  keeps s1 σ1 s2 σ2 → keeps s2 σ2 s3 σ3 → keeps s1 σ1 s3 σ3.
Proof.
  intros (A1 & A2 & A3) (B1 & B2 & B3). split; [set_solver|].
  split; [congruence|]. intros x Hx. rewrite B3, A3; [done|done|]. by apply A1.
Qed.

Lemma keeps_writes seen l σ σ' :
  l ∉ seen → writes_only l σ σ' → keeps seen σ seen σ'.
Proof.
  intros Hl [H1 H2]. split; [done|]. split; [done|].
  intros x Hx. apply H2. intros ->. done.
Qed.

Lemma keeps_then_writes seen l σ s' σm σ' :
  l ∉ seen → keeps seen σ s' σm → writes_only l σm σ' → keeps seen σ s' σ'.
Proof.
  intros Hl (A1 & A2 & A3) [W1 W2]. split; [done|]. split; [congruence|].
  intros x Hx. rewrite W2; [by apply A3|]. by intros ->.
Qed.

Lemma keeps_weaken s0 s1 σ1 s2 σ2 :
  s0 ⊆ s1 → keeps s1 σ1 s2 σ2 → keeps s0 σ1 s2 σ2.
Proof.
  intros Hs (A1 & A2 & A3). split; [set_solver|]. split; [done|].
  intros x Hx. apply A3. by apply Hs.
Qed.

Lemma for_each_keeps (f : val → gset loc → M (gset loc)) vs :
  (∀ v seen σ seen' σ', f v seen σ = Ret (seen', σ') → keeps seen σ seen' σ') →
  ∀ seen σ seen' σ',
    for_each f vs seen σ = Ret (seen', σ') → keeps seen σ seen' σ'.
Proof.
  intros Hf. induction vs as [|v vs IH]; intros seen σ seen' σ' H.
  - apply mret_Ret in H as [-> ->]. apply keeps_refl.
  - simpl in H. apply bind_Ret in H as (s1 & σ1 & H1 & H).
    eapply keeps_trans; [by eapply Hf|by eapply IH].
Qed.

Lemma safeNormalize_keeps fuel E v seen σ seen' σ' :
  safeNormalize fuel E v seen σ = Ret (seen', σ') → keeps seen σ seen' σ'.
Proof.
  revert v seen σ seen' σ'. induction fuel as [|fuel IH]; intros v seen σ seen' σ'.
  { done. }
  cbn [safeNormalize]. destruct v as [| | | |l];
    try (intros [-> ->]%mret_Ret; apply keeps_refl).
  destruct (decide (l ∈ seen)) as [Hin|Hnin];
    [intros [-> ->]%mret_Ret; apply keeps_refl|].
  pose proof (for_each_keeps (safeNormalize fuel E)) as Hall.
  intros H.
  apply bind_Ret in H as (obj & σ1 & Ho & H). apply read_Ret in Ho as [-> Ho].
  apply bind_Ret in H as (sch & σ1 & Hs & H). apply read_Ret in Hs as [-> Hs].
  assert (Hsub : seen ⊆ {[l]} ∪ seen) by set_solver.
  destruct (match string_prop obj "$ref" with Some _ => _ | None => _ end).
  { apply bind_Ret in H as (u & σ1 & Hw & H). apply write_Ret in Hw as ->.
    apply mret_Ret in H as [-> ->].
    eapply keeps_trans; [eapply keeps_writes, writes_only_write; exact Hnin|].
    split; [done|]. by split. }
  destruct (decide (l ∈ componentValues E)).
  { eapply keeps_weaken; [exact Hsub|]. eapply Hall; [|exact H]. intros; by eapply IH. }
  destruct obj as [props|items]; cycle 1.
  { eapply keeps_weaken; [exact Hsub|]. eapply Hall; [|exact H]. intros; by eapply IH. }
  apply bind_Ret in H as (seen1 & σ1 & H1 & H).
  assert (K1 : keeps ({[l]} ∪ seen) σ seen1 σ1).
  { eapply Hall; [|exact H1]. intros; by eapply IH. }
  apply bind_Ret in H as (obj1 & σ2 & Ho1 & H). apply read_Ret in Ho1 as [-> Ho1].
  apply bind_Ret in H as ([seen2 returned] & σ2 & H2 & H).
  apply keeps_weaken with (s0 := seen) in K1; [|exact Hsub].
  assert (K2 : keeps seen σ seen2 σ2).
  { destruct (string_prop obj1 "$ref") as [ref|];
      [|by apply mret_Ret in H2 as [[= -> ->] ->]].
    destruct (Str.startsWith ref PATHS_PREFIX);
      [|by apply mret_Ret in H2 as [[= -> ->] ->]].
    apply bind_Ret in H2 as (resolved & σ3 & Hr & H2).
    apply resolve_Ret in Hr as [-> Hr].
    destruct resolved as [[| | | |t]|];
      try (by apply mret_Ret in H2 as [[= -> ->] ->]).
    apply bind_Ret in H2 as (seen3 & σ3 & H3 & H2).
    apply IH in H3. pose proof (keeps_trans _ _ _ _ _ _ K1 H3) as K3.
    apply bind_Ret in H2 as (robj & σ4 & Hro & H2). apply read_Ret in Hro as [-> Hro].
    apply bind_Ret in H2 as (obj3 & σ4 & Ho3 & H2). apply read_Ret in Ho3 as [-> Ho3].
    destruct (string_prop obj3 "$ref") as [ref3|];
      [|by apply mret_Ret in H2 as [[= -> ->] ->]].
    destruct (adopt_or_override E ref3 robj).
    { apply bind_Ret in H2 as (u & σ4 & Hw & H2). apply write_Ret in Hw as ->.
      apply mret_Ret in H2 as [[= -> ->] ->].
      eapply keeps_then_writes; [exact Hnin|exact K3|apply writes_only_write]. }
    apply bind_Ret in H2 as (sig & σ4 & Hsig & H2).
    apply canonical_of_Ret in Hsig as [-> _].
    destruct (nonempty _).
    { apply bind_Ret in H2 as (u & σ4 & Hw & H2). apply write_Ret in Hw as ->.
      apply mret_Ret in H2 as [[= -> ->] ->].
      eapply keeps_then_writes; [exact Hnin|exact K3|apply writes_only_write]. }
    by apply mret_Ret in H2 as [[= -> ->] ->]. }
  destruct returned.
  - by apply mret_Ret in H as [-> ->].
  - apply bind_Ret in H as (u & σ3 & Hd & H). apply inline_dedup_writes in Hd.
    apply mret_Ret in H as [-> ->].
    eapply keeps_then_writes; [exact Hnin|exact K2|exact Hd].
Qed.

Lemma startsWith_nonempty ref :
  Str.startsWith ref PATHS_PREFIX = true → String.eqb ref EmptyString = false.
Proof. by destruct ref. Qed.

Lemma string_prop_truthy c k ref :
  string_prop c k = Some ref → String.eqb ref EmptyString = false →
  truthy_opt (cell_get c k) = true.
Proof.
  unfold string_prop. destruct (cell_get c k) as [[]|]; try done.
  intros [= ->] H. simpl. by rewrite H.
Qed.

(** a reference is left alone by the tail of [safeNormalize] *)
Lemma inline_dedup_ref fuel E l σ obj :
  cells σ !! l = Some obj → truthy_opt (cell_get obj "$ref") = true →
  inline_dedup fuel E l σ = Ret (tt, σ).
Proof.
  intros Hl Ht. unfold inline_dedup.
  rewrite (bind_eq _ _ _ _ _ (read_eq _ _ _ Hl)). rewrite Ht. cbn [negb].
  rewrite (bind_eq _ _ σ tt σ eq_refl).
  rewrite (bind_eq _ _ _ _ _ (read_eq _ _ _ Hl)).
  cbv beta. destruct (cell_get obj "x-semantic-type"); [|done].
  by rewrite Ht, andb_false_r.
Qed.

Lemma rewrite_priority_eq E ref target sig :
  rewrite_priority E ref target sig =
    match adopt_or_override E ref target with
    | Some r => Some r
    | None => signature_matched E sig
    end.
Proof.
  unfold rewrite_priority, first_match, adopt_or_override, adopted, overridden,
    signature_matched.
  destruct (string_prop target "$ref") as [r|]; [destruct (Str.startsWith r _)|];
    simpl; try done;
    destruct (nonempty (Obj.get ref (manualOverrides E))); simpl; try done;
    by destruct (nonempty (schemaSignatureMap E !! sig)).
Qed.

(** C4, as the code has it.  At a transient pointer [l] the walk has not
    visited, a reference [ref] into [paths]: (1) the shape of a $like filter
    with a [LikeFilter] component short-circuits to that component, before
    any child is visited; otherwise, for a node that is no component
    schema, the children are normalized first and leave the node as it
    was, and then either (2-4) the pointer resolves in the snapshot to an
    object [t], which is normalized, and the reference becomes the first of:
    the component the normalized target refers to, the entry of the
    override table for [ref], the component with the signature of the
    normalized target, and stays as it is when there is none; or the
    pointer resolves to no object, and the node stays as it is, whatever the
    override table says. *)
Theorem transient_pointer_rewrite fuel E l seen σ props sch ref :
  l ∉ seen →
  cells σ !! l = Some (CObj props) →
  cells σ !! schemas E = Some sch →
  string_prop (CObj props) "$ref" = Some ref →
  Str.startsWith ref PATHS_PREFIX = true →
  (like_filter sch ref = true →
     safeNormalize (S fuel) E (VRef l) seen σ
     = Ret ({[l]} ∪ seen,
            point_at l (CObj props) (COMPONENT_PREFIX +:+ "LikeFilter") σ))
  ∧ (∀ seen1 σ1,
       like_filter sch ref = false →
       l ∉ componentValues E →
       for_each (safeNormalize fuel E) (Obj.values props) ({[l]} ∪ seen) σ
       = Ret (seen1, σ1) →
       cells σ1 !! l = Some (CObj props)
       ∧ (∀ t seen2 σ2 target j,
            resolveInternalRef (cells σ1) (preNormSnapshot E) ref
            = Ret (Some (VRef t)) →
            safeNormalize fuel E (VRef t) seen1 σ1 = Ret (seen2, σ2) →
            cells σ2 !! t = Some target →
            dump fuel (cells σ2) (VRef t) = Some j →
            safeNormalize (S fuel) E (VRef l) seen σ
            = Ret (seen2,
                   match rewrite_priority E ref target (canonicalStringify j) with
                   | Some ref' => point_at l (CObj props) ref' σ2
                   | None => σ2
                   end))
       ∧ (∀ r,
            resolveInternalRef (cells σ1) (preNormSnapshot E) ref = Ret r →
            (∀ t, r ≠ Some (VRef t)) →
            safeNormalize (S fuel) E (VRef l) seen σ = Ret (seen1, σ1))).
Proof.
  intros Hnin Hl Hsch Href Hpaths.
  assert (Hhead :
    safeNormalize (S fuel) E (VRef l) seen σ
    = (if like_filter sch ref
       then write l (set_prop (CObj props) "$ref"
                       (VStr (COMPONENT_PREFIX +:+ "LikeFilter")));;
            mret ({[l]} ∪ seen)
       else if decide (l ∈ componentValues E)
            then for_each (safeNormalize fuel E) (Obj.values props) ({[l]} ∪ seen)
            else
              seen1 ← for_each (safeNormalize fuel E) (Obj.values props)
                        ({[l]} ∪ seen);
              obj ← read l;
              '(seen2, returned) ←
                match string_prop obj "$ref" with
                | Some ref =>
                    if Str.startsWith ref PATHS_PREFIX then
                      resolved ← resolve (preNormSnapshot E) ref;
                      match resolved with
                      | Some (VRef t) =>
                          seen ← safeNormalize fuel E (VRef t) seen1;
                          resolvedObj ← read t;
                          obj ← read l;
                          match string_prop obj "$ref" with
                          | Some ref =>
                              match adopt_or_override E ref resolvedObj with
                              | Some ref' =>
                                  write l (set_prop obj "$ref" (VStr ref'));;
                                  mret (seen, true)
                              | None =>
                                  sig ← canonical_of fuel (VRef t);
                                  match nonempty (schemaSignatureMap E !! sig) with
                                  | Some matchingName =>
                                      write l (set_prop obj "$ref"
                                        (VStr (COMPONENT_PREFIX +:+ matchingName)));;
                                      mret (seen, true)
                                  | None => mret (seen, false)
                                  end
                              end
                          | None => mret (seen, false)
                          end
                      | _ => mret (seen1, false)
                      end
                    else mret (seen1, false)
                | None => mret (seen1, false)
                end;
              if returned : bool then mret seen2
              else inline_dedup fuel E l;; mret seen2) σ).
  { cbn [safeNormalize]. destruct (decide (l ∈ seen)); [done|].
    rewrite (bind_eq _ _ _ _ _ (read_eq _ _ _ Hl)).
    rewrite (bind_eq _ _ _ _ _ (read_eq _ _ _ Hsch)).
    rewrite Href. fold (like_filter sch ref). reflexivity. }
  split.
  { intros Hlike. rewrite Hhead, Hlike. reflexivity. }
  intros seen1 σ1 Hlike Hcomp Hkids.
  rewrite Hhead, Hlike. destruct (decide (l ∈ componentValues E)); [done|].
  clear Hhead.
  assert (K1 : keeps ({[l]} ∪ seen) σ seen1 σ1).
  { eapply for_each_keeps; [|exact Hkids]. intros; by eapply safeNormalize_keeps. }
  assert (Hl1 : cells σ1 !! l = Some (CObj props)).
  { destruct K1 as (_ & _ & K). rewrite K; [done|set_solver]. }
  split; [exact Hl1|].
  rewrite (bind_eq _ _ _ _ _ Hkids).
  rewrite (bind_eq _ _ _ _ _ (read_eq _ _ _ Hl1)).
  rewrite Href, Hpaths.
  assert (Htruthy : truthy_opt (cell_get (CObj props) "$ref") = true).
  { eapply string_prop_truthy; [exact Href|by apply startsWith_nonempty]. }
  split.
  - intros t seen2 σ2 target j Hres Ht Htarget Hj.
    assert (K2 : keeps seen1 σ1 seen2 σ2) by (by eapply safeNormalize_keeps).
    assert (Hl2 : cells σ2 !! l = Some (CObj props)).
    { destruct K2 as (_ & _ & K). rewrite K; [done|]. apply K1. set_solver. }
    assert (Hresolve : resolve (preNormSnapshot E) ref σ1 = Ret (Some (VRef t), σ1)).
    { unfold resolve. by rewrite Hres. }
    rewrite rewrite_priority_eq.
    unfold mbind at 1, M_bind at 1.
    rewrite (bind_eq _ _ _ _ _ Hresolve).
    rewrite (bind_eq _ _ _ _ _ Ht).
    rewrite (bind_eq _ _ _ _ _ (read_eq _ _ _ Htarget)).
    rewrite (bind_eq _ _ _ _ _ (read_eq _ _ _ Hl2)).
    rewrite Href.
    destruct (adopt_or_override E ref target) as [ref'|]; [reflexivity|].
    assert (Hsig : canonical_of fuel (VRef t) σ2 = Ret (canonicalStringify j, σ2)).
    { unfold canonical_of, lift_opt, mbind, M_bind. by rewrite Hj. }
    rewrite (bind_eq _ _ _ _ _ Hsig). unfold signature_matched.
    destruct (nonempty (schemaSignatureMap E !! canonicalStringify j)) as [name|].
    + reflexivity.
    + change (mret (M:=M) (seen2, false) σ2) with (Ret ((seen2, false), σ2)).
      cbv beta iota.
      rewrite (bind_eq _ _ _ _ _ (inline_dedup_ref fuel E _ _ _ Hl2 Htruthy)).
      reflexivity.
  - intros r Hres Hr.
    assert (Hresolve : resolve (preNormSnapshot E) ref σ1 = Ret (r, σ1)).
    { unfold resolve. by rewrite Hres. }
    unfold mbind at 1, M_bind at 1.
    rewrite (bind_eq _ _ _ _ _ Hresolve).
    destruct r as [[| | | |t]|]; try (by destruct (Hr t));
      change (mret (M:=M) (seen1, false) σ1) with (Ret ((seen1, false), σ1));
      cbv beta iota;
      rewrite (bind_eq _ _ _ _ _ (inline_dedup_ref fuel E _ _ _ Hl1 Htruthy));
      reflexivity.
Qed.

Lemma transient_pointer_rewrite_witness :
  safeNormalize 50 Samples.override_env (VRef 3) ∅ Samples.override_store
  = Ret (Samples.override_target.1,
         point_at 3 (CObj [("$ref", VStr "#/paths/~1p/k")])
           "#/components/schemas/S" Samples.override_target.2).
Proof.
  destruct (transient_pointer_rewrite 49 Samples.override_env 3 ∅
              Samples.override_store [("$ref", VStr "#/paths/~1p/k")]
              (CObj [("S", VRef 9); ("T", VRef 10); ("Manual", VRef 11);
                     ("Other", VRef 12)])
              "#/paths/~1p/k") as [_ H];
    [set_solver|reflexivity..|].
  destruct (H ({[3]} ∪ ∅) Samples.override_store) as (_ & H1 & _);
    [reflexivity|by vm_compute|reflexivity|].
  refine (H1 18 Samples.override_target.1 Samples.override_target.2
            (CObj [("$ref", VStr "#/components/schemas/S")])
            (JObj [("$ref", JStr "#/components/schemas/S")]) _ _ _ _);
    vm_compute; reflexivity.
Defined.

(** C4 as stated fails.  In [override_doc] the pointer [r] resolves to the
    inline object [k], which refers to no component, and the override table
    has an entry for the pointer: by the claimed order the entry wins, and
    the run rewrites [r] to the component whose signature [k] has.  The
    pointer [q] resolves to nothing and has an entry too: by the claimed
    order the entry applies, and the run leaves [q] as it was. *)
Lemma override_is_not_third :
  result (Samples.run_on Samples.override_doc 50 Samples.override_options)
  = Ret Samples.override_result
  ∧ resolveInternalRef (cells Samples.override_store)
      (preNormSnapshot Samples.override_env) "#/paths/~1p/k"
    = Ret (Some (VRef 18))
  ∧ cells Samples.override_store !! 18
    = Some (CObj [("type", VStr "object"); ("properties", VRef 17)])
  ∧ claimed_priority Samples.override_env
      (CObj [("S", VRef 9); ("T", VRef 10); ("Manual", VRef 11); ("Other", VRef 12)])
      "#/paths/~1p/k"
      (Some (CObj [("type", VStr "object"); ("properties", VRef 17)]))
      (canonicalStringify <$> dump 50 (cells Samples.override_store) (VRef 18))
    = Some "#/components/schemas/Manual"
  ∧ Samples.at_path Samples.override_result "/p" "r"
    = Some (Samples.ref "#/components/schemas/S")
  ∧ resolveInternalRef (cells Samples.override_store)
      (preNormSnapshot Samples.override_env) "#/paths/~1p/nowhere"
    = Ret None
  ∧ claimed_priority Samples.override_env
      (CObj [("S", VRef 9); ("T", VRef 10); ("Manual", VRef 11); ("Other", VRef 12)])
      "#/paths/~1p/nowhere" None None
    = Some "#/components/schemas/Other"
  ∧ Samples.at_path Samples.override_result "/p" "q"
    = Some (Samples.ref "#/paths/~1p/nowhere").
Proof. by_evaluation. Qed.

(** ** C10: the hash of a directory tree *)

Lemma fs_size_Dir entries : fs_size (Dir entries) = S (entries_size entries).
Proof.
  unfold entries_size. cbn [fs_size]. f_equal.
  induction entries as [|[name e] l IH]; [done|]. cbn. by rewrite IH.
Qed.

Lemma files_of_Dir p entries :
  files_of p (Dir entries) = files_below (path_join p) entries.
Proof.
  unfold files_below. cbn [files_of].
  induction entries as [|[name e] l IH]; [done|]. cbn. by rewrite IH.
Qed.

Lemma entries_size_cons name e l :
  entries_size ((name, e) :: l) = (fs_size e + entries_size l)%nat.
Proof. reflexivity. Qed.

Lemma stack_size_cons cur entries stack :
  stack_size ((cur, entries) :: stack)
  = S (entries_size entries + stack_size stack)%nat.
Proof. reflexivity. Qed.

Lemma files_below_cons path name e l :
  files_below path ((name, e) :: l)
  = (files_of (path name) e ++ files_below path l)%list.
Proof. reflexivity. Qed.

Lemma stack_files_cons cur entries stack :
  stack_files ((cur, entries) :: stack)
  = (files_below (path_join cur) entries ++ stack_files stack)%list.
Proof. reflexivity. Qed.

(** one turn of the [for] loop: the files go to [out], the directories
    onto the stack with all they hold *)
Lemma list_entries_spec cur entries stack out stack' out' :
  list_entries cur entries stack out = (stack', out') →
  (stack_size stack' ≤ entries_size entries + stack_size stack)%nat
  ∧ (out' ++ stack_files stack')%list
    ≡ₚ (out ++ files_below (path_join cur) entries ++ stack_files stack)%list.
Proof.
  revert stack out. induction entries as [|[name e] l IH]; intros stack out.
  { intros [= <- <-]. split; [cbn; lia|]. done. }
  cbn [list_entries]. rewrite entries_size_cons, files_below_cons.
  destruct e as [content|sub|]; intros H; apply IH in H as [H1 H2].
  - split; [cbn in *; lia|].
    rewrite H2. cbn [files_of]. by rewrite <- !app_assoc.
  - split; [rewrite stack_size_cons in H1; rewrite fs_size_Dir; lia|].
    rewrite H2, stack_files_cons, files_of_Dir.
    rewrite <- !app_assoc. apply Permutation_app_head.
    rewrite !app_assoc. apply Permutation_app_tail. apply Permutation_app_comm.
  - split; [cbn in *; lia|].
    rewrite H2. by cbn [files_of app].
Qed.

(** the loop returns within as many steps as the stack holds nodes, with
    the files of the stack added to [out] in some order *)
Lemma list_loop_spec fuel stack out :
  (stack_size stack ≤ fuel)%nat →
  ∃ out', list_loop fuel stack out = Some out'
          ∧ out' ≡ₚ (out ++ stack_files stack)%list.
Proof.
  revert stack out. induction fuel as [|fuel IH]; intros stack out Hfuel.
  - destruct stack as [|[cur entries] stack];
      [|rewrite stack_size_cons in Hfuel; lia].
    exists out. split; [done|]. unfold stack_files. by rewrite app_nil_r.
  - destruct stack as [|[cur entries] stack].
    { exists out. split; [done|]. unfold stack_files. by rewrite app_nil_r. }
    cbn [list_loop].
    destruct (list_entries cur entries stack out) as [stack' out'] eqn:He.
    apply list_entries_spec in He as [H1 H2].
    destruct (IH stack' out') as (r & Hr & Hp).
    { rewrite stack_size_cons in Hfuel. lia. }
    exists r. split; [done|]. by rewrite Hp, H2, stack_files_cons.
Qed.

(** ** The order of the paths *)

Lemma compare_app p x y : String.compare (p ++ x) (p ++ y) = String.compare x y.
Proof.
  induction p as [|c p IH]; [done|].
  change (String.compare (String c (p ++ x)) (String c (p ++ y)) = String.compare x y).
  cbn [String.compare].
  replace (Ascii.compare c c) with Eq; [exact IH|].
  unfold Ascii.compare. by rewrite N.compare_refl.
Qed.

Lemma le_app p x y : String.le x y → String.le (p ++ x) (p ++ y).
Proof. unfold String.le, String.leb. by rewrite compare_app. Qed.

#[local] Instance path_le_trans : Transitive path_le.
Proof. intros a b c. unfold path_le. apply transitivity. Qed.

#[local] Instance path_le_total : Total path_le.
Proof. intros a b. unfold path_le. apply total, _. Qed.

Lemma below_le rootDir a b :
  path_le a b → path_le (below rootDir a) (below rootDir b).
Proof.
  unfold path_le, below, path_join. cbn. intros H.
  apply le_app. by apply (le_app (String "/" EmptyString)).
Qed.

Lemma NoDup_fst_inj (l : list (string * string)) x1 x2 :
  NoDup l.*1 → x1 ∈ l → x2 ∈ l → x1.1 = x2.1 → x1 = x2.
Proof.
  induction l as [|x l IH]; intros Hnd H1 H2 Heq; [by apply elem_of_nil in H1|].
  rewrite fmap_cons in Hnd. apply NoDup_cons in Hnd as [Hx Hnd].
  apply elem_of_cons in H1 as [->|H1]; apply elem_of_cons in H2 as [->|H2].
  - done.
  - destruct Hx. rewrite Heq. by apply (list_elem_of_fmap_2 fst).
  - destruct Hx. rewrite <- Heq. by apply (list_elem_of_fmap_2 fst).
  - by apply IH.
Qed.

(** a list of files with distinct paths has one sorted arrangement *)
Lemma sorted_files_unique (l1 l2 : list (string * string)) :
  NoDup l1.*1 → Sorted path_le l1 → Sorted path_le l2 → l1 ≡ₚ l2 → l1 = l2.
Proof.
  intros Hnd S1 S2 Hp. apply (Sorted_unique_strong path_le); [|done..].
  intros x1 x2 Hx1 Hx2 H12 H21. rewrite <- Hp in Hx2.
  apply (NoDup_fst_inj l1 x1 x2 Hnd Hx1 Hx2).
  by apply (anti_symm String.le).
Qed.

(** ** The listing, from the relative paths *)

Lemma append_assoc (a b c : string) : (a ++ b) ++ c = a ++ (b ++ c).
Proof.
  induction a as [|x a IH]; [done|].
  change (String x ((a ++ b) ++ c) = String x (a ++ (b ++ c))). by rewrite IH.
Qed.

Lemma path_join_assoc r q name :
  path_join (path_join r q) name = path_join r (path_join q name).
Proof.
  unfold path_join. rewrite append_assoc. reflexivity.
Qed.

Lemma files_of_below r q n :
  files_of (path_join r q) n = below r <$> files_of q n.
Proof.
  revert q. induction n as [content| |entries IH] using fsnode_ind; intros q;
    [done..|].
  rewrite !files_of_Dir.
  induction IH as [|[name e] l He _ IHl]; [done|].
  rewrite !files_below_cons, fmap_app, <- IHl. f_equal.
  rewrite path_join_assoc. apply He.
Qed.

Lemma files_below_relative r entries :
  files_below (path_join r) entries = below r <$> files_below id entries.
Proof.
  induction entries as [|[name e] l IH]; [done|].
  rewrite !files_below_cons, fmap_app, <- IH. f_equal. apply files_of_below.
Qed.

Lemma slice_app p s : Str.slice (String.length p) (p ++ s) = s.
Proof. induction p as [|c p IH]; [by destruct s|exact IH]. Qed.

Lemma path_relative_join r x : path_relative r (path_join r x) = x.
Proof.
  unfold path_relative, path_join.
  replace (S (String.length r)) with (String.length (r ++ "/")).
  - change (r ++ String "/" x) with (r ++ ("/" ++ x)).
    rewrite <- (append_assoc r "/" x). apply slice_app.
  - induction r as [|c r IH]; [done|].
    change (S (String.length (r ++ "/")) = S (S (String.length r))).
    by rewrite IH.
Qed.

(** what is fed to the hash does not depend on where the tree is *)
Lemma hash_input_below r1 r2 files :
  hash_input r1 (below r1 <$> files) = hash_input r2 (below r2 <$> files).
Proof.
  induction files as [|[x content] l IH]; [done|].
  cbn [fmap list_fmap hash_input below fst snd].
  change (list_fmap _ _ (below r1) l) with (below r1 <$> l).
  change (list_fmap _ _ (below r2) l) with (below r2 <$> l).
  by rewrite !path_relative_join, IH.
Qed.

Lemma fmap_below_fst r (l : list (string * string)) :
  (below r <$> l).*1 = path_join r <$> l.*1.
Proof. induction l as [|[x c] l IH]; [done|]. cbn. by rewrite <- IH. Qed.

#[local] Instance path_join_inj r : Inj (=) (=) (path_join r).
Proof.
  intros x y H. rewrite <- (path_relative_join r x), <- (path_relative_join r y).
  by rewrite H.
Qed.

(** the listing of a directory: it returns, with the files in the order of
    their relative paths *)
Lemma listFilesRecursive_sorted rootDir entries :
  NoDup (relative_files (Dir entries)).*1 →
  listFilesRecursive rootDir (Dir entries)
  = Some (below rootDir <$> merge_sort path_le (relative_files (Dir entries))).
Proof.
  intros Hnd. unfold listFilesRecursive.
  destruct (list_loop_spec (fs_size (Dir entries)) [(rootDir, entries)] [])
    as (out & -> & Hout).
  { rewrite fs_size_Dir, stack_size_cons. cbn. lia. }
  f_equal. rewrite stack_files_cons in Hout. cbn [stack_files flat_map app] in Hout.
  rewrite app_nil_r, files_below_relative in Hout.
  symmetry. apply sorted_files_unique.
  - rewrite fmap_below_fst. apply (NoDup_fmap_2 _).
    by rewrite merge_sort_Permutation.
  - eapply Sorted_fmap; [apply below_le|]. apply (Sorted_merge_sort _).
  - apply (Sorted_merge_sort _).
  - by rewrite !merge_sort_Permutation, Hout.
Qed.

(** C10: the hash depends on the finite map of relative file paths to
    file contents only.  For two directory trees, at the same place or
    not, whose files have distinct relative paths and make the same map
    from relative paths to contents, whatever the order in which their
    directories list their entries, [hashDirectoryTree] returns, and
    returns the same string. *)
Theorem hashDirectoryTree_deterministic (sha256_hex : string → string)
    rootDir1 rootDir2 entries1 entries2 :
  NoDup (relative_files (Dir entries1)).*1 →
  NoDup (relative_files (Dir entries2)).*1 →
  file_map (Dir entries1) = file_map (Dir entries2) →
  ∃ h, hashDirectoryTree sha256_hex rootDir1 (Dir entries1) = Some h
       ∧ hashDirectoryTree sha256_hex rootDir2 (Dir entries2) = Some h.
Proof.
  intros Hnd1 Hnd2 Hmap. unfold hashDirectoryTree.
  rewrite !listFilesRecursive_sorted by done.
  eexists. split; [reflexivity|]. do 2 f_equal.
  assert (Hperm : relative_files (Dir entries1) ≡ₚ relative_files (Dir entries2))
    by (by apply (list_to_map_inj (M:=gmap string))).
  rewrite (sorted_files_unique
             (merge_sort path_le (relative_files (Dir entries2)))
             (merge_sort path_le (relative_files (Dir entries1)))).
  - f_equal. apply hash_input_below.
  - by rewrite merge_sort_Permutation.
  - apply (Sorted_merge_sort _).
  - apply (Sorted_merge_sort _).
  - by rewrite !merge_sort_Permutation.
Qed.

Lemma hashDirectoryTree_deterministic_witness :
  ∃ h, hashDirectoryTree (λ s, s) "/spec" (Dir Samples.tree1) = Some h
       ∧ hashDirectoryTree (λ s, s) "/tmp/other" (Dir Samples.tree2) = Some h.
Proof.
  apply (hashDirectoryTree_deterministic (λ s, s) "/spec" "/tmp/other"
           Samples.tree1 Samples.tree2).
  - apply (bool_decide_unpack _). vm_compute. exact I.
  - apply (bool_decide_unpack _). vm_compute. exact I.
  - vm_compute. reflexivity.
Defined.

(** ** C7: canonical serialization *)

(** *** Property lists *)

Lemma eqb_eq_dec (a b : string) :
  String.eqb a b = bool_decide (a = b).
Proof.
  destruct (String.eqb_spec a b) as [->|H].
  - by rewrite bool_decide_eq_true_2.
  - by rewrite bool_decide_eq_false_2.
Qed.

Section property_lists.
Context {V : Type}.
Implicit Types (o : list (string * V)) (k : string) (v : V).

Lemma get_cons k k' v o :
  Obj.get k ((k', v) :: o) = if decide (k = k') then Some v else Obj.get k o.
Proof. cbn [Obj.get]. rewrite eqb_eq_dec. by case_bool_decide; case_decide. Qed.

Lemma get_None k o : Obj.get k o = None ↔ k ∉ Obj.keys o.
Proof.
  induction o as [|[k' v] o IH]; [split; [intros _; apply not_elem_of_nil|done]|].
  rewrite get_cons. unfold Obj.keys in *. cbn [map fst]. rewrite not_elem_of_cons.
  case_decide; [split; [done|intros []; done]|]. rewrite IH. tauto.
Qed.

Lemma get_Some_elem k v o : Obj.get k o = Some v → (k, v) ∈ o.
Proof.
  induction o as [|[k' v'] o IH]; [done|]. rewrite get_cons.
  case_decide as Hk; [intros [= ->]; subst; apply list_elem_of_here|].
  intros H. apply list_elem_of_further. by apply IH.
Qed.

Lemma get_is_Some k o : is_Some (Obj.get k o) ↔ k ∈ Obj.keys o.
Proof.
  rewrite <- not_eq_None_Some, get_None.
  destruct (decide (k ∈ Obj.keys o)); tauto.
Qed.

Lemma elem_get k v o : NoDup (Obj.keys o) → (k, v) ∈ o → Obj.get k o = Some v.
Proof.
  induction o as [|[k' v'] o IH]; intros Hnd Hin; [by apply elem_of_nil in Hin|].
  unfold Obj.keys in *. cbn [map fst] in Hnd. apply NoDup_cons in Hnd as [Hk' Hnd].
  rewrite get_cons. apply elem_of_cons in Hin as [[= -> ->]|Hin].
  - by rewrite decide_True.
  - rewrite decide_False; [by apply IH|]. intros ->. apply Hk'.
    change (map fst o) with (fst <$> o). by apply (list_elem_of_fmap_2 fst _ (k', v)).
Qed.

Lemma keys_ext o1 o2 :
  NoDup (Obj.keys o1) → NoDup (Obj.keys o2) →
  (∀ k, is_Some (Obj.get k o1) ↔ is_Some (Obj.get k o2)) →
  Obj.keys o1 ≡ₚ Obj.keys o2.
Proof.
  intros H1 H2 H. apply NoDup_Permutation; [done..|].
  intros k. by rewrite <- !get_is_Some.
Qed.

Lemma has_get k o : Obj.has k o = bool_decide (is_Some (Obj.get k o)).
Proof.
  unfold Obj.has. destruct (Obj.get k o).
  - by rewrite bool_decide_eq_true_2.
  - rewrite bool_decide_eq_false_2; [done|]. by intros [? ?].
Qed.

Lemma get_update k k' v o :
  Obj.get k (Obj.update k' v o)
  = if decide (k = k') then (λ _, v) <$> Obj.get k o else Obj.get k o.
Proof.
  induction o as [|[k0 v0] o IH]; [by case_decide|].
  cbn [Obj.update]. rewrite eqb_eq_dec. case_bool_decide as H0.
  - subst k0. rewrite !get_cons. by repeat case_decide.
  - rewrite !get_cons, IH. repeat case_decide; congruence.
Qed.

Lemma keys_update k v o : Obj.keys (Obj.update k v o) = Obj.keys o.
Proof.
  induction o as [|[k0 v0] o IH]; [done|]. cbn [Obj.update].
  destruct (String.eqb k k0); [done|]. unfold Obj.keys in *. cbn. by rewrite IH.
Qed.

Lemma get_insert_index n k k' v o :
  k' ∉ Obj.keys o →
  Obj.get k (Obj.insert_index n k' v o)
  = if decide (k = k') then Some v else Obj.get k o.
Proof.
  induction o as [|[k0 v0] o IH]; intros Hk'.
  { cbn [Obj.insert_index]. by rewrite get_cons. }
  unfold Obj.keys in *. cbn [map fst] in Hk'. apply not_elem_of_cons in Hk' as [Hne Hk'].
  cbn [Obj.insert_index].
  destruct (Obj.array_index k0) as [n'|]; [destruct (n' <? n)%N|];
    rewrite ?get_cons, ?IH by done; repeat case_decide; congruence.
Qed.

Lemma keys_insert_index n k v o :
  Obj.keys (Obj.insert_index n k v o) ≡ₚ k :: Obj.keys o.
Proof.
  induction o as [|[k0 v0] o IH]; [done|]. cbn [Obj.insert_index].
  destruct (Obj.array_index k0) as [n'|]; [destruct (n' <? n)%N|]; try done.
  unfold Obj.keys in *. cbn [map fst]. rewrite IH. apply perm_swap.
Qed.

Lemma get_app k o1 o2 :
  Obj.get k (o1 ++ o2)
  = match Obj.get k o1 with Some v => Some v | None => Obj.get k o2 end.
Proof.
  induction o1 as [|[k0 v0] o1 IH]; [done|].
  rewrite <- app_comm_cons, !get_cons. by case_decide.
Qed.

Lemma get_define k k' v o :
  Obj.get k (Obj.define k' v o)
  = if decide (k = k') then Some v else Obj.get k o.
Proof.
  unfold Obj.define. rewrite has_get. case_bool_decide as Hhas.
  - rewrite get_update. case_decide; [|done]. subst. by destruct Hhas as [x ->].
  - assert (k' ∉ Obj.keys o) by (by rewrite <- get_is_Some).
    destruct (Obj.array_index k'); [by apply get_insert_index|].
    rewrite get_app, get_cons. cbn [Obj.get].
    case_decide; [subst; by apply get_None in H as ->|].
    by destruct (Obj.get k o).
Qed.

Lemma NoDup_define k v o :
  NoDup (Obj.keys o) → NoDup (Obj.keys (Obj.define k v o)).
Proof.
  intros Hnd. unfold Obj.define. rewrite has_get. case_bool_decide as Hhas.
  - by rewrite keys_update.
  - assert (k ∉ Obj.keys o) by (by rewrite <- get_is_Some).
    destruct (Obj.array_index k).
    + rewrite keys_insert_index. by apply NoDup_cons.
    + unfold Obj.keys in *. rewrite map_app. cbn [map fst].
      apply NoDup_app. split; [done|]. split; [|apply NoDup_singleton].
      intros x Hx ->%list_elem_of_singleton. done.
Qed.

Lemma NoDup_set k v o :
  NoDup (Obj.keys o) → NoDup (Obj.keys (Obj.set k v o)).
Proof.
  intros Hnd. unfold Obj.set. destruct (_ && _); [done|]. by apply NoDup_define.
Qed.

(** an assignment creates the property, or overwrites it, except for the
    key [__proto__] *)
Lemma get_set k k' v o :
  Obj.get "__proto__" o = None →
  Obj.get k (Obj.set k' v o)
  = if decide (k = k' ∧ k' ≠ "__proto__") then Some v else Obj.get k o.
Proof.
  intros Hproto. unfold Obj.set. rewrite has_get, eqb_eq_dec.
  case_bool_decide as Hhas; case_bool_decide as Hp; cbn [negb andb];
    rewrite ?get_define; subst; repeat case_decide; try done; try tauto.
  destruct Hhas as [x Hx]. congruence.
Qed.
End property_lists.

(** *** The equations of the functions on arrays and objects *)

Lemma sorted_props_get k props :
  Obj.get k
    ((fix go (l : list (string * json)) : list (string * json) :=
        match l with
        | [] => []
        | (k, v) :: l' => (k, sortKeys v) :: go l'
        end) props)
  = sortKeys <$> Obj.get k props.
Proof.
  induction props as [|[k' v] l IH]; [done|].
  rewrite !get_cons, IH. by case_decide.
Qed.

Lemma assign_all_ext f g keys acc :
  (∀ k, k ∈ keys → f k = g k) → assign_all f keys acc = assign_all g keys acc.
Proof.
  revert acc. induction keys as [|k keys IH]; intros acc H; [done|].
  unfold assign_all in *. cbn [fold_left].
  rewrite (H k) by apply list_elem_of_here.
  apply IH. intros k' Hk'. apply H. by apply list_elem_of_further.
Qed.

Lemma sortKeys_obj props :
  sortKeys (JObj props)
  = JObj (assign_all (λ key, sortKeys <$> Obj.get key props)
            (sort_strings (Obj.keys props)) []).
Proof.
  cbn [sortKeys]. f_equal. apply assign_all_ext.
  intros k _. apply sorted_props_get.
Qed.

Lemma stripMetadata_obj props :
  stripMetadata (JObj props) = JObj (strip_entries props []).
Proof.
  reflexivity.
Qed.

Lemma sort_strings_perm l1 l2 : l1 ≡ₚ l2 → sort_strings l1 = sort_strings l2.
Proof.
  intros H. unfold sort_strings.
  apply (Sorted_unique String.le).
  - apply (Sorted_merge_sort _).
  - apply (Sorted_merge_sort _).
  - by rewrite !merge_sort_Permutation.
Qed.

(** the sorted form of an object depends on what its keys hold only *)
Lemma sortKeys_obj_ext o1 o2 :
  NoDup (Obj.keys o1) → NoDup (Obj.keys o2) →
  (∀ k, sortKeys <$> Obj.get k o1 = sortKeys <$> Obj.get k o2) →
  sortKeys (JObj o1) = sortKeys (JObj o2).
Proof.
  intros H1 H2 H. rewrite !sortKeys_obj. f_equal.
  rewrite (sort_strings_perm (Obj.keys o1) (Obj.keys o2)).
  - apply assign_all_ext. intros k _. apply H.
  - apply keys_ext; [done..|]. intros k.
    rewrite <- (fmap_is_Some sortKeys (Obj.get k o1)).
    rewrite <- (fmap_is_Some sortKeys (Obj.get k o2)). by rewrite H.
Qed.

(** *** What the stripped form of an object holds *)

#[local] Instance metadata_key_dec k : Decision (metadata_key k).
Proof. unfold metadata_key. apply _. Defined.

Lemma strip_entries_spec l result :
  NoDup (Obj.keys l) → NoDup (Obj.keys result) →
  Obj.get "__proto__" result = None →
  NoDup (Obj.keys (strip_entries l result))
  ∧ ∀ k, Obj.get k (strip_entries l result)
         = if decide (metadata_key k) then Obj.get k result
           else match Obj.get k l with
                | Some v => Some (stripMetadata v)
                | None => Obj.get k result
                end.
Proof.
  revert result. induction l as [|[key val] l IH]; intros result Hl Hr Hp.
  { split; [done|]. intros k. by case_decide. }
  unfold Obj.keys in Hl. cbn [map fst] in Hl. apply NoDup_cons in Hl as [Hkey Hl].
  apply (get_None (V:=json)) in Hkey.
  cbn [strip_entries]. rewrite !eqb_eq_dec.
  destruct (bool_decide (key = "description") || bool_decide (key = "title"))
    eqn:Hskip.
  - destruct (IH result Hl Hr Hp) as [Hnd Hget]. split; [done|].
    intros k. rewrite Hget, get_cons.
    assert (metadata_key key).
    { apply orb_true_iff in Hskip as [?%bool_decide_eq_true|?%bool_decide_eq_true];
        unfold metadata_key; tauto. }
    destruct (decide (metadata_key k)); [done|].
    destruct (decide (k = key)) as [->|]; done.
  - apply orb_false_iff in Hskip as [Hd%bool_decide_eq_false Ht%bool_decide_eq_false].
    destruct (IH (Obj.set key (stripMetadata val) result)) as [Hnd Hget];
      [done|by apply NoDup_set| |].
    { rewrite get_set by done. rewrite decide_False; [done|]. by intros [<- ?]. }
    split; [done|]. intros k. rewrite Hget, get_cons, get_set by done.
    destruct (decide (metadata_key k)) as [Hm|Hm].
    + rewrite decide_False; [done|]. unfold metadata_key in Hm.
      intros [-> Hne]. tauto.
    + destruct (decide (k = key)) as [->|Hne].
      * rewrite Hkey. rewrite decide_True; [done|].
        split; [done|]. unfold metadata_key in Hm. tauto.
      * rewrite (decide_False (P := k = key ∧ _)); [done|]. tauto.
Qed.

Lemma strip_entries_get l k :
  NoDup (Obj.keys l) →
  Obj.get k (strip_entries l [])
  = if decide (metadata_key k) then None else stripMetadata <$> Obj.get k l.
Proof.
  intros Hl. destruct (strip_entries_spec l [] Hl) as [_ ->];
    [apply NoDup_nil_2|done|].
  case_decide; [done|]. by destruct (Obj.get k l).
Qed.

Lemma strip_entries_NoDup l : NoDup (Obj.keys l) → NoDup (Obj.keys (strip_entries l [])).
Proof.
  intros Hl. by destruct (strip_entries_spec l [] Hl) as [? _]; [apply NoDup_nil_2|done|].
Qed.

(** *** Equality up to the order of the keys *)

Lemma same_arr xs ys :
  same_up_to_keys (JArr xs) (JArr ys) = true
  ↔ Forall2 (λ x y, same_up_to_keys x y = true) xs ys.
Proof.
  cbn [same_up_to_keys]. revert ys.
  induction xs as [|x xs IH]; intros [|y ys];
    try (split; [discriminate|by inversion 1]).
  - split; [intros _; constructor|reflexivity].
  - rewrite andb_true_iff, IH. split.
    + intros [? ?]. by constructor.
    + by inversion 1.
Qed.

Lemma same_obj o1 o2 :
  same_up_to_keys (JObj o1) (JObj o2) = true
  ↔ length o1 = length o2
    ∧ ∀ k v, (k, v) ∈ o1 →
        ∃ w, Obj.get k o2 = Some w ∧ same_up_to_keys v w = true.
Proof.
  cbn [same_up_to_keys]. rewrite andb_true_iff, Nat.eqb_eq, forallb_forall.
  apply and_iff_compat_l. split.
  - intros H k v Hin. apply list_elem_of_In, H in Hin. cbn in Hin.
    destruct (Obj.get k o2) as [w|]; [eauto|done].
  - intros H [k v] Hin. apply list_elem_of_In, H in Hin as (w & Hw1 & Hw).
    cbn [fst snd]. by rewrite Hw1.
Qed.

Lemma forallb_Forall {A} (f : A → bool) l :
  forallb f l = true ↔ Forall (λ x, f x = true) l.
Proof.
  induction l as [|x l IH]; [split; [constructor|done]|].
  cbn [forallb]. rewrite andb_true_iff, IH, Forall_cons. done.
Qed.

Lemma distinct_arr items :
  distinct_keys (JArr items) = true ↔ Forall (λ x, distinct_keys x = true) items.
Proof. cbn [distinct_keys]. apply forallb_Forall. Qed.

Lemma proto_free_arr items :
  proto_free (JArr items) = true ↔ Forall (λ x, proto_free x = true) items.
Proof. cbn [proto_free]. apply forallb_Forall. Qed.

Lemma distinct_obj props :
  distinct_keys (JObj props) = true
  ↔ NoDup (Obj.keys props) ∧ Forall (λ kv, distinct_keys kv.2 = true) props.
Proof.
  cbn [distinct_keys]. by rewrite andb_true_iff, bool_decide_eq_true, forallb_Forall.
Qed.

Lemma proto_free_obj props :
  proto_free (JObj props) = true
  ↔ Obj.get "__proto__" props = None
    ∧ Forall (λ kv, proto_free kv.2 = true) props.
Proof.
  cbn [proto_free]. rewrite andb_true_iff, negb_true_iff, forallb_Forall.
  apply and_iff_compat_r. unfold Obj.has. by destruct (Obj.get _ _).
Qed.

(** objects equal up to the order of their keys hold, key by key, values
    equal up to the order of theirs *)
Lemma same_obj_get o1 o2 k :
  NoDup (Obj.keys o1) → NoDup (Obj.keys o2) →
  same_up_to_keys (JObj o1) (JObj o2) = true →
  match Obj.get k o1, Obj.get k o2 with
  | Some v, Some w => same_up_to_keys v w = true
  | None, None => True
  | _, _ => False
  end.
Proof.
  intros H1 H2 [Hlen H]%same_obj.
  assert (Hperm : Obj.keys o1 ≡ₚ Obj.keys o2).
  { apply submseteq_length_Permutation.
    - apply NoDup_submseteq; [done|]. intros x Hx.
      apply get_is_Some in Hx as [v Hv]. apply get_Some_elem, H in Hv as (w & Hw & _).
      apply get_is_Some. eauto.
    - unfold Obj.keys. rewrite !length_map. lia. }
  destruct (Obj.get k o1) as [v|] eqn:E1.
  - apply get_Some_elem, H in E1 as (w & -> & Hw). done.
  - apply get_None in E1. rewrite Hperm in E1. by apply get_None in E1 as ->.
Qed.

(** the two sorted forms of values equal up to the order of the keys *)
Lemma sortKeys_same a :
  ∀ b, same_up_to_keys a b = true →
       distinct_keys a = true → distinct_keys b = true →
       sortKeys a = sortKeys b
       ∧ sortKeys (stripMetadata a) = sortKeys (stripMetadata b).
Proof.
  induction a as [|x|x|x|xs IH|o1 IH] using json_ind; intros [|y|y|y|ys|o2];
    try discriminate.
  - done.
  - cbn. by intros ->%eqb_prop.
  - cbn. by intros ->%Z.eqb_eq.
  - cbn. by intros ->%String.eqb_eq.
  - intros Hs%same_arr Ha%distinct_arr Hb%distinct_arr.
    cbn [sortKeys stripMetadata].
    enough (map sortKeys xs = map sortKeys ys
            ∧ map sortKeys (map stripMetadata xs)
              = map sortKeys (map stripMetadata ys)) as [-> ->] by done.
    revert IH Ha Hb.
    induction Hs as [|x y xs ys Hxy _ IHs]; intros IH Ha Hb; [done|].
    apply Forall_cons in IH as [IHx IH], Ha as [Hx Ha], Hb as [Hy Hb].
    destruct (IHx y Hxy Hx Hy) as [E1 E2].
    destruct (IHs IH Ha Hb) as [E3 E4]. cbn [map]. by rewrite E1, E2, E3, E4.
  - intros Hs [Hnd1 Ha]%distinct_obj [Hnd2 Hb]%distinct_obj.
    assert (Hvals : ∀ k,
      match Obj.get k o1, Obj.get k o2 with
      | Some v, Some w =>
          sortKeys v = sortKeys w
          ∧ sortKeys (stripMetadata v) = sortKeys (stripMetadata w)
      | None, None => True
      | _, _ => False
      end).
    { intros k. pose proof (same_obj_get o1 o2 k Hnd1 Hnd2 Hs) as Hk.
      destruct (Obj.get k o1) as [v|] eqn:E1, (Obj.get k o2) as [w|] eqn:E2;
        try done.
      apply get_Some_elem in E1, E2.
      rewrite Forall_forall in IH, Ha, Hb.
      apply (IH _ E1 w Hk (Ha _ E1) (Hb _ E2)). }
    split.
    + apply sortKeys_obj_ext; [done..|]. intros k. specialize (Hvals k).
      destruct (Obj.get k o1), (Obj.get k o2); try done. cbn. f_equal. apply Hvals.
    + rewrite !stripMetadata_obj.
      apply sortKeys_obj_ext; [by apply strip_entries_NoDup..|].
      intros k. rewrite !strip_entries_get by done. case_decide; [done|].
      specialize (Hvals k).
      destruct (Obj.get k o1), (Obj.get k o2); try done. cbn. f_equal. apply Hvals.
Qed.


(** *** The text of a value tells the value *)

Lemma unquote_quote_char c k :
  unquote_char (JSON.quote_char c k) = Some (c, k).
Proof. destruct c as [[] [] [] [] [] [] [] []]; reflexivity. Qed.

Lemma unquote_DQ k : unquote_char (String JSON.DQ k) = None.
Proof. reflexivity. Qed.

Lemma quote_body_inj s1 : ∀ s2 k1 k2,
  JSON.quote_body s1 k1 = JSON.quote_body s2 k2 → s1 = s2 ∧ k1 = k2.
Proof.
  induction s1 as [|c1 s1 IH]; intros [|c2 s2] k1 k2; cbn [JSON.quote_body]; intros H.
  - by injection H as ->.
  - apply (f_equal unquote_char) in H.
    by rewrite unquote_DQ, unquote_quote_char in H.
  - apply (f_equal unquote_char) in H.
    by rewrite unquote_DQ, unquote_quote_char in H.
  - apply (f_equal unquote_char) in H. rewrite !unquote_quote_char in H.
    injection H as -> H. by apply IH in H as [-> ->].
Qed.

Lemma quote_inj s1 s2 k1 k2 :
  JSON.quote s1 k1 = JSON.quote s2 k2 → s1 = s2 ∧ k1 = k2.
Proof. unfold JSON.quote. intros [= H]. by apply quote_body_inj. Qed.

(** the decimal text of a number *)
Lemma pretty_N_char_digit x : is_digit (pretty_N_char x) = true.
Proof. unfold pretty_N_char. by repeat case_match. Qed.

Lemma pretty_N_go_digits x : ∀ s,
  all_digits s = true → s ≠ EmptyString →
  all_digits (pretty_N_go x s) = true ∧ pretty_N_go x s ≠ EmptyString.
Proof.
  induction (N.lt_wf_0 x) as [x _ IH]; intros s Hs Hne.
  assert (x = 0 ∨ 0 < x)%N as [->|Hx] by lia; [by rewrite pretty_N_go_0|].
  rewrite pretty_N_go_step by done. apply IH.
  - by apply N.div_lt.
  - cbn [all_digits]. by rewrite pretty_N_char_digit.
  - done.
Qed.

Lemma pretty_N_digits (x : N) :
  all_digits (pretty x) = true ∧ pretty x ≠ EmptyString.
Proof.
  unfold pretty, pretty_N. case_decide as Hx; [done|].
  rewrite pretty_N_go_step by lia. apply pretty_N_go_digits; [|done].
  cbn [all_digits]. by rewrite pretty_N_char_digit.
Qed.

Lemma pretty_Z_digits (n : Z) :
  ∃ d, all_digits d = true ∧ d ≠ EmptyString
       ∧ (pretty n = d ∨ pretty n = String "-" d).
Proof.
  destruct n as [|p|p].
  - by exists "0"; auto.
  - exists (pretty (Npos p)). destruct (pretty_N_digits (Npos p)). auto.
  - exists (pretty (Npos p)). destruct (pretty_N_digits (Npos p)). auto.
Qed.

Lemma all_digits_head c d : all_digits (String c d) = true → is_digit c = true.
Proof. cbn [all_digits]. by intros [? _]%andb_true_iff. Qed.

Lemma digits_app_inj d1 : ∀ d2 k1 k2,
  all_digits d1 = true → all_digits d2 = true →
  delimited k1 = true → delimited k2 = true →
  d1 ++ k1 = d2 ++ k2 → d1 = d2 ∧ k1 = k2.
Proof.
  induction d1 as [|c1 d1 IH]; intros [|c2 d2] k1 k2 H1 H2 Hk1 Hk2 H.
  - done.
  - change (k1 = String c2 (d2 ++ k2)) in H. subst k1.
    apply all_digits_head in H2. cbn [delimited] in Hk1. by rewrite H2 in Hk1.
  - change (String c1 (d1 ++ k1) = k2) in H. subst k2.
    apply all_digits_head in H1. cbn [delimited] in Hk2. by rewrite H1 in Hk2.
  - cbn [all_digits] in H1, H2.
    apply andb_true_iff in H1 as [_ H1], H2 as [_ H2].
    change (String c1 (d1 ++ k1) = String c2 (d2 ++ k2)) in H.
    injection H as -> H. by apply IH in H as [-> ->].
Qed.

Lemma pretty_Z_app_inj (n m : Z) k1 k2 :
  delimited k1 = true → delimited k2 = true →
  pretty n ++ k1 = pretty m ++ k2 → n = m ∧ k1 = k2.
Proof.
  intros Hk1 Hk2 H.
  destruct (pretty_Z_digits n) as (d1 & Hd1 & Hne1 & Hn).
  destruct (pretty_Z_digits m) as (d2 & Hd2 & Hne2 & Hm).
  assert (pretty n = pretty m ∧ k1 = k2) as [Heq ->];
    [|split; [by apply (inj pretty)|done]].
  destruct Hn as [Hn|Hn], Hm as [Hm|Hm]; rewrite Hn, Hm in *.
  - by apply digits_app_inj in H as [-> ->].
  - destruct d1 as [|c d1]; [done|]. apply all_digits_head in Hd1.
    injection H as -> _. done.
  - destruct d2 as [|c d2]; [done|]. apply all_digits_head in Hd2.
    injection H as <- _. done.
  - injection H as H. by apply digits_app_inj in H as [-> ->].
Qed.

Lemma write_kind v k : kind_of_text (JSON.write v k) = kind_of v.
Proof.
  destruct v as [|[]|n|s|xs|o]; try reflexivity.
  cbn [JSON.write kind_of].
  destruct (pretty_Z_digits n) as (d & Hd & Hne & [->| ->]); [|done].
  destruct d as [|c d]; [done|]. apply all_digits_head in Hd.
  change (kind_of_text (String c (d ++ k)) = KNum).
  destruct c as [[] [] [] [] [] [] [] []]; try discriminate Hd; reflexivity.
Qed.

Lemma write_items_eq k items : ∀ first,
  (fix go (first : bool) (l : list json) {struct l} : string :=
     match l with
     | [] => String "]" k
     | x :: l' =>
         if first then JSON.write x (go false l')
         else String "," (JSON.write x (go false l'))
     end) first items
  = write_items first items k.
Proof.
  induction items as [|x l IH]; intros first; [done|].
  cbn [write_items]. by rewrite <- IH.
Qed.

Lemma write_props_eq k props : ∀ first,
  (fix go (first : bool) (l : list (string * json)) {struct l} : string :=
     match l with
     | [] => String "}" k
     | (key, x) :: l' =>
         if first then JSON.quote key (String ":" (JSON.write x (go false l')))
         else String "," (JSON.quote key (String ":" (JSON.write x (go false l'))))
     end) first props
  = write_props first props k.
Proof.
  induction props as [|[key x] l IH]; intros first; [done|].
  cbn [write_props]. by rewrite <- IH.
Qed.

Lemma write_arr items k :
  JSON.write (JArr items) k = String "[" (write_items true items k).
Proof. rewrite <- write_items_eq. reflexivity. Qed.

Lemma write_obj props k :
  JSON.write (JObj props) k = String "{" (write_props true props k).
Proof. rewrite <- write_props_eq. reflexivity. Qed.

Lemma write_items_delimited l k : delimited (write_items false l k) = true.
Proof. by destruct l. Qed.

Lemma write_props_delimited l k : delimited (write_props false l k) = true.
Proof. by destruct l as [|[]]. Qed.

Lemma kind_of_text_eq s1 s2 : s1 = s2 → kind_of_text s1 = kind_of_text s2.
Proof. by intros ->. Qed.

Lemma write_items_inj xs :
  Forall write_inj_at xs →
  ∀ first ys k1 k2,
    write_items first xs k1 = write_items first ys k2 → xs = ys ∧ k1 = k2.
Proof.
  induction 1 as [|x xs Hx _ IH]; intros first [|y ys] k1 k2 H.
  - cbn in H. by injection H as ->.
  - cbn [write_items] in H. destruct first; [|done].
    apply kind_of_text_eq in H. rewrite write_kind in H. by destruct y.
  - cbn [write_items] in H. destruct first; [|done].
    apply kind_of_text_eq in H. rewrite write_kind in H. by destruct x.
  - cbn [write_items] in H.
    assert (JSON.write x (write_items false xs k1)
            = JSON.write y (write_items false ys k2)) as H'
      by (destruct first; [done|by injection H]).
    apply Hx in H' as [-> H']; [|apply write_items_delimited..].
    by apply IH in H' as [-> ->].
Qed.

Lemma write_props_inj o1 :
  Forall (λ kv, write_inj_at kv.2) o1 →
  ∀ first o2 k1 k2,
    write_props first o1 k1 = write_props first o2 k2 → o1 = o2 ∧ k1 = k2.
Proof.
  induction 1 as [|[key1 x] o1 Hx _ IH]; intros first [|[key2 y] o2] k1 k2 H.
  - cbn in H. by injection H as ->.
  - cbn [write_props] in H. destruct first; done.
  - cbn [write_props] in H. destruct first; done.
  - cbn [write_props] in H.
    assert (JSON.quote key1 (String ":" (JSON.write x (write_props false o1 k1)))
            = JSON.quote key2 (String ":" (JSON.write y (write_props false o2 k2))))
      as H' by (destruct first; [done|injection H as H; unfold JSON.quote; by rewrite H]).
    apply quote_inj in H' as [-> [= H']]. cbn [snd] in Hx.
    apply Hx in H' as [-> H']; [|apply write_props_delimited..].
    by apply IH in H' as [-> ->].
Qed.

Lemma write_inj x : write_inj_at x.
Proof.
  induction x as [|b|n|s|xs IH|o1 IH] using json_ind; intros y k1 k2 Hk1 Hk2 H;
    pose proof (kind_of_text_eq _ _ H) as Hkind; rewrite !write_kind in Hkind;
    destruct y as [|b'|n'|s'|ys|o2]; try discriminate Hkind; clear Hkind.
  - cbn in H. by injection H as ->.
  - destruct b, b'; cbn in H; try discriminate H; by injection H as ->.
  - cbn [JSON.write] in H. by apply pretty_Z_app_inj in H as [-> ->].
  - cbn [JSON.write] in H. by apply quote_inj in H as [-> ->].
  - rewrite !write_arr in H. injection H as H.
    by apply write_items_inj in H as [-> ->].
  - rewrite !write_obj in H. injection H as H.
    by apply write_props_inj in H as [-> ->].
Qed.

Lemma stringify_inj x y : JSON.stringify x = JSON.stringify y → x = y.
Proof. intros H. by apply write_inj in H as [-> _]. Qed.


(** *** The sorted form tells the value, up to the order of the keys *)

Lemma get_assign_all f keys : ∀ acc k,
  "__proto__" ∉ keys → Obj.get "__proto__" acc = None →
  Obj.get k (assign_all f keys acc)
  = if decide (k ∈ keys)
    then match f k with Some v => Some v | None => Obj.get k acc end
    else Obj.get k acc.
Proof.
  induction keys as [|k0 keys IH]; intros acc k Hp Hacc.
  { rewrite decide_False; [done|]. apply not_elem_of_nil. }
  apply not_elem_of_cons in Hp as [Hne Hp].
  change (assign_all f (k0 :: keys) acc)
    with (assign_all f keys
            (match f k0 with Some v => Obj.set k0 v acc | None => acc end)).
  set (acc' := match f k0 with Some v => Obj.set k0 v acc | None => acc end).
  assert (G : ∀ x, Obj.get x acc'
                   = if decide (x = k0)
                     then match f k0 with Some v => Some v | None => Obj.get x acc end
                     else Obj.get x acc).
  { assert (k0 ≠ "__proto__") by done.
    intros x. unfold acc'. destruct (f k0) as [v0|]; [|by case_decide].
    rewrite get_set by done. repeat case_decide; try done; tauto. }
  rewrite IH; [|done|].
  - rewrite G. destruct (decide (k = k0)) as [->|Hk].
    + rewrite (decide_True (P := k0 ∈ k0 :: keys)) by apply list_elem_of_here.
      case_decide; by destruct (f k0).
    + destruct (decide (k ∈ keys)) as [Hin|Hin].
      * rewrite decide_True; [done|]. by apply list_elem_of_further.
      * rewrite decide_False; [done|]. by apply not_elem_of_cons.
  - rewrite G. rewrite decide_False; [done|]. by intros <-.
Qed.

Lemma sortKeys_obj_get o :
  Obj.get "__proto__" o = None →
  ∃ o', sortKeys (JObj o) = JObj o'
        ∧ ∀ k, Obj.get k o' = sortKeys <$> Obj.get k o.
Proof.
  intros Hp. eexists. split; [apply sortKeys_obj|]. intros k.
  assert (Hin : ∀ x, x ∈ sort_strings (Obj.keys o) ↔ x ∈ Obj.keys o).
  { intros x. unfold sort_strings. by rewrite merge_sort_Permutation. }
  rewrite get_assign_all; [| |done].
  - case_decide as Hk; [by destruct (Obj.get k o)|].
    rewrite Hin in Hk. by apply get_None in Hk as ->.
  - rewrite Hin. by apply get_None.
Qed.

Lemma same_refl_scalar a :
  match a with JArr _ | JObj _ => True | _ => same_up_to_keys a a = true end.
Proof.
  destruct a as [|b|n|s| |]; try done; cbn.
  - by destruct b.
  - apply Z.eqb_refl.
  - apply String.eqb_refl.
Qed.

Lemma sortKeys_kind a : kind_of (sortKeys a) = kind_of a.
Proof. by destruct a. Qed.

Lemma sortKeys_tells a :
  ∀ b, distinct_keys a = true → distinct_keys b = true →
       proto_free a = true → proto_free b = true →
       sortKeys a = sortKeys b → same_up_to_keys a b = true.
Proof.
  induction a as [|x|x|x|xs IH|o1 IH] using json_ind;
    intros b Ha Hb Pa Pb H;
    pose proof (f_equal kind_of H) as Hkind; rewrite !sortKeys_kind in Hkind;
    destruct b as [|y|y|y|ys|o2]; try discriminate Hkind; clear Hkind.
  - done.
  - injection H as ->. apply (same_refl_scalar (JBool y)).
  - injection H as ->. apply (same_refl_scalar (JNum y)).
  - injection H as ->. apply (same_refl_scalar (JStr y)).
  - apply distinct_arr in Ha, Hb. apply proto_free_arr in Pa, Pb.
    apply same_arr. cbn [sortKeys] in H. injection H as H.
    revert ys Hb Pb H.
    induction xs as [|x xs IHxs]; intros [|y ys] Hb Pb H; try discriminate H.
    { constructor. }
    apply Forall_cons in IH as [IHx IH], Ha as [Hx Ha], Hb as [Hy Hb],
      Pa as [Px Pa], Pb as [Py Pb].
    injection H as Hxy H. constructor; [by apply IHx|by apply IHxs].
  - apply distinct_obj in Ha as [N1 Ha], Hb as [N2 Hb].
    apply proto_free_obj in Pa as [P1 Pa], Pb as [P2 Pb].
    destruct (sortKeys_obj_get o1 P1) as (o1' & E1 & G1).
    destruct (sortKeys_obj_get o2 P2) as (o2' & E2 & G2).
    rewrite E1, E2 in H. injection H as <-.
    assert (G : ∀ k, sortKeys <$> Obj.get k o1 = sortKeys <$> Obj.get k o2).
    { intros k. by rewrite <- G1, <- G2. }
    apply same_obj. split.
    + assert (Obj.keys o1 ≡ₚ Obj.keys o2) as Hperm.
      { apply keys_ext; [done..|]. intros k.
        rewrite <- (fmap_is_Some sortKeys (Obj.get k o1)).
        rewrite <- (fmap_is_Some sortKeys (Obj.get k o2)). by rewrite G. }
      apply Permutation_length in Hperm. unfold Obj.keys in Hperm.
      by rewrite !length_map in Hperm.
    + intros k v Hin. pose proof (elem_get k v o1 N1 Hin) as Hv.
      specialize (G k). rewrite Hv in G.
      destruct (Obj.get k o2) as [w|] eqn:Hw; [|done]. injection G as G.
      exists w. split; [done|]. apply get_Some_elem in Hw.
      rewrite Forall_forall in IH, Ha, Hb, Pa, Pb.
      apply (IH _ Hin); [apply (Ha _ Hin)|apply (Hb _ Hw)|apply (Pa _ Hin)
                        |apply (Pb _ Hw)|done].
Qed.

(** *** The stripped form is that of a JavaScript object *)

Section assignment.
Context {V : Type}.
Implicit Types (o : list (string * V)).

Lemma elem_of_update x k v o : x ∈ Obj.update k v o → x = (k, v) ∨ x ∈ o.
Proof.
  induction o as [|[k0 v0] o IH]; [by intros ?%elem_of_nil|].
  cbn [Obj.update]. destruct (String.eqb_spec k k0) as [->|].
  - intros [->|?]%elem_of_cons; [by left|]. right. by apply list_elem_of_further.
  - intros [->|?]%elem_of_cons; [right; apply list_elem_of_here|].
    destruct (IH H); [by left|]. right. by apply list_elem_of_further.
Qed.

Lemma elem_of_insert_index x n k v o :
  x ∈ Obj.insert_index n k v o → x = (k, v) ∨ x ∈ o.
Proof.
  induction o as [|[k0 v0] o IH]; cbn [Obj.insert_index].
  { intros Hx%list_elem_of_singleton. by left. }
  destruct (Obj.array_index k0) as [n'|]; [destruct (n' <? n)%N|];
    intros [->|H]%elem_of_cons; auto using list_elem_of_here.
  destruct (IH H); [by left|]. right. by apply list_elem_of_further.
Qed.

Lemma elem_of_set x k v o : x ∈ Obj.set k v o → x = (k, v) ∨ x ∈ o.
Proof.
  unfold Obj.set, Obj.define. destruct (_ && _); [by right|].
  destruct (Obj.has k o); [apply elem_of_update|].
  destruct (Obj.array_index k); [apply elem_of_insert_index|].
  intros [?|Hx%list_elem_of_singleton]%elem_of_app; auto.
Qed.
End assignment.

Lemma strip_entries_Forall (P : json → Prop) l :
  Forall (λ kv, P (stripMetadata kv.2)) l →
  ∀ result,
    Forall (λ kv, P kv.2) result → NoDup (Obj.keys result) →
    Obj.get "__proto__" result = None →
    Forall (λ kv, P kv.2) (strip_entries l result)
    ∧ NoDup (Obj.keys (strip_entries l result))
    ∧ Obj.get "__proto__" (strip_entries l result) = None.
Proof.
  induction 1 as [|[key val] l Hval _ IH]; intros result Hr Hnd Hp; [done|].
  cbn [strip_entries]. destruct (_ || _); [by apply IH|].
  apply IH.
  - apply Forall_forall. intros x [->|Hx]%elem_of_set; [done|].
    rewrite Forall_forall in Hr. by apply Hr.
  - by apply NoDup_set.
  - rewrite get_set by done. rewrite decide_False; [done|]. by intros [<- ?].
Qed.

Lemma stripMetadata_object a :
  distinct_keys (stripMetadata a) = true ∧ proto_free (stripMetadata a) = true.
Proof.
  induction a as [| | | |xs IH|o IH] using json_ind; try done.
  - cbn [stripMetadata]. rewrite distinct_arr, proto_free_arr.
    rewrite !Forall_fmap. split; eapply Forall_impl; try exact IH; by intros ? [? ?].
  - rewrite stripMetadata_obj, distinct_obj, proto_free_obj.
    destruct (strip_entries_Forall
                (λ v, distinct_keys v = true ∧ proto_free v = true) o IH [])
      as (H1 & H2 & H3); [constructor|apply NoDup_nil_2|done|].
    repeat split; try done; eapply Forall_impl; try exact H1; by intros ? [? ?].
Qed.


(** C7, as the code has it.  For two values whose objects have distinct
    keys: if they are equal up to the order of the keys at any depth,
    [canonicalStringify] returns the same string for both, and so does
    [structuralStringify]; if no object has a key [__proto__], the canonical
    strings are the same only if the values are equal up to the order of
    the keys; the structural strings are the same only if the values are
    equal up to the order of the keys once [description] and [title] are
    stripped at every depth.  So for arrays: the canonical strings of two
    arrays are the same only if the arrays have the same length and, at
    every index, items equal up to the order of the keys. *)
Theorem canonical_strings a b :
  distinct_keys a = true → distinct_keys b = true →
  (same_up_to_keys a b = true →
     canonicalStringify a = canonicalStringify b
     ∧ structuralStringify a = structuralStringify b)
  ∧ (proto_free a = true → proto_free b = true →
     canonicalStringify a = canonicalStringify b →
     same_up_to_keys a b = true)
  ∧ (structuralStringify a = structuralStringify b →
     same_up_to_keys (stripMetadata a) (stripMetadata b) = true)
  ∧ (∀ xs ys,
       a = JArr xs → b = JArr ys →
       proto_free a = true → proto_free b = true →
       canonicalStringify a = canonicalStringify b →
       length xs = length ys
       ∧ ∀ i x y, xs !! i = Some x → ys !! i = Some y →
                  same_up_to_keys x y = true).
Proof.
  intros Ha Hb.
  assert (Htells : proto_free a = true → proto_free b = true →
                   canonicalStringify a = canonicalStringify b →
                   same_up_to_keys a b = true).
  { intros Pa Pb H. apply stringify_inj in H. by apply sortKeys_tells. }
  split; [|split; [exact Htells|split]].
  - intros Hs. destruct (sortKeys_same a b Hs Ha Hb) as [H1 H2].
    unfold canonicalStringify, structuralStringify. by rewrite H1, H2.
  - intros H. apply stringify_inj in H.
    destruct (stripMetadata_object a) as [Da Pa].
    destruct (stripMetadata_object b) as [Db Pb].
    by apply sortKeys_tells.
  - intros xs ys -> -> Pa Pb H.
    apply Htells, same_arr in H; [|done..].
    split; [by eapply Forall2_length|].
    intros i x y Hx Hy. by eapply Forall2_lookup_lr in H.
Qed.

Lemma canonical_strings_witness :
  canonicalStringify Samples.keyed1 = canonicalStringify Samples.keyed2
  ∧ structuralStringify Samples.keyed1 = structuralStringify Samples.keyed2.
Proof.
  apply (proj1 (canonical_strings Samples.keyed1 Samples.keyed2 eq_refl eq_refl)).
  reflexivity.
Defined.

(** C7 as stated fails in its last part: two arrays that hold the same
    items in different orders can have the same string.  The items [ab]
    and [ba] are one object with its keys in two orders, and the arrays
    [[ab, ba]] and [[ba, ab]] have the same canonical string, as the first
    part of the claim demands.  Two schemas that differ in their
    description only, in either order, have the same structural string.
    An object whose only key is [__proto__] and the empty object, in
    either order, have the same canonical string. *)
Lemma array_order_not_told :
  JArr [Samples.ab; Samples.ba] ≠ JArr [Samples.ba; Samples.ab]
  ∧ [Samples.ab; Samples.ba] ≡ₚ [Samples.ba; Samples.ab]
  ∧ canonicalStringify (JArr [Samples.ab; Samples.ba])
    = canonicalStringify (JArr [Samples.ba; Samples.ab])
  ∧ same_up_to_keys (Samples.described "a") (Samples.described "b") = false
  ∧ structuralStringify (JArr [Samples.described "a"; Samples.described "b"])
    = structuralStringify (JArr [Samples.described "b"; Samples.described "a"])
  ∧ same_up_to_keys Samples.proto (JObj []) = false
  ∧ canonicalStringify (JArr [Samples.proto; JObj []])
    = canonicalStringify (JArr [JObj []; Samples.proto]).
Proof.
  split; [discriminate|]. split; [apply perm_swap|]. by_evaluation.
Qed.

(** * Further properties of the code *)

(** ** helpers.ts: the listing and the hash *)

(** X1: [listFilesRecursive] on a directory returns, and returns the
    regular files below it at any depth, each once with the path it is
    reached by, in ascending order of the paths; directories and entries
    that are neither files nor directories are not listed. *)
Theorem listFilesRecursive_lists dir entries :
  ∃ files,
    listFilesRecursive dir (Dir entries) = Some files
    ∧ Sorted path_le files
    ∧ files ≡ₚ files_below (path_join dir) entries.
Proof.
  unfold listFilesRecursive.
  destruct (list_loop_spec (fs_size (Dir entries)) [(dir, entries)] [])
    as (out & -> & Hout).
  { rewrite fs_size_Dir, stack_size_cons. cbn. lia. }
  eexists. split; [reflexivity|]. split; [apply (Sorted_merge_sort _)|].
  rewrite merge_sort_Permutation, Hout, stack_files_cons.
  cbn [stack_files flat_map app]. by rewrite app_nil_r.
Qed.

(** X2: the hash does not tell where a path ends and the content begins:
    a file [p] that holds [c1 ++ c2] and a file [p ++ c1] that holds [c2]
    make trees with the same hash, whatever the hash function. *)
Theorem hashDirectoryTree_boundary (sha256_hex : string → string)
    rootDir p c1 c2 :
  hashDirectoryTree sha256_hex rootDir (Dir [(p, File (c1 ++ c2))])
  = hashDirectoryTree sha256_hex rootDir (Dir [(p ++ c1, File c2)]).
Proof.
  unfold hashDirectoryTree.
  change (listFilesRecursive rootDir (Dir [(p, File (c1 ++ c2))]))
    with (Some [(path_join rootDir p, c1 ++ c2)]).
  change (listFilesRecursive rootDir (Dir [(p ++ c1, File c2)]))
    with (Some [(path_join rootDir (p ++ c1), c2)]).
  cbn [hash_input]. rewrite !path_relative_join.
  by rewrite !append_assoc.
Qed.

(** ** helpers.ts: references and pointers *)

Lemma includes_app s t c :
  Str.includes (s ++ t) c = Str.includes s c || Str.includes t c.
Proof.
  induction s as [|d s IH]; [done|].
  change (Str.includes (String d (s ++ t)) c
          = Str.includes (String d s) c || Str.includes t c).
  cbn [Str.includes]. by destruct (Ascii.eqb c d).
Qed.

Lemma unescape_malformed n : ∀ pre rest,
  (String.length pre ≤ n)%nat → two_hex rest = false →
  URI.unescape (pre ++ String "%" rest) = None.
Proof.
  induction n as [n IH] using lt_wf_ind. intros pre rest Hn Hrest.
  destruct pre as [|c pre].
  { change (URI.unescape (String "%" rest) = None). cbn [URI.unescape].
    change (Ascii.eqb "%" "%") with true. cbv iota.
    destruct rest as [|h [|l r]]; try done. cbn [two_hex] in Hrest.
    by destruct (URI.hexval h), (URI.hexval l). }
  change (URI.unescape (String c (pre ++ String "%" rest)) = None).
  cbn [URI.unescape]. cbn [String.length] in Hn.
  destruct (Ascii.eqb c "%").
  - destruct pre as [|h [|l pre]].
    + change (EmptyString ++ String "%" rest) with (String "%" rest).
      cbv iota. destruct rest; [done|]. by change (URI.hexval "%") with (@None N).
    + change (String h EmptyString ++ String "%" rest)
        with (String h (String "%" rest)).
      cbv iota. change (URI.hexval "%") with (@None N). by destruct (URI.hexval h).
    + change (String h (String l pre) ++ String "%" rest)
        with (String h (String l (pre ++ String "%" rest))).
      cbv iota. destruct (URI.hexval h), (URI.hexval l); try done.
      rewrite (IH (String.length pre)); [done| |done..].
      cbn [String.length] in Hn. lia.
  - rewrite (IH (String.length pre)); [done|lia|done..].
Qed.

(** X3: [normalizeInternalRef] raises nothing and changes nothing when the
    reference is malformed: with a [%] that two hexadecimal digits do not
    follow, whatever comes before it, the reference is returned as it
    is. *)
Theorem normalizeInternalRef_malformed pre rest :
  two_hex rest = false →
  normalizeInternalRef (String "#" (pre ++ String "%" rest))
  = String "#" (pre ++ String "%" rest).
Proof.
  intros H. unfold normalizeInternalRef, URI.decodeURIComponent.
  change (Str.startsWith (String "#" (pre ++ String "%" rest)) "#") with true.
  assert (Str.includes (String "#" (pre ++ String "%" rest)) "%" = true) as ->.
  { change (Str.includes (pre ++ String "%" rest) "%" = true).
    rewrite includes_app. change (Str.includes (String "%" rest) "%") with true.
    apply orb_true_r. }
  cbn [negb orb Str.slice]. by rewrite (unescape_malformed (String.length pre)).
Qed.

Lemma normalizeInternalRef_malformed_witness :
  normalizeInternalRef "#/paths/~1a%2/x%zz" = "#/paths/~1a%2/x%zz".
Proof.
  apply (normalizeInternalRef_malformed "/paths/~1a%2/x" "zz"). reflexivity.
Defined.

Lemma replace2_other a1 a2 b c s :
  Ascii.eqb c a1 = false →
  Str.replace2 a1 a2 b (String c s) = String c (Str.replace2 a1 a2 b s).
Proof. intros H. destruct s; [done|]. cbn [Str.replace2]. by rewrite H. Qed.

Lemma replace2_match a1 a2 b s :
  Str.replace2 a1 a2 b (String a1 (String a2 s)) = String b (Str.replace2 a1 a2 b s).
Proof. cbn [Str.replace2]. by rewrite !Ascii.eqb_refl. Qed.

Lemma replace2_miss a1 a2 b c s :
  Ascii.eqb c a2 = false →
  Str.replace2 a1 a2 b (String a1 (String c s))
  = String a1 (Str.replace2 a1 a2 b (String c s)).
Proof. intros H. cbn [Str.replace2]. by rewrite H, andb_false_r. Qed.

Lemma replace_slash key :
  Str.replace2 "~" "1" "/" (pointer_escape key) = tilde_escape key.
Proof.
  induction key as [|c key IH]; [done|]. cbn [pointer_escape tilde_escape].
  destruct (Ascii.eqb c "~") eqn:Ht; [|destruct (Ascii.eqb c "/") eqn:Hs].
  - rewrite replace2_miss by done. rewrite replace2_other by done. by rewrite IH.
  - rewrite replace2_match, IH. by apply Ascii.eqb_eq in Hs as ->.
  - rewrite replace2_other by done. by rewrite IH.
Qed.

Lemma replace_tilde key : Str.replace2 "~" "0" "~" (tilde_escape key) = key.
Proof.
  induction key as [|c key IH]; [done|]. cbn [tilde_escape].
  destruct (Ascii.eqb c "~") eqn:Ht.
  - rewrite replace2_match, IH. by apply Ascii.eqb_eq in Ht as ->.
  - rewrite replace2_other by done. by rewrite IH.
Qed.

Lemma unescape_plain s :
  Str.includes s "%" = false → URI.unescape s = Some (URI.Raw <$> list_ascii_of_string s).
Proof.
  induction s as [|c s IH]; [done|]. cbn [Str.includes URI.unescape].
  rewrite (Ascii.eqb_sym c "%"). destruct (Ascii.eqb "%" c); [done|].
  intros H. by rewrite IH.
Qed.

Lemma utf8_raw s : URI.utf8 (URI.Raw <$> list_ascii_of_string s) = Some s.
Proof. induction s as [|c s IH]; [done|]. cbn. cbn in IH. by rewrite IH. Qed.

Lemma decode_plain s :
  Str.includes s "%" = false → URI.decodeURIComponent s = Some s.
Proof.
  intros H. unfold URI.decodeURIComponent. rewrite unescape_plain by done.
  apply utf8_raw.
Qed.

Lemma decode_escaped key :
  Str.includes key "%" = false →
  jsonPointerDecode (pointer_escape key) = Some key.
Proof.
  intros H. unfold jsonPointerDecode.
  rewrite replace_slash, replace_tilde. by apply decode_plain.
Qed.

(** X4: decoding a segment of a JSON pointer undoes the escaping of RFC
    6901: for a key without [%], the segment that writes [~] as [~0] and
    [/] as [~1] decodes to the key. *)
Theorem jsonPointerDecode_escape key :
  Str.includes key "%" = false →
  jsonPointerDecode (pointer_escape key) = Some key.
Proof. apply decode_escaped. Qed.

Lemma jsonPointerDecode_escape_witness :
  jsonPointerDecode (pointer_escape "/process-instances/~search")
  = Some "/process-instances/~search".
Proof. apply jsonPointerDecode_escape. reflexivity. Defined.

Lemma append_nil_r (s : string) : s ++ EmptyString = s.
Proof.
  induction s as [|c s IH]; [done|].
  change (String c (s ++ EmptyString) = String c s). by rewrite IH.
Qed.

Lemma rev_app_append s t : String.rev_app s t = String.rev s ++ t.
Proof.
  revert t. induction s as [|c s IH]; intros t; [done|].
  unfold String.rev. cbn [String.rev_app].
  rewrite (IH (String c t)), (IH (String c EmptyString)).
  by rewrite append_assoc.
Qed.

Lemma rev_cons c s : String.rev (String c s) = String.rev s ++ String c EmptyString.
Proof. unfold String.rev at 1. cbn [String.rev_app]. apply rev_app_append. Qed.

Lemma split_go_plain c s : ∀ cur,
  Str.includes s c = false →
  Str.split_go c cur s = [String.rev cur ++ s].
Proof.
  induction s as [|d s IH]; intros cur H.
  { cbn. by rewrite append_nil_r. }
  cbn [Str.includes] in H. cbn [Str.split_go].
  destruct (Ascii.eqb c d); [done|].
  rewrite IH by done. rewrite rev_cons, append_assoc. reflexivity.
Qed.

Lemma split_go_sep c s t : ∀ cur,
  Str.includes s c = false →
  Str.split_go c cur (s ++ String c t)
  = (String.rev cur ++ s) :: Str.split_go c EmptyString t.
Proof.
  induction s as [|d s IH]; intros cur H.
  { change (Str.split_go c cur (String c t)
            = (String.rev cur ++ EmptyString) :: Str.split_go c EmptyString t).
    cbn [Str.split_go]. by rewrite Ascii.eqb_refl, append_nil_r. }
  cbn [Str.includes] in H.
  change (Str.split_go c cur (String d (s ++ String c t))
          = (String.rev cur ++ String d s) :: Str.split_go c EmptyString t).
  cbn [Str.split_go]. destruct (Ascii.eqb c d); [done|].
  rewrite IH by done. rewrite rev_cons, append_assoc. reflexivity.
Qed.

Lemma pointer_escape_slash key : Str.includes (pointer_escape key) "/" = false.
Proof.
  induction key as [|c key IH]; [done|]. cbn [pointer_escape].
  destruct (Ascii.eqb c "~") eqn:Ht; [exact IH|].
  destruct (Ascii.eqb c "/") eqn:Hs; [exact IH|].
  cbn [Str.includes]. by rewrite Ascii.eqb_sym, Hs.
Qed.

Lemma split_segments ks : ∀ k,
  Str.split "/" (pointer_escape k ++ pointer_segments ks)
  = pointer_escape <$> (k :: ks).
Proof.
  unfold Str.split. induction ks as [|k' ks IH]; intros k.
  - cbn [pointer_segments]. rewrite append_nil_r.
    by rewrite split_go_plain by apply pointer_escape_slash.
  - cbn [pointer_segments].
    rewrite split_go_sep by apply pointer_escape_slash. by rewrite IH.
Qed.

Lemma resolve_segments_follow h keys : ∀ cur,
  Forall (λ k, Str.includes k "%" = false) keys →
  resolve_segments h cur (pointer_escape <$> keys) = follow h cur keys.
Proof.
  induction keys as [|k keys IH]; intros cur Hk; [done|].
  apply Forall_cons in Hk as [Hk Hks]. cbn [fmap list_fmap resolve_segments follow].
  destruct cur as [[| | | |l]|]; try done.
  rewrite decode_escaped by done.
  destruct (h !! l); [|done]. by apply IH.
Qed.

(** X5: a JSON pointer resolves to what its keys lead to.  For a path of
    keys without [%], written as a pointer by RFC 6901, that leads through
    own properties of objects and items of arrays to a value,
    [resolveInternalRef] returns that value; for the empty path, whose
    pointer is [#], it returns [undefined] and not the root. *)
Theorem resolveInternalRef_follow h root keys v :
  Forall (λ k, Str.includes k "%" = false) keys →
  keys ≠ [] →
  follow h (Some root) keys = Ret (Some v) →
  resolveInternalRef h root (pointer_of keys) = Ret (Some v)
  ∧ resolveInternalRef h root (pointer_of []) = Ret None.
Proof.
  intros Hk Hne Hv. split; [|done]. destruct keys as [|k ks]; [done|].
  unfold resolveInternalRef, pointer_of. cbn [pointer_segments].
  change (Str.startsWith (String "#" (String "/" _)) "#/") with true.
  cbn [negb Str.slice]. rewrite split_segments.
  rewrite <- Hv. by apply resolve_segments_follow.
Qed.

Lemma resolveInternalRef_follow_witness :
  resolveInternalRef (cells Samples.recursive_store) (VRef 3)
    (pointer_of ["paths"; "/a"; "x"; "$ref"])
  = Ret (Some (VStr "#/paths/~1a"))
  ∧ resolveInternalRef (cells Samples.recursive_store) (VRef 3) (pointer_of [])
    = Ret None.
Proof.
  apply (resolveInternalRef_follow (cells Samples.recursive_store) (VRef 3)
           ["paths"; "/a"; "x"; "$ref"]).
  - repeat constructor.
  - discriminate.
  - vm_compute. reflexivity.
Defined.

Lemma includes_rev s c : Str.includes (String.rev s) c = Str.includes s c.
Proof.
  induction s as [|d s IH]; [done|]. rewrite rev_cons, includes_app, IH.
  cbn [Str.includes]. destruct (Ascii.eqb c d), (Str.includes s c); done.
Qed.

Lemma split_go_includes c x s : ∀ cur,
  Str.includes cur x = false → Str.includes s x = false →
  Forall (λ piece, Str.includes piece x = false) (Str.split_go c cur s).
Proof.
  induction s as [|d s IH]; intros cur Hcur Hs.
  { constructor; [|constructor]. by rewrite includes_rev. }
  cbn [Str.includes] in Hs. destruct (Ascii.eqb x d) eqn:Hd; [done|].
  cbn [Str.split_go]. destruct (Ascii.eqb c d).
  - constructor; [by rewrite includes_rev|]. by apply IH.
  - apply IH; [|done]. cbn [Str.includes]. by rewrite Hd.
Qed.

Lemma replace2_step a1 a2 b c1 c2 s :
  Str.replace2 a1 a2 b (String c1 (String c2 s))
  = if Ascii.eqb c1 a1 && Ascii.eqb c2 a2
    then String b (Str.replace2 a1 a2 b s)
    else String c1 (Str.replace2 a1 a2 b (String c2 s)).
Proof. reflexivity. Qed.

Lemma replace2_includes a1 a2 b x n : ∀ s,
  (String.length s ≤ n)%nat →
  Ascii.eqb x b = false → Str.includes s x = false →
  Str.includes (Str.replace2 a1 a2 b s) x = false.
Proof.
  induction n as [n IH] using lt_wf_ind. intros s Hn Hb Hs.
  destruct s as [|c1 [|c2 s]]; try done.
  rewrite replace2_step. cbn [Str.includes String.length] in Hs, Hn.
  destruct (Ascii.eqb x c1) eqn:H1; [done|].
  destruct (Ascii.eqb x c2) eqn:H2; [done|].
  destruct (_ && _); cbn [Str.includes]; rewrite ?Hb, ?H1.
  - apply (IH (String.length s)); [lia|lia|done..].
  - apply (IH (S (String.length s))); [lia|cbn; lia|done|].
    cbn [Str.includes]. by rewrite H2.
Qed.

Lemma jsonPointerDecode_plain seg :
  Str.includes seg "%" = false → is_Some (jsonPointerDecode seg).
Proof.
  intros H. unfold jsonPointerDecode. rewrite decode_plain; [by eexists|].
  eapply replace2_includes; [done..|].
  eapply replace2_includes; done.
Qed.

Lemma resolve_segments_no_URIError h segs : ∀ cur,
  Forall (λ seg, Str.includes seg "%" = false) segs →
  resolve_segments h cur segs ≠ Throw "URIError: URI malformed".
Proof.
  induction segs as [|seg segs IH]; intros cur Hs; [done|].
  apply Forall_cons in Hs as [Hseg Hs]. cbn [resolve_segments].
  destruct cur as [[| | | |l]|]; try done.
  destruct (jsonPointerDecode_plain seg Hseg) as [key ->].
  destruct (h !! l); [by apply IH|done].
Qed.

(** X6: [resolveInternalRef] raises [URIError] only for a reference that
    has a [%] in it: for any other reference, whatever the document, it
    returns (a value or [undefined]). *)
Theorem resolveInternalRef_no_URIError h root ref :
  Str.includes ref "%" = false →
  resolveInternalRef h root ref ≠ Throw "URIError: URI malformed".
Proof.
  intros H. unfold resolveInternalRef. destruct (negb _); [done|].
  apply resolve_segments_no_URIError. apply split_go_includes; [done|].
  destruct ref as [|c1 [|c2 ref]]; try done.
  cbn [Str.includes] in H. cbn [Str.slice].
  destruct (Ascii.eqb "%" c1); [done|]. by destruct (Ascii.eqb "%" c2).
Qed.

Lemma resolveInternalRef_no_URIError_witness :
  resolveInternalRef (cells Samples.recursive_store) (VRef 3) "#/paths/~1b/x"
  ≠ Throw "URIError: URI malformed".
Proof.
  apply (resolveInternalRef_no_URIError (cells Samples.recursive_store) (VRef 3)
           "#/paths/~1b/x").
  reflexivity.
Defined.

(** ** helpers.ts: the two signatures *)

(** X7: the structural signature is coarser than the exact one.  For two
    values whose objects have distinct keys and no key [__proto__], equal
    canonical strings give equal structural strings. *)
Theorem canonical_refines_structural a b :
  distinct_keys a = true → distinct_keys b = true →
  proto_free a = true → proto_free b = true →
  canonicalStringify a = canonicalStringify b →
  structuralStringify a = structuralStringify b.
Proof.
  intros Da Db Pa Pb H. apply stringify_inj in H.
  apply sortKeys_tells in H; [|done..].
  destruct (sortKeys_same a b H Da Db) as [_ Hs].
  unfold structuralStringify. by rewrite Hs.
Qed.

Lemma canonical_refines_structural_witness :
  structuralStringify Samples.keyed1 = structuralStringify Samples.keyed2.
Proof.
  apply (canonical_refines_structural Samples.keyed1 Samples.keyed2);
    reflexivity.
Defined.

Lemma get_set_ne {V} k k' (v : V) o :
  k ≠ k' → Obj.get k (Obj.set k' v o) = Obj.get k o.
Proof.
  intros Hne. unfold Obj.set. destruct (_ && _); [done|].
  rewrite get_define. by rewrite decide_False.
Qed.

Lemma strip_entries_metadata k l : ∀ result,
  k = "description" ∨ k = "title" →
  Obj.get k result = None → Obj.get k (strip_entries l result) = None.
Proof.
  induction l as [|[key val] l IH]; intros result Hk Hr; [done|].
  cbn [strip_entries]. rewrite !eqb_eq_dec.
  destruct (bool_decide (key = "description") || bool_decide (key = "title"))
    eqn:Hskip; [by apply IH|].
  apply orb_false_iff in Hskip as [Hd%bool_decide_eq_false Ht%bool_decide_eq_false].
  apply IH; [done|]. rewrite get_set_ne; [done|]. by destruct Hk as [-> | ->].
Qed.

(** X8: [stripMetadata] leaves no [description] and no [title] anywhere:
    no object of the result, at any depth, has one of the two keys,
    whatever the key stood for (the title of a schema or a property that
    is named so). *)
Theorem stripMetadata_strips v props :
  props ∈ objects_of (stripMetadata v) →
  Obj.get "description" props = None ∧ Obj.get "title" props = None.
Proof.
  revert props. induction v as [| | | |xs IH|o IH] using json_ind; intros props;
    try (by intros ?%elem_of_nil).
  - cbn [stripMetadata objects_of]. rewrite list_elem_of_In, in_flat_map.
    intros (x & Hx & Hin). apply in_map_iff in Hx as (y & <- & Hy).
    rewrite Forall_forall in IH. apply (IH y); [by apply list_elem_of_In|].
    by apply list_elem_of_In.
  - rewrite stripMetadata_obj. cbn [objects_of].
    intros [->|Hin]%elem_of_cons.
    { split; apply strip_entries_metadata; auto. }
    destruct (strip_entries_Forall
                (λ v, ∀ props, props ∈ objects_of v →
                        Obj.get "description" props = None
                        ∧ Obj.get "title" props = None) o IH [])
      as (H & _ & _); [constructor|apply NoDup_nil_2|done|].
    apply list_elem_of_In, in_flat_map in Hin as ([k x] & Hx & Hin).
    rewrite Forall_forall in H. apply (H (k, x)); by apply list_elem_of_In.
Qed.

Lemma get_assign_all_proto f keys : ∀ acc k,
  Obj.get "__proto__" acc = None →
  Obj.get "__proto__" (assign_all f keys acc) = None
  ∧ Obj.get k (assign_all f keys acc)
    = if decide (k ∈ keys ∧ k ≠ "__proto__")
      then match f k with Some v => Some v | None => Obj.get k acc end
      else Obj.get k acc.
Proof.
  induction keys as [|k0 keys IH]; intros acc k Hacc.
  { split; [done|]. rewrite decide_False; [done|]. intros [H _]. by apply elem_of_nil in H. }
  change (assign_all f (k0 :: keys) acc)
    with (assign_all f keys
            (match f k0 with Some v => Obj.set k0 v acc | None => acc end)).
  set (acc' := match f k0 with Some v => Obj.set k0 v acc | None => acc end).
  assert (G : ∀ x, Obj.get x acc'
                   = if decide (x = k0 ∧ k0 ≠ "__proto__")
                     then match f k0 with Some v => Some v | None => Obj.get x acc end
                     else Obj.get x acc).
  { intros x. unfold acc'. destruct (f k0) as [v0|]; [|by case_decide].
    by rewrite get_set. }
  assert (Hacc' : Obj.get "__proto__" acc' = None).
  { rewrite G. rewrite decide_False; [done|]. by intros [<- ?]. }
  destruct (IH acc' k Hacc') as [Hp ->]. split; [done|]. rewrite G.
  destruct (decide (k = k0)) as [->|Hk].
  - repeat (match goal with |- context [decide ?P] => destruct (decide P) end);
      destruct (f k0); try done; exfalso;
      repeat match goal with
             | H : ¬ (_ ∧ _) |- _ => apply not_and_l in H; destruct H
             | H : _ ∧ _ |- _ => destruct H
             end; try done; set_solver.
  - repeat (match goal with |- context [decide ?P] => destruct (decide P) end);
      try done; exfalso;
      repeat match goal with
             | H : ¬ (_ ∧ _) |- _ => apply not_and_l in H; destruct H
             | H : _ ∧ _ |- _ => destruct H
             end; try done; set_solver.
Qed.

Lemma NoDup_assign_all f keys : ∀ acc,
  NoDup (Obj.keys acc) → NoDup (Obj.keys (assign_all f keys acc)).
Proof.
  induction keys as [|k0 keys IH]; intros acc Hacc; [done|].
  change (assign_all f (k0 :: keys) acc)
    with (assign_all f keys
            (match f k0 with Some v => Obj.set k0 v acc | None => acc end)).
  apply IH. destruct (f k0); [by apply NoDup_set|done].
Qed.

(** a step for the key [__proto__] changes nothing: the keys can be
    taken without it *)
Lemma assign_all_filter f keys : ∀ acc,
  Obj.get "__proto__" acc = None →
  assign_all f (filter (λ k, k ≠ "__proto__") keys) acc = assign_all f keys acc.
Proof.
  induction keys as [|k0 keys IH]; intros acc Hacc; [done|].
  change (assign_all f (k0 :: keys) acc)
    with (assign_all f keys
            (match f k0 with Some v => Obj.set k0 v acc | None => acc end)).
  destruct (decide (k0 = "__proto__")) as [->|Hne].
  - rewrite filter_cons_False by (intros H; by apply H).
    rewrite IH by done. f_equal. destruct (f "__proto__"); [|done].
    unfold Obj.set, Obj.has. by rewrite Hacc.
  - rewrite filter_cons_True by done.
    change (assign_all f (k0 :: filter (λ k, k ≠ "__proto__") keys) acc)
      with (assign_all f (filter (λ k, k ≠ "__proto__") keys)
              (match f k0 with Some v => Obj.set k0 v acc | None => acc end)).
    apply IH. destruct (f k0); [|done]. rewrite get_set by done.
    rewrite decide_False; [done|]. by intros [<- ?].
Qed.

Lemma sort_strings_sorted l :
  Sorted String.le l → sort_strings l = l.
Proof.
  intros H. unfold sort_strings. apply (Sorted_unique String.le).
  - apply (Sorted_merge_sort _).
  - done.
  - apply merge_sort_Permutation.
Qed.

Lemma StronglySorted_filter_strings (P : string → Prop) `{∀ x, Decision (P x)} l :
  StronglySorted String.le l → StronglySorted String.le (filter P l).
Proof.
  induction 1 as [|x l Hl IH Hx]; [constructor|].
  destruct (decide (P x)).
  - rewrite filter_cons_True by done. constructor; [done|].
    rewrite Forall_forall in Hx |- *. intros y [_ Hy]%list_elem_of_filter. by apply Hx.
  - by rewrite filter_cons_False.
Qed.

Lemma distinct_sortKeys_values o :
  Forall (λ kv, distinct_keys kv.2 = true →
                sortKeys (sortKeys kv.2) = sortKeys kv.2) o →
  Forall (λ kv, distinct_keys kv.2 = true) o →
  ∀ k, sortKeys <$> (sortKeys <$> Obj.get k o) = sortKeys <$> Obj.get k o.
Proof.
  intros IH Hd k. destruct (Obj.get k o) as [v|] eqn:E; [|done].
  apply get_Some_elem in E. rewrite Forall_forall in IH, Hd.
  cbn. f_equal. apply (IH _ E). apply (Hd _ E).
Qed.

(** X9: [sortKeys] is idempotent: sorting the sorted form of a value whose
    objects have distinct keys changes nothing, so that the canonical
    string of the parsed canonical string is the canonical string. *)
Theorem sortKeys_idempotent v :
  distinct_keys v = true → sortKeys (sortKeys v) = sortKeys v.
Proof.
  induction v as [| | | |xs IH|o IH] using json_ind; try done.
  - intros Hd%distinct_arr. cbn [sortKeys]. f_equal. rewrite map_map.
    apply map_ext_Forall. rewrite Forall_forall in IH, Hd |- *.
    intros x Hx. apply IH; [done|]. by apply Hd.
  - intros [Hnd Hd]%distinct_obj.
    pose proof (distinct_sortKeys_values o IH Hd) as Hvals.
    rewrite (sortKeys_obj o).
    set (f := λ key, sortKeys <$> Obj.get key o).
    set (ks := sort_strings (Obj.keys o)).
    set (R := assign_all f ks []).
    assert (Hks : ∀ k, k ∈ ks ↔ k ∈ Obj.keys o).
    { intros k. unfold ks, sort_strings. by rewrite merge_sort_Permutation. }
    assert (Hget : ∀ k, Obj.get k R
                        = if decide (k = "__proto__") then None else f k).
    { intros k. unfold R. destruct (get_assign_all_proto f ks [] k eq_refl) as [_ ->].
      unfold f. destruct (decide (k = "__proto__")) as [->|Hp].
      - rewrite decide_False; [done|]. tauto.
      - destruct (decide (k ∈ ks ∧ k ≠ "__proto__")) as [_|Hn].
        + by destruct (Obj.get k o).
        + assert (k ∉ Obj.keys o) as ->%get_None by (rewrite <- Hks; tauto). done. }
    assert (HndR : NoDup (Obj.keys R)) by (apply NoDup_assign_all, NoDup_nil_2).
    assert (Hsorted : Sorted String.le ks) by apply (Sorted_merge_sort _).
    assert (Hndks : NoDup ks).
    { unfold ks, sort_strings. by rewrite merge_sort_Permutation. }
    assert (HkeysR : sort_strings (Obj.keys R) = filter (λ k, k ≠ "__proto__") ks).
    { rewrite <- (sort_strings_sorted (filter (λ k, k ≠ "__proto__") ks)).
      - apply sort_strings_perm. apply NoDup_Permutation; [done|by apply NoDup_filter|].
        intros k. rewrite <- get_is_Some, Hget, list_elem_of_filter, Hks.
        rewrite <- get_is_Some. unfold f. case_decide.
        + split; [by intros [? ?]|tauto].
        + rewrite fmap_is_Some. tauto.
      - apply StronglySorted_Sorted, StronglySorted_filter_strings.
        by apply Sorted_StronglySorted; [apply _|]. }
    rewrite (sortKeys_obj R), HkeysR. f_equal.
    transitivity (assign_all f (filter (λ k, k ≠ "__proto__") ks) []);
      [|by apply assign_all_filter].
    apply assign_all_ext. intros k [Hp Hk]%list_elem_of_filter.
    rewrite Hget, decide_False by done. apply Hvals.
Qed.

Lemma sortKeys_idempotent_witness :
  sortKeys (sortKeys Samples.keyed2) = sortKeys Samples.keyed2.
Proof. apply sortKeys_idempotent. reflexivity. Defined.

(** ** bundle.ts: the override table and the promoted names *)

Lemma get_fold_define {V} (l : list (string * V)) : ∀ acc k,
  NoDup (Obj.keys l) →
  Obj.get k (fold_left (λ o kv, Obj.define kv.1 kv.2 o) l acc)
  = match Obj.get k l with Some v => Some v | None => Obj.get k acc end.
Proof.
  induction l as [|[k0 v0] l IH]; intros acc k Hnd; [done|].
  unfold Obj.keys in Hnd. cbn [map fst] in Hnd. apply NoDup_cons in Hnd as [Hk0 Hnd].
  cbn [fold_left fst snd]. rewrite IH by done. rewrite get_cons, get_define.
  destruct (decide (k = k0)) as [->|]; [|done].
  by apply (get_None (V:=V)) in Hk0 as ->.
Qed.

(** X10: in [{...DEFAULT_MANUAL_OVERRIDES, ...options.manualOverrides}] the
    entry of the options wins, and a pointer the options say nothing about
    keeps its default. *)
Theorem spread_precedence {V} (defaults given : list (string * V)) k :
  NoDup (Obj.keys defaults) → NoDup (Obj.keys given) →
  Obj.get k (spread defaults given)
  = match Obj.get k given with
    | Some v => Some v
    | None => Obj.get k defaults
    end.
Proof.
  intros Hd Hg. unfold spread. rewrite !get_fold_define by done.
  by destruct (Obj.get k defaults).
Qed.

Lemma spread_precedence_witness :
  Obj.get "#/paths/~1p/k"
    (spread DEFAULT_MANUAL_OVERRIDES (optManualOverrides Samples.override_options))
  = Some "Manual".
Proof.
  rewrite (spread_precedence DEFAULT_MANUAL_OVERRIDES
             (optManualOverrides Samples.override_options) "#/paths/~1p/k").
  - reflexivity.
  - apply (bool_decide_unpack _). vm_compute. exact I.
  - apply (bool_decide_unpack _). vm_compute. exact I.
Defined.

Lemma unique_name_from taken p fuel : ∀ i j,
  (i ≤ j)%nat → (j - i ≤ fuel)%nat →
  (∀ x, (i ≤ x < j)%nat → taken (candidate p x) = true) →
  taken (candidate p j) = false →
  unique_name fuel taken p (candidate p i) (S i) = Some (candidate p j).
Proof.
  induction fuel as [|fuel IH]; intros i j Hij Hfuel Htaken Hfree.
  - assert (i = j) as -> by lia. cbn [unique_name]. by rewrite Hfree.
  - destruct (decide (i = j)) as [->|Hne].
    { cbn [unique_name]. by rewrite Hfree. }
    cbn [unique_name]. rewrite Htaken by lia.
    change (p +:+ pretty (S i)) with (candidate p (S i)).
    apply IH; [lia|lia| |done]. intros x Hx. apply Htaken. lia.
Qed.

(** X11: the name a promoted schema gets is the first free one among
    [name], [name1], [name2], ...: if the [j]-th of them is free and the
    ones before it are taken, by a component or by a schema promoted
    before, the loop stops at it. *)
Theorem unique_name_first_free taken promotedName fuel j :
  (j ≤ fuel)%nat →
  (∀ i, (i < j)%nat → taken (candidate promotedName i) = true) →
  taken (candidate promotedName j) = false →
  unique_name fuel taken promotedName promotedName 1
  = Some (candidate promotedName j).
Proof.
  intros Hfuel Htaken Hfree.
  apply (unique_name_from taken promotedName fuel 0 j); [lia|lia| |done].
  intros x Hx. apply Htaken. lia.
Qed.

Lemma unique_name_first_free_witness :
  unique_name 50 (λ name, String.eqb name "IdExactMatch" || String.eqb name "IdExactMatch1")
    "IdExactMatch" "IdExactMatch" 1
  = Some "IdExactMatch2".
Proof.
  apply (unique_name_first_free _ "IdExactMatch" 50 2).
  - lia.
  - intros [|[|i]] Hi; [reflexivity|reflexivity|lia].
  - reflexivity.
Defined.

(** ** bundle.ts: what the walks leave alone *)

Lemma spares_refl P σ : spares P σ σ.
Proof. split; [done|]. by left. Qed.

Lemma string_prop_set_ref c s :
  (∃ props, c = CObj props) →
  string_prop (set_prop c "$ref" (VStr s)) "$ref" = Some s.
Proof.
  intros [props ->]. unfold string_prop, set_prop, cell_get, Obj.set.
  rewrite andb_false_r. by rewrite get_define, decide_True.
Qed.

Lemma like_rewritten_once c c' c'' :
  like_rewritten c c' → ¬ like_rewritten c' c''.
Proof.
  intros (raw & Hraw & _ & ->) (raw' & Hraw' & Hlike & _).
  rewrite string_prop_set_ref in Hraw'.
  - injection Hraw' as <-. done.
  - destruct c; [by eexists|]. unfold string_prop in Hraw. cbn in Hraw. done.
Qed.

Lemma spares_trans P σ1 σ2 σ3 :
  spares P σ1 σ2 → spares P σ2 σ3 → spares P σ1 σ3.
Proof.
  intros [N1 H1] [N2 H2]. split; [congruence|]. intros x Hx.
  destruct (H1 x Hx) as [E1|(c & c' & E1 & E1' & L1)],
           (H2 x Hx) as [E2|(d & d' & E2 & E2' & L2)].
  - left. congruence.
  - right. exists d, d'. rewrite <- E1. done.
  - right. exists c, c'. rewrite E2. done.
  - rewrite E1' in E2. injection E2 as <-. by destruct (like_rewritten_once c c' d').
Qed.

Lemma spares_writes P l σ σ' :
  l ∉ P → writes_only l σ σ' → spares P σ σ'.
Proof.
  intros Hl [N H]. split; [done|]. intros x Hx. left. apply H. by intros ->.
Qed.

Lemma for_each_spares P (f : val → gset loc → M (gset loc)) vs :
  (∀ v seen σ seen' σ', f v seen σ = Ret (seen', σ') → spares P σ σ') →
  ∀ seen σ seen' σ',
    for_each f vs seen σ = Ret (seen', σ') → spares P σ σ'.
Proof.
  intros Hf. induction vs as [|v vs IH]; intros seen σ seen' σ' H.
  - apply mret_Ret in H as [-> ->]. apply spares_refl.
  - simpl in H. apply bind_Ret in H as (s1 & σ1 & H1 & H).
    eapply spares_trans; [by eapply Hf|by eapply IH].
Qed.

(** X12: [safeNormalize] does not mutate the component schemas themselves,
    and creates no object.  Whatever it is called on, a run that returns
    leaves every top-level component schema as it was, with one exception:
    a component that is itself a [$ref] of the $like shape has been pointed
    at [LikeFilter]. *)
Theorem safeNormalize_spares_components fuel E v seen σ seen' σ' :
  safeNormalize fuel E v seen σ = Ret (seen', σ') →
  spares (componentValues E) σ σ'.
Proof.
  revert v seen σ seen' σ'. induction fuel as [|fuel IH]; intros v seen σ seen' σ'.
  { done. }
  cbn [safeNormalize]. destruct v as [| | | |l];
    try (intros [-> ->]%mret_Ret; apply spares_refl).
  destruct (decide (l ∈ seen)) as [Hin|Hnin];
    [intros [-> ->]%mret_Ret; apply spares_refl|].
  pose proof (for_each_spares (componentValues E) (safeNormalize fuel E)) as Hall.
  intros H.
  apply bind_Ret in H as (obj & σ1 & Ho & H). apply read_Ret in Ho as [-> Ho].
  apply bind_Ret in H as (sch & σ1 & Hs & H). apply read_Ret in Hs as [-> Hs].
  destruct (string_prop obj "$ref") as [raw|] eqn:Hraw;
    [destruct (is_like_shape (normalizeInternalRef raw)) eqn:Hlike;
     [destruct (truthy_opt (cell_get sch "LikeFilter"))|]|];
    cbn [andb] in H.
  { apply bind_Ret in H as (u & σ1 & Hw & H). apply write_Ret in Hw as ->.
    apply mret_Ret in H as [-> ->]. split; [done|]. intros x Hx. cbn [cells].
    destruct (decide (x = l)) as [->|Hne].
    - right. eexists _, _. split; [exact Ho|]. split; [apply lookup_insert_eq|].
      by exists raw.
    - left. by rewrite lookup_insert_ne. }
  all: destruct (decide (l ∈ componentValues E)) as [Hc|Hc];
    [eapply Hall; [|exact H]; intros; by eapply IH|].
  all: destruct obj as [props|items];
    [|eapply Hall; [|exact H]; intros; by eapply IH].
  all: apply bind_Ret in H as (seen1 & σ1 & H1 & H);
    assert (K1 : spares (componentValues E) σ σ1)
      by (eapply Hall; [|exact H1]; intros; by eapply IH);
    apply bind_Ret in H as (obj1 & σ2 & Ho1 & H); apply read_Ret in Ho1 as [-> Ho1];
    apply bind_Ret in H as ([seen2 returned] & σ2 & H2 & H).
  all: assert (K2 : spares (componentValues E) σ σ2);
    [|destruct returned;
      [by apply mret_Ret in H as [-> ->]
      |apply bind_Ret in H as (u & σ3 & Hd & H); apply inline_dedup_writes in Hd;
       apply mret_Ret in H as [-> ->];
       eapply spares_trans; [exact K2|by apply (spares_writes _ l)]]].
  all: destruct (string_prop obj1 "$ref") as [ref|];
      [|by apply mret_Ret in H2 as [[= -> ->] ->]];
    destruct (Str.startsWith ref PATHS_PREFIX);
      [|by apply mret_Ret in H2 as [[= -> ->] ->]];
    apply bind_Ret in H2 as (resolved & σ3 & Hr & H2);
    apply resolve_Ret in Hr as [-> Hr];
    destruct resolved as [[| | | |t]|];
      try (by apply mret_Ret in H2 as [[= -> ->] ->]);
    apply bind_Ret in H2 as (seen3 & σ3 & H3 & H2);
    apply IH in H3; pose proof (spares_trans _ _ _ _ K1 H3) as K3;
    apply bind_Ret in H2 as (robj & σ4 & Hro & H2); apply read_Ret in Hro as [-> Hro];
    apply bind_Ret in H2 as (obj3 & σ4 & Ho3 & H2); apply read_Ret in Ho3 as [-> Ho3];
    (destruct (string_prop obj3 "$ref") as [ref3|];
      [|by apply mret_Ret in H2 as [[= -> ->] ->]]);
    (destruct (adopt_or_override E ref3 robj);
      [apply bind_Ret in H2 as (u & σ4 & Hw & H2); apply write_Ret in Hw as ->;
       apply mret_Ret in H2 as [[= -> ->] ->];
       eapply spares_trans; [exact K3|];
       by apply (spares_writes _ l), writes_only_write|]);
    apply bind_Ret in H2 as (sig & σ4 & Hsig & H2);
    apply canonical_of_Ret in Hsig as [-> _];
    (destruct (nonempty _);
      [apply bind_Ret in H2 as (u & σ4 & Hw & H2); apply write_Ret in Hw as ->;
       apply mret_Ret in H2 as [[= -> ->] ->];
       eapply spares_trans; [exact K3|];
       by apply (spares_writes _ l), writes_only_write|]);
    by apply mret_Ret in H2 as [[= -> ->] ->].
Qed.

Lemma safeNormalize_spares_components_witness :
  spares (componentValues Samples.override_env)
    Samples.override_store Samples.override_target.2.
Proof.
  apply (safeNormalize_spares_components 49 Samples.override_env (VRef 18)
           ({[3]} ∪ ∅) Samples.override_store
           Samples.override_target.1 Samples.override_target.2).
  vm_compute. reflexivity.
Defined.

Lemma untouched_refl P σ : untouched P σ σ.
Proof. by split. Qed.

Lemma untouched_trans P σ1 σ2 σ3 :
  untouched P σ1 σ2 → untouched P σ2 σ3 → untouched P σ1 σ3.
Proof.
  intros [N1 H1] [N2 H2]. split; [congruence|]. intros x Hx.
  rewrite H2, H1; done.
Qed.

Lemma untouched_write P l c σ :
  l ∉ P → untouched P σ (Store (<[l := c]> (cells σ)) (next σ)).
Proof.
  intros Hl. split; [done|]. intros x Hx. cbn [cells].
  rewrite lookup_insert_ne; [done|]. by intros ->.
Qed.

Lemma structural_of_Ret fuel v σ s σ' :
  structural_of fuel v σ = Ret (s, σ') → σ' = σ.
Proof.
  unfold structural_of. intros H. apply bind_Ret in H as (j & σ1 & Hj & H).
  apply lift_opt_Ret in Hj as [-> Hj]. by apply mret_Ret in H as [-> ->].
Qed.

Lemma signature_maps_pure fuel entries : ∀ exact struct σ r σ',
  signature_maps fuel entries exact struct σ = Ret (r, σ') → σ' = σ.
Proof.
  induction entries as [|[name schema] rest IH]; intros exact struct σ r σ' H.
  { by apply mret_Ret in H as [_ ->]. }
  cbn [signature_maps] in H. destruct schema as [| | | |l]; try by eapply IH.
  apply bind_Ret in H as (c & σ1 & Hc & H). apply read_Ret in Hc as [-> Hc].
  destruct (truthy_opt _); [by eapply IH|].
  apply bind_Ret in H as (e & σ1 & He & H). apply canonical_of_Ret in He as [-> _].
  apply bind_Ret in H as (s & σ1 & Hs & H). apply structural_of_Ret in Hs as ->.
  by eapply IH.
Qed.

Lemma for_each_untouched {S} P (f : val → S → M S) vs :
  (∀ v st σ st' σ', f v st σ = Ret (st', σ') → untouched P σ σ') →
  ∀ st σ st' σ', for_each f vs st σ = Ret (st', σ') → untouched P σ σ'.
Proof.
  intros Hf. induction vs as [|v vs IH]; intros st σ st' σ' H.
  - apply mret_Ret in H as [-> ->]. apply untouched_refl.
  - simpl in H. apply bind_Ret in H as (s1 & σ1 & H1 & H).
    eapply untouched_trans; [by eapply Hf|by eapply IH].
Qed.

Lemma walk_untouched fuel components exact struct : ∀ node st σ st' σ',
  walk fuel components exact struct node st σ = Ret (st', σ') →
  untouched components σ σ'.
Proof.
  induction fuel as [|fuel IH]; intros node st σ st' σ'; [done|].
  cbn [walk]. destruct node as [| | | |l];
    try (intros [-> ->]%mret_Ret; apply untouched_refl).
  destruct (decide (l ∈ st.1));
    [intros [-> ->]%mret_Ret; apply untouched_refl|].
  pose proof (for_each_untouched components (walk fuel components exact struct))
    as Hall.
  intros H. apply bind_Ret in H as (c & σ1 & Hc & H). apply read_Ret in Hc as [-> Hc].
  destruct (decide (l ∈ components)) as [Hin|Hnin].
  { destruct c; [|apply mret_Ret in H as [-> ->]; apply untouched_refl].
    eapply Hall; [|exact H]. intros; by eapply IH. }
  destruct c as [props|items]; [|eapply Hall; [|exact H]; intros; by eapply IH].
  apply bind_Ret in H as (st1 & σ1 & H1 & H).
  assert (K1 : untouched components σ σ1)
    by (eapply Hall; [|exact H1]; intros; by eapply IH).
  apply bind_Ret in H as (obj & σ2 & Ho & H). apply read_Ret in Ho as [-> Ho].
  destruct (truthy_opt _); [by apply mret_Ret in H as [-> ->]|].
  destruct (negb _); [by apply mret_Ret in H as [-> ->]|].
  apply bind_Ret in H as (e & σ2 & He & H). apply canonical_of_Ret in He as [-> _].
  apply bind_Ret in H as (m & σ2 & Hm & H).
  assert (σ2 = σ1) as ->.
  { destruct (nonempty _); [by apply mret_Ret in Hm as [_ ->]|].
    apply bind_Ret in Hm as (s & σ3 & Hs & Hm). apply structural_of_Ret in Hs as ->.
    by apply mret_Ret in Hm as [_ ->]. }
  destruct m as [name|]; [|by apply mret_Ret in H as [-> ->]].
  apply bind_Ret in H as (u & σ3 & Hw & H). apply write_Ret in Hw as ->.
  apply mret_Ret in H as [-> ->].
  eapply untouched_trans; [exact K1|]. by apply untouched_write.
Qed.

(** X13: a pass of [freshSignatureDedup] does not mutate the component
    schemas themselves and creates no object: after a pass that returns,
    every top-level value of [schemas] is as it was before the pass. *)
Theorem freshSignatureDedup_components fuel bundled schemas σ sch n σ' :
  cells σ !! schemas = Some sch →
  freshSignatureDedup fuel bundled schemas σ = Ret (n, σ') →
  untouched (refs_of (cell_values sch)) σ σ'.
Proof.
  intros Hsch H. unfold freshSignatureDedup in H.
  rewrite (bind_eq _ _ _ _ _ (read_eq _ _ _ Hsch)) in H.
  apply bind_Ret in H as ([exact struct] & σ1 & Hm & H).
  apply signature_maps_pure in Hm as ->.
  apply bind_Ret in H as (b & σ1 & Hb & H). apply read_Ret in Hb as [-> Hb].
  destruct (cell_get b "paths") as [[| | | |p]|];
    try (apply mret_Ret in H as [_ ->]; apply untouched_refl).
  apply bind_Ret in H as (st & σ1 & Hw & H). apply mret_Ret in H as [_ ->].
  by eapply walk_untouched.
Qed.

Lemma freshSignatureDedup_components_witness :
  untouched (refs_of [VRef 9; VRef 10; VRef 11; VRef 12])
    Samples.override_ready Samples.override_deduped.2.
Proof.
  apply (freshSignatureDedup_components 50 15 13 Samples.override_ready
           (CObj [("S", VRef 9); ("T", VRef 10); ("Manual", VRef 11);
                  ("Other", VRef 12)])
           Samples.override_deduped.1 Samples.override_deduped.2).
  - vm_compute. reflexivity.
  - vm_compute. reflexivity.
Defined.

(** ** helpers.ts: the walks over a document with shared or cyclic parts *)

Lemma like_count h (visited seen : gset loc) l :
  l ∈ visited → l ∉ seen →
  size (filter (λ l, like_at h l = true) (visited ∖ seen))
  = ((if like_at h l then 1 else 0)
     + size (filter (λ l, like_at h l = true) (visited ∖ ({[l]} ∪ seen))))%nat.
Proof.
  intros Hin Hnin.
  set (P := λ l, like_at h l = true).
  assert (filter P (visited ∖ seen)
          = filter P {[l]} ∪ filter P (visited ∖ ({[l]} ∪ seen))) as ->.
  { apply set_eq. intros x. rewrite elem_of_union, !elem_of_filter.
    destruct (decide (x = l)); set_solver. }
  rewrite size_union.
  - f_equal. destruct (like_at h l) eqn:E.
    + replace (filter P {[l]}) with ({[l]} : gset loc); [apply size_singleton|].
      apply set_eq. intros x. rewrite elem_of_filter. unfold P. set_solver.
    + replace (filter P {[l]}) with (∅ : gset loc); [apply size_empty|].
      apply set_eq. intros x. rewrite elem_of_filter. unfold P.
      split; [set_solver|]. intros [Hx ->%elem_of_singleton]. congruence.
  - intros x [_ Hx1]%elem_of_filter [_ Hx2]%elem_of_filter. set_solver.
Qed.

Lemma like_count_none h (seen : gset loc) :
  size (filter (λ l, like_at h l = true) (seen ∖ seen)) = O.
Proof.
  apply size_empty_iff. intros x. rewrite elem_of_filter. set_solver.
Qed.

Lemma find_loop_count fuel h (R : loc → Prop) :
  (∀ l l', R l → edge h l l' → R l') →
  ∀ stack seen c n,
    findPathLocalLikeRefs_loop fuel h stack seen c = Some n →
    (∀ l, VRef l ∈ stack → R l) →
    ∃ visited : gset loc,
      seen ⊆ visited
      ∧ (∀ l, VRef l ∈ stack → l ∈ visited)
      ∧ (∀ l, l ∈ visited → l ∉ seen →
           R l ∧ ∀ l', edge h l l' → l' ∈ visited)
      ∧ n = (c + size (filter (λ l, like_at h l = true) (visited ∖ seen)))%nat.
Proof.
  intros HR. induction fuel as [|fuel IH]; intros stack seen c n H Hstack.
  - destruct stack; [|done]. injection H as <-. exists seen.
    split; [done|]. split; [by intros l ?%elem_of_nil|]. split; [done|].
    rewrite like_count_none. lia.
  - destruct stack as [|node stack'].
    { injection H as <-. exists seen.
      split; [done|]. split; [by intros l ?%elem_of_nil|]. split; [done|].
      rewrite like_count_none. lia. }
    cbn [findPathLocalLikeRefs_loop] in H.
    assert (Hskip : (∀ l, node = VRef l → l ∈ seen) →
      findPathLocalLikeRefs_loop fuel h stack' seen c = Some n →
      ∃ visited : gset loc,
        seen ⊆ visited ∧ (∀ l, VRef l ∈ node :: stack' → l ∈ visited)
        ∧ (∀ l, l ∈ visited → l ∉ seen → R l ∧ ∀ l', edge h l l' → l' ∈ visited)
        ∧ n = (c + size (filter (λ l, like_at h l = true) (visited ∖ seen)))%nat).
    { intros Hnode H'. apply IH in H' as (visited & Hsub & Hst & Hcl & Hn).
      - exists visited. split; [done|]. split; [|done].
        intros l [Heq|Hl]%elem_of_cons; [|by apply Hst]. by apply Hsub, Hnode.
      - intros l Hl. apply Hstack. by apply list_elem_of_further. }
    destruct node as [| | | |l]; try (by apply Hskip).
    destruct (decide (l ∈ seen)) as [Hin|Hnin]; [apply Hskip; [by intros ? [= <-]|done]|].
    clear Hskip.
    assert (HRl : R l) by apply Hstack, list_elem_of_here.
    destruct (h !! l) as [cl|] eqn:Hl; [|done].
    assert (∃ c', findPathLocalLikeRefs_loop fuel h
                    (push_all (cell_values cl) stack') ({[l]} ∪ seen) c' = Some n
                  ∧ c' = (c + (if like_at h l then 1 else 0))%nat)
      as (c' & H' & Hc').
    { unfold like_at. rewrite Hl. destruct cl as [props|items].
      - eexists. split; [exact H|].
        destruct (string_prop (CObj props) "$ref") as [r|]; [|lia].
        destruct (is_path_local_like r); lia.
      - eexists. split; [exact H|]. lia. }
    apply IH in H' as (visited & Hsub & Hst & Hcl & Hn).
    + assert (Hlv : l ∈ visited) by set_solver.
      exists visited. split; [set_solver|]. split; [|split].
      * intros l0 [[= ->]|Hl0]%elem_of_cons; [done|].
        apply Hst, elem_of_push_all. by right.
      * intros l0 Hl0 Hn0. destruct (decide (l0 = l)) as [->|Hne].
        -- split; [done|]. intros l' (c0 & Hc0 & Hv). rewrite Hl in Hc0.
           injection Hc0 as <-. apply Hst, elem_of_push_all. by left.
        -- apply Hcl; [done|]. set_solver.
      * rewrite (like_count h visited seen l) by done. lia.
    + intros l0 [Hl0|Hl0]%elem_of_push_all.
      * apply (HR l); [done|]. by exists cl.
      * apply Hstack. by apply list_elem_of_further.
Qed.

(** X14: [findPathLocalLikeRefs] counts every object with a path-local
    $like [$ref] once, however many ways lead to it and whether or not
    the document has cycles: a count that is returned is the number of the
    objects reachable from the root, through the values of objects and the
    items of arrays, that carry such a reference. *)
Theorem findPathLocalLikeRefs_counts fuel h root n :
  findPathLocalLikeRefs fuel h (VRef root) = Some n →
  ∃ visited : gset loc,
    (∀ l, l ∈ visited ↔ rtc (edge h) root l)
    ∧ n = size (filter (λ l, like_at h l = true) visited).
Proof.
  intros H.
  apply (find_loop_count fuel h (rtc (edge h) root)) in H
    as (visited & _ & Hst & Hcl & Hn).
  - exists visited. split.
    + intros l. split.
      * intros Hl. apply Hcl; [done|]. apply not_elem_of_empty.
      * revert l. apply (rtc_ind_r (λ l, l ∈ visited)).
        -- apply Hst, list_elem_of_here.
        -- intros y z _ Hyz IH.
           destruct (Hcl y IH) as [_ Hy]; [apply not_elem_of_empty|]. by apply Hy.
    + rewrite Hn. by replace (visited ∖ ∅) with visited by set_solver.
  - intros l l' Hl Hll'. by eapply rtc_r.
  - intros l [= ->]%list_elem_of_singleton. done.
Qed.

Lemma findPathLocalLikeRefs_counts_witness :
  ∃ visited : gset loc,
    (∀ l, l ∈ visited ↔ rtc (edge (cells Samples.like_store)) 5 l)
    ∧ 1%nat = size (filter (λ l, like_at (cells Samples.like_store) l = true)
                      visited).
Proof.
  apply (findPathLocalLikeRefs_counts 50 (cells Samples.like_store) 5 1).
  vm_compute. reflexivity.
Defined.

Lemma values_update_ref k s r x (o : list (string * val)) :
  Obj.get k o = Some (VStr r) →
  VRef x ∈ Obj.values (Obj.update k (VStr s) o) ↔ VRef x ∈ Obj.values o.
Proof.
  induction o as [|[k0 v0] o IH]; [done|].
  rewrite get_cons. cbn [Obj.update]. rewrite eqb_eq_dec.
  destruct (decide (k = k0)) as [->|Hne].
  - intros [= ->]. rewrite bool_decide_eq_true_2 by done.
    unfold Obj.values. cbn [map snd]. rewrite !elem_of_cons.
    split; (intros [?|?]; [done|by right]).
  - intros H. rewrite bool_decide_eq_false_2 by done.
    unfold Obj.values in *. cbn [map snd]. rewrite !elem_of_cons, IH by done. done.
Qed.

Lemma values_normalized c x :
  VRef x ∈ cell_values (normalized c) ↔ VRef x ∈ cell_values c.
Proof.
  destruct c as [props|items]; [|done]. unfold normalized.
  destruct (string_prop (CObj props) "$ref") as [r|] eqn:E; [|done].
  unfold string_prop, cell_get in E.
  destruct (Obj.get "$ref" props) as [[| | |r'|]|] eqn:G; try done.
  cbn [set_prop cell_values]. unfold Obj.set, Obj.define, Obj.has. rewrite G.
  cbn [negb andb]. by apply values_update_ref with (r := r').
Qed.

(** the state of the walk of [rewriteInternalRefs] against the store [σ0]
    it started from: the visited objects normalized, the others as they
    were *)
Lemma rewrite_loop_spec σ0 (R : loc → Prop) :
  (∀ l l', R l → edge (cells σ0) l l' → R l') →
  ∀ fuel stack seen σ σ',
    rewriteInternalRefs_loop fuel stack seen σ = Ret (tt, σ') →
    next σ = next σ0 →
    (∀ l, l ∈ seen → ∃ c, cells σ0 !! l = Some c ∧ cells σ !! l = Some (normalized c)) →
    (∀ l, l ∉ seen → cells σ !! l = cells σ0 !! l) →
    (∀ l, VRef l ∈ stack → R l) →
    ∃ visited : gset loc,
      seen ⊆ visited
      ∧ (∀ l, VRef l ∈ stack → l ∈ visited)
      ∧ next σ' = next σ0
      ∧ (∀ l, l ∈ visited →
           ∃ c, cells σ0 !! l = Some c ∧ cells σ' !! l = Some (normalized c))
      ∧ (∀ l, l ∉ visited → cells σ' !! l = cells σ0 !! l)
      ∧ (∀ l, l ∈ visited → l ∉ seen →
           R l ∧ ∀ l', edge (cells σ0) l l' → l' ∈ visited).
Proof.
  intros HR. induction fuel as [|fuel IH];
    intros stack seen σ σ' H Hnext Hseen Hrest Hstack.
  - destruct stack; [|done]. apply mret_Ret in H as [_ ->].
    exists seen. repeat split; try done. by intros l ?%elem_of_nil.
  - destruct stack as [|node stack'].
    { apply mret_Ret in H as [_ ->].
      exists seen. repeat split; try done. by intros l ?%elem_of_nil. }
    cbn [rewriteInternalRefs_loop] in H.
    assert (Hskip : (∀ l, node = VRef l → l ∈ seen) →
      rewriteInternalRefs_loop fuel stack' seen σ = Ret (tt, σ') →
      ∃ visited : gset loc,
        seen ⊆ visited ∧ (∀ l, VRef l ∈ node :: stack' → l ∈ visited)
        ∧ next σ' = next σ0
        ∧ (∀ l, l ∈ visited →
             ∃ c, cells σ0 !! l = Some c ∧ cells σ' !! l = Some (normalized c))
        ∧ (∀ l, l ∉ visited → cells σ' !! l = cells σ0 !! l)
        ∧ (∀ l, l ∈ visited → l ∉ seen →
             R l ∧ ∀ l', edge (cells σ0) l l' → l' ∈ visited)).
    { intros Hnode H'.
      apply IH in H' as (visited & Hsub & Hst & Hn & Hv & Hnv & Hcl); try done.
      - exists visited. split; [done|]. split; [|done].
        intros l [Heq|Hl]%elem_of_cons; [|by apply Hst]. by apply Hsub, Hnode.
      - intros l Hl. apply Hstack. by apply list_elem_of_further. }
    destruct node as [| | | |l]; try (by apply Hskip).
    destruct (decide (l ∈ seen)) as [Hin|Hnin]; [apply Hskip; [by intros ? [= <-]|done]|].
    clear Hskip.
    assert (HRl : R l) by apply Hstack, list_elem_of_here.
    apply bind_Ret in H as (c & σ1 & Hc & H). apply read_Ret in Hc as [-> Hc].
    assert (Hc0 : cells σ0 !! l = Some c) by (by rewrite <- Hrest).
    assert (∃ σ1, rewriteInternalRefs_loop fuel
                    (push_all (cell_values (normalized c)) stack') ({[l]} ∪ seen) σ1
                  = Ret (tt, σ')
                  ∧ next σ1 = next σ
                  ∧ cells σ1 = <[l := normalized c]> (cells σ))
      as (σ1 & H' & Hn1 & Hc1).
    { destruct c as [props|items].
      - apply bind_Ret in H as (u & σ1 & Hw & H). apply write_Ret in Hw as ->.
        eexists. split; [exact H|]. done.
      - exists σ. split; [exact H|]. split; [done|].
        by rewrite insert_id. }
    apply IH in H' as (visited & Hsub & Hst & Hn & Hv & Hnv & Hcl).
    + assert (Hlv : l ∈ visited) by set_solver.
      exists visited. split; [set_solver|]. split; [|split; [done|split; [done|split; [done|]]]].
      * intros l0 [[= ->]|Hl0]%elem_of_cons; [done|].
        apply Hst, elem_of_push_all. by right.
      * intros l0 Hl0 Hn0. destruct (decide (l0 = l)) as [->|Hne].
        -- split; [done|]. intros l' (c0 & Hc0' & Hval). rewrite Hc0 in Hc0'.
           injection Hc0' as <-. apply Hst, elem_of_push_all. left.
           by apply values_normalized.
        -- apply Hcl; [done|]. set_solver.
    + congruence.
    + intros l0 [->%elem_of_singleton|Hl0]%elem_of_union.
      * exists c. split; [done|]. rewrite Hc1. apply lookup_insert_eq.
      * destruct (Hseen l0 Hl0) as (c0 & E0 & E1). exists c0. split; [done|].
        rewrite Hc1, lookup_insert_ne; [done|]. by intros ->.
    + intros l0 Hl0. rewrite Hc1, lookup_insert_ne by set_solver.
      apply Hrest. set_solver.
    + intros l0 [Hl0|Hl0]%elem_of_push_all.
      * apply (HR l); [done|]. exists c. split; [done|]. by apply values_normalized.
      * apply Hstack. by apply list_elem_of_further.
Qed.

(** X15: what [rewriteInternalRefs] does to a document, shared or cyclic
    parts included.  A run that returns has created nothing; every object
    reachable from the root has its [$ref], when that is a string, replaced
    by [normalizeInternalRef] of it, once, and is otherwise as it was; what
    is not reachable is as it was. *)
Theorem rewriteInternalRefs_normalizes fuel root σ σ' :
  rewriteInternalRefs fuel (VRef root) σ = Ret (tt, σ') →
  next σ' = next σ
  ∧ ∃ visited : gset loc,
      (∀ l, l ∈ visited ↔ rtc (edge (cells σ)) root l)
      ∧ (∀ l, l ∈ visited →
           ∃ c, cells σ !! l = Some c ∧ cells σ' !! l = Some (normalized c))
      ∧ (∀ l, l ∉ visited → cells σ' !! l = cells σ !! l).
Proof.
  intros H.
  apply (rewrite_loop_spec σ (rtc (edge (cells σ)) root)) in H
    as (visited & _ & Hst & Hn & Hv & Hnv & Hcl); try done.
  - split; [done|]. exists visited. split; [|done].
    intros l. split.
    + intros Hl. apply Hcl; [done|]. apply not_elem_of_empty.
    + revert l. apply (rtc_ind_r (λ l, l ∈ visited)).
      * apply Hst, list_elem_of_here.
      * intros y z _ Hyz IH.
        destruct (Hcl y IH) as [_ Hy]; [apply not_elem_of_empty|]. by apply Hy.
  - intros l l' Hl Hll'. by eapply rtc_r.
  - intros l [= ->]%list_elem_of_singleton. done.
Qed.

Lemma rewriteInternalRefs_normalizes_witness :
  next Samples.encoded_rewritten = next Samples.encoded_store
  ∧ ∃ visited : gset loc,
      (∀ l, l ∈ visited ↔ rtc (edge (cells Samples.encoded_store)) 2 l)
      ∧ (∀ l, l ∈ visited →
           ∃ c, cells Samples.encoded_store !! l = Some c
                ∧ cells Samples.encoded_rewritten !! l = Some (normalized c))
      ∧ (∀ l, l ∉ visited →
           cells Samples.encoded_rewritten !! l = cells Samples.encoded_store !! l).
Proof.
  apply (rewriteInternalRefs_normalizes 50 2 Samples.encoded_store
           Samples.encoded_rewritten).
  vm_compute. reflexivity.
Defined.

Lemma stripMetadata_strips_witness :
  Obj.get "description" [("type", JStr "string")] = None
  ∧ Obj.get "title" [("type", JStr "string")] = None.
Proof.
  apply (stripMetadata_strips (Samples.described "a")). apply list_elem_of_here.
Defined.

(** ** helpers.ts: references into other files *)

Lemma startsWith_head s c p :
  Str.includes s c = false → Str.startsWith s (String c p) = false.
Proof.
  destruct s as [|d s]; [done|]. cbn [Str.includes Str.startsWith].
  by destruct (Ascii.eqb c d).
Qed.

Lemma after_last_none t : ∀ acc,
  Str.includes t "#" = false → after_last COMPONENT_PREFIX t acc = acc.
Proof.
  induction t as [|c t IH]; intros acc H; [done|].
  cbn [after_last]. unfold COMPONENT_PREFIX at 1.
  rewrite startsWith_head by done. apply IH.
  cbn [Str.includes] in H. by destruct (Ascii.eqb "#" c).
Qed.

Lemma startsWith_app p s : Str.startsWith (p ++ s) p = true.
Proof.
  induction p as [|c p IH]; [done|].
  change (Str.startsWith (String c (p ++ s)) (String c p) = true).
  cbn [Str.startsWith]. by rewrite Ascii.eqb_refl.
Qed.

Lemma after_last_prefix name acc :
  Str.includes name "#" = false →
  after_last COMPONENT_PREFIX (COMPONENT_PREFIX ++ name) acc = name.
Proof.
  intros H. unfold COMPONENT_PREFIX at 2.
  change ("#/components/schemas/" ++ name)
    with (String "#" ("/components/schemas/" ++ name)).
  cbn [after_last].
  change (String "#" ("/components/schemas/" ++ name))
    with (COMPONENT_PREFIX ++ name).
  rewrite startsWith_app.
  replace (Str.slice (String.length COMPONENT_PREFIX) (COMPONENT_PREFIX ++ name))
    with name by (symmetry; apply slice_app).
  apply after_last_none. by rewrite includes_app.
Qed.

Lemma after_last_app file rest : ∀ acc,
  ∃ acc', after_last COMPONENT_PREFIX (file ++ rest) acc
          = after_last COMPONENT_PREFIX rest acc'.
Proof.
  induction file as [|c file IH]; intros acc; [by exists acc|].
  change (String c file ++ rest) with (String c (file ++ rest)).
  cbn [after_last]. destruct (Str.startsWith _ _); apply IH.
Qed.

Lemma includesStr_app_l a b p :
  Str.includesStr a p = true → Str.includesStr (a ++ b) p = true.
Proof.
  assert (Hs : ∀ p a, Str.startsWith a p = true → Str.startsWith (a ++ b) p = true).
  { clear. induction p as [|c p IH]; intros a H; [done|].
    destruct a as [|d a]; [done|].
    change (Str.startsWith (String d (a ++ b)) (String c p) = true).
    cbn [Str.startsWith] in *. destruct (Ascii.eqb c d); [by apply IH|done]. }
  induction a as [|d a IH].
  - destruct p as [|c p]; [intros _; by destruct b|done].
  - cbn [Str.includesStr]. destruct (Str.startsWith (String d a) p) eqn:E.
    + intros _. change (String d a ++ b) with (String d (a ++ b)).
      apply (Hs p (String d a)) in E.
      change (String d a ++ b) with (String d (a ++ b)) in E.
      cbn [Str.includesStr]. by rewrite E.
    + intros H. change (String d a ++ b) with (String d (a ++ b)).
      cbn [Str.includesStr]. rewrite IH by done. by case_match.
Qed.

Lemma includesStr_app_r a b p :
  Str.includesStr b p = true → Str.includesStr (a ++ b) p = true.
Proof.
  intros H. induction a as [|d a IH]; [done|].
  change (String d a ++ b) with (String d (a ++ b)).
  cbn [Str.includesStr]. rewrite IH. by case_match.
Qed.

Lemma includesStr_startsWith s p :
  Str.startsWith s p = true → Str.includesStr s p = true.
Proof. intros H. destruct s; cbn [Str.includesStr]; by rewrite H. Qed.

(** X16: a reference into a YAML file becomes the local reference to the
    schema it names: for [file#/components/schemas/name], with [.yaml] or
    [.yml] in the file part and a name that is not empty and has no [#],
    the rewritten reference is [#/components/schemas/name], whatever the
    file part is. *)
Theorem external_to_local_names file name :
  Str.includesStr file ".yaml" || Str.includesStr file ".yml" = true →
  name ≠ EmptyString →
  Str.includes name "#" = false →
  external_to_local (file ++ COMPONENT_PREFIX ++ name)
  = Some (COMPONENT_PREFIX ++ name).
Proof.
  intros Hfile Hname Hhash. unfold external_to_local.
  assert (Str.includesStr (file ++ COMPONENT_PREFIX ++ name) COMPONENT_PREFIX = true)
    as ->.
  { apply includesStr_app_r, includesStr_startsWith, startsWith_app. }
  assert (Str.includesStr (file ++ COMPONENT_PREFIX ++ name) ".yaml"
          || Str.includesStr (file ++ COMPONENT_PREFIX ++ name) ".yml" = true) as ->.
  { apply orb_true_iff in Hfile as [H|H];
      apply (includesStr_app_l _ (COMPONENT_PREFIX ++ name)) in H; rewrite H;
      [done|apply orb_true_r]. }
  cbn [andb].
  destruct (after_last_app file (COMPONENT_PREFIX ++ name)
              (file ++ COMPONENT_PREFIX ++ name)) as [acc' ->].
  rewrite after_last_prefix by done.
  destruct (String.eqb_spec name EmptyString); done.
Qed.

Lemma external_to_local_names_witness :
  external_to_local "./search-models.yaml#/components/schemas/SearchQueryRequest"
  = Some "#/components/schemas/SearchQueryRequest".
Proof.
  apply (external_to_local_names "./search-models.yaml" "SearchQueryRequest");
    [reflexivity|discriminate|reflexivity].
Defined.

(** ** cli.ts: the command line *)

Lemma parseArgs_from_flag f args rest :
  Cli.parseArgs_from args (flag_word f :: rest)
  = Cli.parseArgs_from (set_flag f args) rest.
Proof. by destruct f. Qed.

Lemma parseArgs_from_valued o v args rest :
  Cli.parseArgs_from args (valued_word o :: v :: rest)
  = Cli.parseArgs_from (set_valued o (Some v) args) rest.
Proof. by destruct o. Qed.

Lemma parseArgs_from_last o args :
  Cli.parseArgs_from args [valued_word o] = Returns (set_valued o None args).
Proof. by destruct o. Qed.

Lemma parseArgs_from_options opts : ∀ args rest,
  Cli.parseArgs_from args (command_line opts ++ rest)
  = Cli.parseArgs_from (foldl set_option args opts) rest.
Proof.
  induction opts as [|o opts IH]; intros args rest; [done|].
  unfold command_line in *. rewrite fmap_cons, concat_cons, <- app_assoc.
  destruct o as [f|o v]; cbn [words app foldl set_option].
  - by rewrite parseArgs_from_flag, IH.
  - by rewrite parseArgs_from_valued, IH.
Qed.

Lemma parseArgs_from_unknown a args rest :
  a ∉ known_words →
  Cli.parseArgs_from args (a :: rest) = Exits 1 ("Unknown option: " +:+ a).
Proof.
  intros Ha. cbn [Cli.parseArgs_from].
  repeat match goal with
  | |- context [String.eqb a ?w] =>
      destruct (String.eqb_spec a w) as [->|_];
      [exfalso; apply Ha; unfold known_words; set_solver|]
  end.
  done.
Qed.

(** X17: the command line is read from its third word on, one option after
    the other from left to right: a flag sets its field, an option with a
    value takes the next word as it is, whatever the word looks like, and
    a later option overrides an earlier one of the same field; an option
    with a value that ends the command line leaves its field undefined,
    also when an earlier option had set it. *)
Theorem parseArgs_reads_options node script opts :
  Cli.parseArgs (node :: script :: command_line opts)
  = Returns (foldl set_option Cli.initial opts)
  ∧ ∀ o,
      Cli.parseArgs (node :: script :: command_line opts ++ [valued_word o])
      = Returns (set_valued o None (foldl set_option Cli.initial opts)).
Proof.
  unfold Cli.parseArgs. change (drop 2 (node :: script :: ?l)) with l. split.
  - rewrite <- (app_nil_r (command_line opts)).
    by rewrite parseArgs_from_options.
  - intros o. by rewrite parseArgs_from_options, parseArgs_from_last.
Qed.

(** X18: the first word in the place of an option that [parseArgs] does
    not know ends the process with code 1 and the message
    [Unknown option: <word>]; what follows it is not looked at. *)
Theorem parseArgs_unknown_option node script opts a rest :
  a ∉ known_words →
  Cli.parseArgs (node :: script :: command_line opts ++ a :: rest)
  = Exits 1 ("Unknown option: " +:+ a).
Proof.
  intros Ha. unfold Cli.parseArgs. change (drop 2 (node :: script :: ?l)) with l.
  by rewrite parseArgs_from_options, parseArgs_from_unknown.
Qed.

Lemma parseArgs_unknown_option_witness :
  Cli.parseArgs ["node"; "cli.js"; "--ref"; "--bogus"; "--bogus"; "--help"]
  = Exits 1 "Unknown option: --bogus".
Proof.
  apply (parseArgs_unknown_option "node" "cli.js" [Valued ORef "--bogus"]
           "--bogus" ["--help"]).
  apply (bool_decide_unpack _). by vm_compute.
Defined.

Lemma foldl_set_fetch opts : ∀ args b,
  ∃ b', foldl set_option (Cli.set_fetch b args) opts
        = Cli.set_fetch b' (foldl set_option args opts).
Proof.
  induction opts as [|o opts IH]; intros args b; [by exists b|].
  cbn [foldl].
  assert (∃ b', set_option (Cli.set_fetch b args) o
                = Cli.set_fetch b' (set_option args o)) as [b' ->].
  { destruct o as [[]|[] v]; first [by exists b | by exists true]. }
  apply IH.
Qed.

(** X19: [--fetch] changes nothing of what [main] does: with or without
    it, anywhere among the options, the same help, the same bundle of a
    local directory or the same fetch followed by the same bundle. *)
Theorem fetch_flag_has_no_effect node script before after :
  Cli.main (node :: script :: command_line (before ++ Flag OFetch :: after))
  = Cli.main (node :: script :: command_line (before ++ after)).
Proof.
  unfold Cli.main, Cli.parseArgs.
  change (drop 2 (node :: script :: ?l)) with l.
  rewrite <- (app_nil_r (command_line (before ++ _ :: after))).
  rewrite <- (app_nil_r (command_line (before ++ after))).
  rewrite !parseArgs_from_options. cbn [Cli.parseArgs_from].
  rewrite !foldl_app. cbn [foldl set_option set_flag].
  destruct (foldl_set_fetch after (foldl set_option Cli.initial before) true)
    as [b' ->].
  done.
Qed.

(** ** fetch.ts: the temporary clone and the output directory *)

Lemma try_finally_clean_up {A} w (body : Sys.IO A) tmp h h' r :
  Sys.try_finally body (Fetch.clean_up w tmp) h = (h', r) →
  cleaned w tmp h'.
Proof.
  unfold Sys.try_finally, Fetch.clean_up, mbind, Sys.IO_bind, Sys.existsSync.
  destruct (body h) as [h1 r1].
  destruct (Sys.exists_now w h1 tmp) eqn:E.
  - unfold Sys.rmSync, Sys.effect.
    destruct (Sys.raised w _ _); intros [= <- <-]; exists h1; by right.
  - cbn. intros [= <- <-]. exists h1; by left.
Qed.

(** X20: a fetch that is not skipped always ends with the temporary clone
    looked for and, if it is there, removed: also when the clone, a git
    command, the check of the entry file or the copy fails. *)
Theorem fetchSpec_cleans_up w options h h' r :
  skipped w options h = false →
  Fetch.fetchSpec w options h = (h', r) →
  ∃ now, cleaned w (Fetch.tmp_dir w (Sys.path_resolve w [Fetch.outputDir options]) now) h'.
Proof.
  unfold skipped, Fetch.fetchSpec. intros Hskip.
  unfold mbind at 1. unfold Sys.IO_bind at 1.
  destruct (default false (Fetch.skipIfExists options)); cbn [andb] in Hskip.
  - unfold Sys.existsSync at 1. rewrite Hskip.
    unfold mbind, Sys.IO_bind at 1, Sys.Date_now.
    intros H. eexists. by eapply try_finally_clean_up.
  - cbn [mret Sys.IO_ret].
    unfold mbind, Sys.IO_bind at 1, Sys.Date_now.
    intros H. eexists. by eapply try_finally_clean_up.
Qed.

Lemma made_cons c k x h :
  made c k (x :: h) → (c = x ∧ k = h) ∨ made c k h.
Proof.
  unfold made. intros H. apply suffix_cons_inv in H as [[= -> ->]|H]; auto.
Qed.

Lemma made_old c k h : made c k h → h `suffix_of` k → False.
Proof.
  unfold made. intros H1 H2.
  apply suffix_length in H1, H2. cbn [length] in H1. lia.
Qed.

Ltac made_cases H :=
  repeat (apply made_cons in H as [[-> ->]|H]).

Lemma clone_and_copy_changes w repoUrl ref specDir entryFile out entryPath tmp
    h h1 r c k :
  tmp ≠ out →
  Fetch.clone_and_copy w repoUrl ref specDir entryFile out entryPath tmp h
    = (h1, r) →
  made c k h1 → changes out c →
  made c k h ∨
  ∃ k', made (Sys.ExistsSync
                (Sys.path_resolve w [Sys.path_resolve w [tmp; specDir]; entryFile]))
          k' k
        ∧ h `suffix_of` k'
        ∧ Sys.exists_now w k'
            (Sys.path_resolve w [Sys.path_resolve w [tmp; specDir]; entryFile])
          = true.
Proof.
  intros Htmp Hrun Hmade Hc.
  unfold Fetch.clone_and_copy, Fetch.run, mbind, Sys.IO_bind, Sys.mkdirSync,
    Sys.execFileSync, Sys.existsSync, Sys.rmSync, Sys.cpSync, Sys.effect,
    Sys.throw, mret, Sys.IO_ret in Hrun.
  repeat (cbv beta iota in Hrun; cbn [negb] in Hrun;
    match type of Hrun with
    | context [Sys.raised w ?a ?b] => destruct (Sys.raised w a b)
    | context [Sys.exists_now w ?a ?b] =>
        let E := fresh "E" in destruct (Sys.exists_now w a b) eqn:E
    end).
  all: cbv beta iota in Hrun; cbn [negb] in Hrun; injection Hrun as <- <-.
  all: made_cases Hmade; try (by left).
  all: try (destruct Hc as [Hc|[Hc|[? Hc]]]; congruence).
  all: try (right; eexists; split_and!; [| |eassumption];
            [unfold made; solve_suffix|solve_suffix]).
Qed.

(** X21: a fetch changes the output directory only after it has found the
    entry file in the clone: when the clone or a git command fails, or the
    entry file is missing upstream, nothing is removed from the output
    directory and nothing is copied into it. *)
Theorem fetchSpec_checks_before_replacing w options h h' r c k :
  let out := Sys.path_resolve w [Fetch.outputDir options] in
  (∀ now, Fetch.tmp_dir w out now ≠ out) →
  Fetch.fetchSpec w options h = (h', r) →
  made c k h' → h `suffix_of` k → changes out c →
  ∃ now k',
    let entry :=
      Sys.path_resolve w
        [Sys.path_resolve w
           [Fetch.tmp_dir w out now;
            default Fetch.DEFAULT_SPEC_DIR (Fetch.specDir options)];
         default Fetch.DEFAULT_ENTRY_FILE (Fetch.entryFile options)] in
    made (Sys.ExistsSync entry) k' k ∧ h `suffix_of` k'
    ∧ Sys.exists_now w k' entry = true.
Proof.
  intros out Htmp Hrun Hmade Hold Hc. unfold Fetch.fetchSpec in Hrun.
  fold out in Hrun.
  set (entryPath := Sys.path_join w _) in Hrun.
  unfold mbind at 1 in Hrun. unfold Sys.IO_bind at 1 in Hrun.
  assert (Hnot : ∀ p, ¬ changes out (Sys.ExistsSync p)).
  { by intros p [?|[?|[? ?]]]. }
  assert (Hbody : ∀ h0 now, h `suffix_of` h0 →
       Sys.try_finally
         (Fetch.clone_and_copy w
            (default Fetch.DEFAULT_REPO_URL (Fetch.repoUrl options))
            (default Fetch.DEFAULT_REF (Fetch.ref options))
            (default Fetch.DEFAULT_SPEC_DIR (Fetch.specDir options))
            (default Fetch.DEFAULT_ENTRY_FILE (Fetch.entryFile options))
            out entryPath (Fetch.tmp_dir w out now))
         (Fetch.clean_up w (Fetch.tmp_dir w out now)) (Sys.DateNow :: h0)
       = (h', r) →
    (made c k h0 → False) →
    ∃ now k',
      let entry :=
        Sys.path_resolve w
          [Sys.path_resolve w
             [Fetch.tmp_dir w out now;
              default Fetch.DEFAULT_SPEC_DIR (Fetch.specDir options)];
           default Fetch.DEFAULT_ENTRY_FILE (Fetch.entryFile options)] in
      made (Sys.ExistsSync entry) k' k ∧ h `suffix_of` k'
      ∧ Sys.exists_now w k' entry = true).
  { intros h0 now Hh0 H Hold0.
    unfold Sys.try_finally in H.
    destruct (Fetch.clone_and_copy _ _ _ _ _ _ _ _ _) as [h1 r1] eqn:Eb.
    assert (Hin : made c k h1 →
      ∃ now k',
        let entry :=
          Sys.path_resolve w
            [Sys.path_resolve w
               [Fetch.tmp_dir w out now;
                default Fetch.DEFAULT_SPEC_DIR (Fetch.specDir options)];
             default Fetch.DEFAULT_ENTRY_FILE (Fetch.entryFile options)] in
        made (Sys.ExistsSync entry) k' k ∧ h `suffix_of` k'
        ∧ Sys.exists_now w k' entry = true).
    { intros Hm.
      destruct (clone_and_copy_changes _ _ _ _ _ _ _ _ _ _ _ _ _
                  (Htmp now) Eb Hm Hc) as [Hm'|(k' & ? & ? & ?)].
      - apply made_cons in Hm' as [[-> ->]|Hm']; [|by destruct Hold0].
        by destruct Hc as [?|[?|[? ?]]].
      - exists now, k'. split_and!; [done| |done].
        etrans; [apply Hh0|]. by apply suffix_cons_l with Sys.DateNow. }
    unfold Fetch.clean_up, mbind, Sys.IO_bind, Sys.existsSync, Sys.rmSync,
      Sys.effect, mret, Sys.IO_ret in H.
    destruct (Sys.exists_now w h1 _); [destruct (Sys.raised w _ _)|];
      injection H as <- <-; made_cases Hmade; auto.
    all: try (by destruct (Hnot _ Hc)).
    all: destruct Hc as [Hc|[Hc|[? Hc]]]; try done.
    all: injection Hc as Hc; by destruct (Htmp now). }
  destruct (default false (Fetch.skipIfExists options)).
  - unfold Sys.existsSync at 1 in Hrun.
    destruct (Sys.exists_now w h entryPath).
    + injection Hrun as <- <-. apply made_cons in Hmade as [[-> ->]|Hmade].
      * by destruct (Hnot _ Hc).
      * by destruct (made_old _ _ _ Hmade Hold).
    + unfold mbind, Sys.IO_bind at 1, Sys.Date_now in Hrun.
      apply (Hbody _ _ (suffix_cons_r _ _ _ (reflexivity _)) Hrun).
      intros Hm. apply made_cons in Hm as [[-> ->]|Hm].
      * by destruct (Hnot _ Hc).
      * by destruct (made_old _ _ _ Hm Hold).
  - cbn [mret Sys.IO_ret] in Hrun.
    unfold mbind, Sys.IO_bind at 1, Sys.Date_now in Hrun.
    apply (Hbody _ _ (reflexivity _) Hrun).
    intros Hm. by destruct (made_old _ _ _ Hm Hold).
Qed.


Lemma fetchSpec_cleans_up_witness :
  ∃ now,
    cleaned Samples.calm_world
      (Fetch.tmp_dir Samples.calm_world "/work/spec" now)
      (Fetch.fetchSpec Samples.calm_world Samples.fetch_options []).1.
Proof.
  apply (fetchSpec_cleans_up Samples.calm_world Samples.fetch_options []
           _ (Fetch.fetchSpec Samples.calm_world Samples.fetch_options []).2);
    [reflexivity|].
  by destruct (Fetch.fetchSpec _ _ _).
Defined.

Lemma fetchSpec_checks_before_replacing_witness :
  ∃ now k',
    let entry :=
      Sys.path_resolve Samples.calm_world
        [Sys.path_resolve Samples.calm_world
           [Fetch.tmp_dir Samples.calm_world "/work/spec" now;
            Fetch.DEFAULT_SPEC_DIR];
         Fetch.DEFAULT_ENTRY_FILE] in
    made (Sys.ExistsSync entry) k' Samples.fetch_calls ∧ [] `suffix_of` k'
    ∧ Sys.exists_now Samples.calm_world k' entry = true.
Proof.
  apply (fetchSpec_checks_before_replacing Samples.calm_world
           Samples.fetch_options []
           (Fetch.fetchSpec Samples.calm_world Samples.fetch_options []).1
           (Fetch.fetchSpec Samples.calm_world Samples.fetch_options []).2
           (Sys.RmSync "/work/spec") Samples.fetch_calls).
  - intros now. unfold Fetch.tmp_dir. cbn. discriminate.
  - by destruct (Fetch.fetchSpec _ _ _).
  - exists [Sys.RmSync "/work/spec/../.tmp-clone-1700000000000";
            Sys.ExistsSync "/work/spec/../.tmp-clone-1700000000000";
            Sys.CpSync
              "/work/spec/../.tmp-clone-1700000000000/zeebe/gateway-protocol/src/main/proto/v2"
              "/work/spec";
            Sys.MkdirSync "/work/spec"].
    vm_compute. reflexivity.
  - apply suffix_nil.
  - by left.
Defined.

(** ** detect-ref.ts: the upstream ref *)


(** ** metadata.ts: stable ids *)

Lemma hyphenate_step a rest :
  Metadata.hyphenate (String a rest)
  = String a
      (match rest with
       | String b _ =>
           if Metadata.is_lower_or_digit a && Metadata.is_upper b
           then String "-" (Metadata.hyphenate rest)
           else Metadata.hyphenate rest
       | EmptyString => EmptyString
       end).
Proof.
  destruct rest as [|b s']; [done|].
  cbn [Metadata.hyphenate].
  destruct (Metadata.is_lower_or_digit a && Metadata.is_upper b) eqn:E; [|done].
  apply andb_true_iff in E as [_ Hb].
  do 2 f_equal. destruct s' as [|c s'']; [done|].
  assert (Metadata.is_lower_or_digit b = false) as ->; [|done].
  revert Hb. clear. by destruct b as [[] [] [] [] [] [] [] []].
Qed.

Lemma lower_stable c : c ≠ "_"%char → stable_char (Ws.lower c) = true.
Proof. destruct c as [[] [] [] [] [] [] [] []]; by vm_compute. Qed.

Lemma lower_fixed c : Metadata.is_upper c = false → Ws.lower c = c.
Proof. by destruct c as [[] [] [] [] [] [] [] []]. Qed.

Lemma lower_ascii c : (N_of_ascii (Ws.lower c) <? 128)%N = (N_of_ascii c <? 128)%N.
Proof. by destruct c as [[] [] [] [] [] [] [] []]. Qed.

Lemma dashes_no_underscore s :
  Forall (λ c, c ≠ "_"%char) (list_ascii_of_string (Metadata.dashes s)).
Proof.
  induction s as [|c s IH]; cbn [Metadata.dashes list_ascii_of_string]; [done|].
  constructor; [|done]. by destruct (Ascii.eqb_spec c "_").
Qed.

Lemma lower_case_stable s :
  Forall (λ c, c ≠ "_"%char) (list_ascii_of_string s) →
  Forall (λ c, stable_char c = true) (list_ascii_of_string (Metadata.lower_case s)).
Proof.
  induction s as [|c s IH]; cbn [Metadata.lower_case list_ascii_of_string];
    intros H; [done|].
  apply Forall_cons in H as [Hc H]. constructor; [by apply lower_stable|auto].
Qed.

Lemma stable_fixed s :
  Forall (λ c, stable_char c = true) (list_ascii_of_string s) →
  Metadata.lower_case (Metadata.dashes (Metadata.hyphenate s)) = s.
Proof.
  intros H.
  assert (Hh : Metadata.hyphenate s = s).
  { induction s as [|a s IH]; [done|].
    cbn [list_ascii_of_string] in H. apply Forall_cons in H as [Ha H].
    rewrite hyphenate_step, (IH H). destruct s as [|b s]; [done|].
    cbn [list_ascii_of_string] in H. apply Forall_cons in H as [Hb _].
    unfold stable_char in Hb. apply andb_true_iff in Hb as [Hb _].
    apply negb_true_iff in Hb. by rewrite Hb, andb_false_r. }
  rewrite Hh. clear Hh.
  induction s as [|a s IH]; [done|].
  cbn [list_ascii_of_string] in H. apply Forall_cons in H as [Ha H].
  cbn [Metadata.dashes Metadata.lower_case]. rewrite (IH H).
  unfold stable_char in Ha. apply andb_true_iff in Ha as [Hu Hd].
  apply negb_true_iff in Hu, Hd. rewrite Hd. by rewrite lower_fixed.
Qed.

Lemma hyphenate_ascii s :
  Metadata.is_ascii (Metadata.hyphenate s) = Metadata.is_ascii s.
Proof.
  induction s as [|a s IH]; [done|].
  rewrite hyphenate_step. cbn [Metadata.is_ascii]. f_equal.
  destruct s as [|b s]; [done|].
  destruct (_ && _); [|done]. by cbn [Metadata.is_ascii]; rewrite IH.
Qed.

Lemma dashes_ascii s : Metadata.is_ascii (Metadata.dashes s) = Metadata.is_ascii s.
Proof.
  induction s as [|a s IH]; [done|].
  cbn [Metadata.dashes Metadata.is_ascii]. rewrite IH.
  by destruct (Ascii.eqb_spec a "_") as [->|].
Qed.

Lemma lower_case_ascii s :
  Metadata.is_ascii (Metadata.lower_case s) = Metadata.is_ascii s.
Proof.
  induction s as [|a s IH]; [done|].
  cbn [Metadata.lower_case Metadata.is_ascii]. by rewrite IH, lower_ascii.
Qed.

(** X23: a stable id holds no capital letter of ASCII and no underscore,
    and it is its own stable id. *)
Theorem toStableId_stable name id :
  Metadata.toStableId name = Ret id →
  Forall (λ c, stable_char c = true) (list_ascii_of_string id)
  ∧ Metadata.toStableId id = Ret id.
Proof.
  unfold Metadata.toStableId. destruct (Metadata.is_ascii name) eqn:Ha; [|done].
  intros [= <-].
  assert (Hs : Forall (λ c, stable_char c = true)
                 (list_ascii_of_string
                    (Metadata.lower_case (Metadata.dashes (Metadata.hyphenate name))))).
  { apply lower_case_stable, dashes_no_underscore. }
  split; [done|].
  by rewrite lower_case_ascii, dashes_ascii, hyphenate_ascii, Ha, stable_fixed.
Qed.

Lemma toStableId_stable_witness :
  Forall (λ c, stable_char c = true) (list_ascii_of_string "process-instance-key")
  ∧ Metadata.toStableId "process-instance-key" = Ret "process-instance-key".
Proof. apply (toStableId_stable "ProcessInstance_Key"). reflexivity. Defined.

Lemma is_ascii_app a b :
  Metadata.is_ascii (a +:+ b) = Metadata.is_ascii a && Metadata.is_ascii b.
Proof.
  induction a as [|c a IH]; [done|].
  change (String c a +:+ b) with (String c (a +:+ b)).
  cbn [Metadata.is_ascii]. by rewrite IH, andb_assoc.
Qed.

Lemma dashes_hyphenate_separator a b :
  Metadata.dashes (Metadata.hyphenate (a +:+ String "_" b))
  = Metadata.dashes (Metadata.hyphenate (a +:+ String "-" b)).
Proof.
  induction a as [|c a IH].
  - change (EmptyString +:+ ?s) with s. rewrite !hyphenate_step.
    by destruct b.
  - change (String c a +:+ ?s) with (String c (a +:+ s)).
    rewrite !hyphenate_step. cbn [Metadata.dashes]. f_equal.
    destruct a as [|d a].
    + change (EmptyString +:+ ?s) with s in *. cbv beta iota.
      assert (Metadata.is_upper "_" = false) as -> by done.
      assert (Metadata.is_upper "-" = false) as -> by done.
      by rewrite andb_false_r.
    + change (String d a +:+ ?s) with (String d (a +:+ s)) in *. cbv beta iota.
      destruct (_ && _); [|done]. cbn [Metadata.dashes]. by rewrite IH.
Qed.

Lemma hyphenate_camel a l u b :
  Metadata.is_lower_or_digit l = true → Metadata.is_upper u = true →
  Metadata.hyphenate (a +:+ String l (String u b))
  = Metadata.hyphenate (a +:+ String l (String "-" (String u b))).
Proof.
  intros Hl Hu.
  induction a as [|c a IH].
  - change (EmptyString +:+ ?s) with s.
    rewrite (hyphenate_step l (String u b)), (hyphenate_step l (String "-" _)).
    cbv beta iota. rewrite Hl, Hu. cbn [andb]. by f_equal.
  - change (String c a +:+ ?s) with (String c (a +:+ s)).
    rewrite !hyphenate_step. f_equal.
    destruct a as [|d a].
    + change (EmptyString +:+ ?s) with s in *. by rewrite IH.
    + change (String d a +:+ ?s) with (String d (a +:+ s)) in *. by rewrite IH.
Qed.

(** X24: stable ids do not tell apart the ways of writing a name: a name
    with [_] and the same name with [-] in its place have the same stable
    id, and so have a name in camel case (a small letter or a digit, then
    a capital letter) and the same name with [-] before the capital
    letter. *)
Theorem toStableId_collides a b l u :
  Metadata.is_lower_or_digit l = true → Metadata.is_upper u = true →
  Metadata.toStableId (a +:+ String "_" b)
  = Metadata.toStableId (a +:+ String "-" b)
  ∧ Metadata.toStableId (a +:+ String l (String u b))
    = Metadata.toStableId (a +:+ String l (String "-" (String u b))).
Proof.
  intros Hl Hu. unfold Metadata.toStableId. split.
  - rewrite !is_ascii_app. cbn [Metadata.is_ascii].
    assert ((N_of_ascii "_" <? 128)%N = true) as -> by done.
    assert ((N_of_ascii "-" <? 128)%N = true) as -> by done.
    by rewrite dashes_hyphenate_separator.
  - rewrite !is_ascii_app. cbn [Metadata.is_ascii].
    assert ((N_of_ascii "-" <? 128)%N = true) as -> by done.
    cbn [andb]. by rewrite (hyphenate_camel a l u b Hl Hu).
Qed.

Lemma toStableId_collides_witness :
  Metadata.toStableId "process_Key" = Metadata.toStableId "process-Key"
  ∧ Metadata.toStableId "process1KKey" = Metadata.toStableId "process1-KKey".
Proof.
  apply (toStableId_collides "process" "Key" "1" "K"); reflexivity.
Defined.

(** ** metadata.ts: the operations *)

Lemma outcome_bind_Ret {A B} (m : outcome A) (f : A → outcome B) b :
  mbind (MBind:=Metadata.outcome_bind) f m = Ret b → ∃ a, m = Ret a ∧ f a = Ret b.
Proof. destruct m as [a| | |]; try done. intros H. by exists a. Qed.

Lemma operationId_truthy op method pathStr :
  json_truthy
    (Some match Metadata.field op "operationId" with
          | Some id =>
              if json_truthy (Some id) then id
              else JStr (method +:+ "_" +:+ pathStr)
          | None => JStr (method +:+ "_" +:+ pathStr)
          end) = true.
Proof.
  destruct (Metadata.field op "operationId") as [id|].
  - destruct (json_truthy (Some id)) eqn:T; [done|]. cbn. by destruct method.
  - cbn. by destruct method.
Qed.

Lemma operation_facts cs pathStr method op o :
  Metadata.operation cs pathStr method op = Ret o →
  operation_key o = (pathStr, method)
  ∧ json_truthy (Some (OperationSummary.operationId o)) = true
  ∧ (OperationSummary.requestBodyUnion o = true →
     OperationSummary.hasRequestBody o = true).
Proof.
  unfold Metadata.operation. intros H.
  apply outcome_bind_Ret in H as (raw & _ & H).
  apply outcome_bind_Ret in H as ([pp qp] & _ & H).
  apply outcome_bind_Ret in H as (body & Hbody & H).
  injection H as <-. split_and!; [done| |].
  - exact (operationId_truthy op method pathStr).
  - cbn [OperationSummary.requestBodyUnion OperationSummary.hasRequestBody].
    destruct (json_truthy (Metadata.field op "requestBody")); [done|].
    by injection Hbody as <-.
Qed.

Lemma path_operations_pushed cs pathStr pathObj methods : ∀ st st',
  Metadata.path_operations cs pathStr pathObj methods st = Ret st' →
  ∃ new,
    st'.2 = (st.2 ++ new)%list
    ∧ st'.1
      = (st.1 ++ (Metadata.eventually_consistent <$>
                    filter (λ o, OperationSummary.eventuallyConsistent o = true) new))%list
    ∧ (operation_key <$> new) `sublist_of` ((λ m, (pathStr, m)) <$> methods)
    ∧ Forall (λ o, json_truthy (Some (OperationSummary.operationId o)) = true
                   ∧ (OperationSummary.requestBodyUnion o = true →
                      OperationSummary.hasRequestBody o = true)) new.
Proof.
  induction methods as [|m methods IH]; intros st st' H.
  - injection H as <-. exists []. by rewrite !app_nil_r.
  - cbn [Metadata.path_operations] in H.
    destruct (Metadata.field pathObj m) as [op|].
    2: { destruct (IH _ _ H) as (new & ? & ? & ? & ?). exists new.
         split_and!; try done. rewrite fmap_cons. by apply sublist_cons. }
    destruct (json_truthy (Some op)).
    2: { destruct (IH _ _ H) as (new & ? & ? & ? & ?). exists new.
         split_and!; try done. rewrite fmap_cons. by apply sublist_cons. }
    apply outcome_bind_Ret in H as (o & Ho & H).
    destruct (operation_facts _ _ _ _ _ Ho) as (Hk & Hid & Hrb).
    destruct (IH _ _ H) as (new & H2 & H1 & Hs & Hf).
    cbn [fst snd] in H1, H2.
    exists (o :: new). split_and!.
    + by rewrite H2, <- app_assoc.
    + rewrite H1, filter_cons.
      destruct (OperationSummary.eventuallyConsistent o) eqn:E.
      * rewrite decide_True by done. by rewrite fmap_cons, <- app_assoc.
      * rewrite decide_False by done. done.
    + rewrite !fmap_cons, Hk. by apply sublist_skip.
    + by constructor.
Qed.

Lemma all_operations_pushed cs entries : ∀ st st',
  Metadata.all_operations cs entries st = Ret st' →
  ∃ new,
    st'.2 = (st.2 ++ new)%list
    ∧ st'.1
      = (st.1 ++ (Metadata.eventually_consistent <$>
                    filter (λ o, OperationSummary.eventuallyConsistent o = true) new))%list
    ∧ (operation_key <$> new) `sublist_of` operation_keys entries
    ∧ Forall (λ o, json_truthy (Some (OperationSummary.operationId o)) = true
                   ∧ (OperationSummary.requestBodyUnion o = true →
                      OperationSummary.hasRequestBody o = true)) new.
Proof.
  induction entries as [|[p item] entries IH]; intros st st' H.
  - injection H as <-. exists []. by rewrite !app_nil_r.
  - cbn [Metadata.all_operations] in H.
    assert (Hk : operation_keys ((p, item) :: entries)
                 = (((λ m, (p, m)) <$> Metadata.HTTP_METHODS)
                    ++ operation_keys entries)%list).
    { done. }
    rewrite Hk.
    destruct (negb (json_truthy (Some item)) || negb (Metadata.is_object item)).
    + destruct (IH _ _ H) as (new & ? & ? & ? & ?). exists new.
      split_and!; try done. by apply sublist_inserts_l.
    + apply outcome_bind_Ret in H as (st1 & H1 & H).
      destruct (path_operations_pushed _ _ _ _ _ _ H1) as (n1 & P2 & P1 & Ps & Pf).
      destruct (IH _ _ H) as (n2 & G2 & G1 & Gs & Gf).
      exists (n1 ++ n2)%list. split_and!.
      * by rewrite G2, P2, <- app_assoc.
      * by rewrite G1, P1, filter_app, fmap_app, <- !app_assoc.
      * rewrite fmap_app. by apply sublist_app.
      * by apply Forall_app.
Qed.

Lemma extractOperations_pushed spec ecs ops :
  Metadata.extractOperations spec = Ret (ecs, ops) →
  ecs = Metadata.eventually_consistent <$>
          filter (λ o, OperationSummary.eventuallyConsistent o = true) ops
  ∧ (∀ paths, Metadata.field spec "paths" = Some (JObj paths) →
              (operation_key <$> ops) `sublist_of` operation_keys paths)
  ∧ Forall (λ o, json_truthy (Some (OperationSummary.operationId o)) = true
                 ∧ (OperationSummary.requestBodyUnion o = true →
                    OperationSummary.hasRequestBody o = true)) ops.
Proof.
  unfold Metadata.extractOperations. intros H.
  apply outcome_bind_Ret in H as (paths & Hp & H).
  assert (paths = Metadata.field spec "paths") as ->.
  { destruct spec; cbn [Metadata.read] in Hp; congruence. }
  destruct (Metadata.field spec "paths") as [p|] eqn:Ep;
    [|injection H as <- <-; split_and!; [done|done|constructor]].
  destruct (json_truthy (Some p)) eqn:Tp;
    [|injection H as <- <-; split_and!; [done| |constructor]].
  2: { intros paths [= ->]. done. }
  destruct (all_operations_pushed _ _ _ _ H) as (new & H2 & H1 & Hs & Hf).
  cbn [fst snd app] in H1, H2. subst. split_and!; [done| |done].
  by intros paths [= ->].
Qed.

(** X25: whenever [extractOperations] returns, the eventually consistent
    operations are the operations flagged as such, in the same order and
    with the same id, path, method and tags. *)
Theorem extractOperations_eventually_consistent spec ecs ops :
  Metadata.extractOperations spec = Ret (ecs, ops) →
  ecs = Metadata.eventually_consistent <$>
          filter (λ o, OperationSummary.eventuallyConsistent o = true) ops.
Proof. intros H. by apply extractOperations_pushed in H as (? & _). Qed.

Lemma extractOperations_eventually_consistent_witness :
  Samples.operations_result.1
  = Metadata.eventually_consistent <$>
      filter (λ o, OperationSummary.eventuallyConsistent o = true)
        Samples.operations_result.2.
Proof.
  apply (extractOperations_eventually_consistent Samples.operations_doc).
  reflexivity.
Defined.

(** X26: the operations come in the order of the paths of the document
    and, within a path, in the fixed order get, post, put, patch, delete,
    head, options, trace, whatever the order of the path item, each at
    most once; each has an operation id that is truthy, and a request body
    if it is said to have a union as request body. *)
Theorem extractOperations_order spec paths ecs ops :
  Metadata.field spec "paths" = Some (JObj paths) →
  Metadata.extractOperations spec = Ret (ecs, ops) →
  (operation_key <$> ops) `sublist_of` operation_keys paths
  ∧ Forall (λ o, json_truthy (Some (OperationSummary.operationId o)) = true
                 ∧ (OperationSummary.requestBodyUnion o = true →
                    OperationSummary.hasRequestBody o = true)) ops.
Proof.
  intros Hp H. apply extractOperations_pushed in H as (_ & Hs & Hf). auto.
Qed.

Lemma extractOperations_order_witness :
  (operation_key <$> Samples.operations_result.2)
    `sublist_of` operation_keys Samples.operations_paths
  ∧ Forall (λ o, json_truthy (Some (OperationSummary.operationId o)) = true
                 ∧ (OperationSummary.requestBodyUnion o = true →
                    OperationSummary.hasRequestBody o = true))
      Samples.operations_result.2.
Proof.
  apply (extractOperations_order Samples.operations_doc
           Samples.operations_paths Samples.operations_result.1);
    reflexivity.
Defined.

(** ** metadata.ts: the schemas *)

Lemma collect_elem {A} (body : string → json → outcome (option A)) entries :
  ∀ acc r x,
    Metadata.collect body entries acc = Ret r → x ∈ r →
    x ∈ acc ∨ ∃ name schema, (name, schema) ∈ entries ∧ body name schema = Ret (Some x).
Proof.
  induction entries as [|[n s] entries IH]; intros acc r x H Hx.
  - injection H as <-. by left.
  - cbn [Metadata.collect] in H. unfold mbind, Metadata.outcome_bind in H.
    destruct (body n s) as [e| | |] eqn:E; try done.
    destruct (IH _ _ _ H Hx) as [Hacc|(n' & s' & Hin & Hb)].
    + destruct e as [y|]; [|by left].
      apply elem_of_app in Hacc as [?|Hy%list_elem_of_singleton]; [by left|].
      subst y. right. exists n, s. split; [left|done].
    + right. exists n', s'. split; [by right|done].
Qed.

Lemma collect_runs {A} (body : string → json → outcome (option A)) entries :
  ∀ acc r name schema,
    Metadata.collect body entries acc = Ret r → (name, schema) ∈ entries →
    ∃ e, body name schema = Ret e.
Proof.
  induction entries as [|[n s] entries IH]; intros acc r name schema H Hin.
  - by apply elem_of_nil in Hin.
  - cbn [Metadata.collect] in H. unfold mbind, Metadata.outcome_bind in H.
    destruct (body n s) as [e| | |] eqn:E; try done.
    apply elem_of_cons in Hin as [[= -> ->]|Hin]; [by exists e|].
    by apply (IH _ _ _ _ H Hin).
Qed.

Lemma semantic_key_pushed longKey name schema k :
  Metadata.semantic_key longKey name schema = Ret (Some k) →
  SemanticKeyEntry.name k = name
  ∧ name ≠ "LongKey" ∧ name ≠ "CamundaKey"
  ∧ is_union schema = false
  ∧ SemanticKeyEntry.semanticKey (SemanticKeyEntry.flags k) = true.
Proof.
  unfold Metadata.semantic_key.
  destruct (String.eqb_spec name "LongKey"); [done|].
  destruct (String.eqb_spec name "CamundaKey"); [done|]. cbn [orb].
  unfold mbind, Metadata.outcome_bind.
  destruct (Metadata.read schema "allOf") as [all| | |]; try done.
  fold (is_union schema). destruct (is_union schema); [done|].
  destruct (_ || _) eqn:Ek; [|done]. cbn [negb].
  match goal with |- context [match ?m with Ret _ => _ | _ => _ end] =>
    destruct m as [st| | |]; try done end.
  match goal with |- context [match ?m with Ret _ => _ | _ => _ end] =>
    destruct m as [cs| | |]; try done end.
  destruct (Metadata.toStableId name); try done.
  by intros [= <-].
Qed.

Lemma union_pushed name schema u :
  Metadata.union name schema = Ret (Some u) →
  UnionEntry.name u = name ∧ is_union schema = true
  ∧ (UnionEntry.kind u = UnionEntry.union_wrapper
     ↔ Forall (λ br, Metadata.is_ref br = true) (UnionEntry.branches u)).
Proof.
  unfold Metadata.union, mbind, Metadata.outcome_bind.
  destruct (Metadata.read schema "oneOf") as [oneOf| | |] eqn:E; try done.
  assert (oneOf = Metadata.field schema "oneOf") as ->.
  { destruct schema; cbn [Metadata.read] in E; congruence. }
  unfold is_union.
  destruct (Metadata.is_array (Metadata.field schema "oneOf")),
    (Metadata.is_array (Metadata.field schema "anyOf")); cbn [negb andb orb];
    try done.
  all: match goal with |- context [match ?m with Some _ => _ | None => _ end] =>
    destruct m as [[]|]; try done end.
  all: destruct (Metadata.union_branches _ _) as [branches| | |]; try done.
  all: destruct (Metadata.toStableId name); try done.
  all: intros [= <-]; cbn [UnionEntry.name UnionEntry.kind UnionEntry.branches].
  all: split_and!; try done.
  all: destruct (forallb Metadata.is_ref branches) eqn:F;
    [apply forallb_Forall in F
    |split; [done|intros H%forallb_Forall; congruence]];
    done.
Qed.

Lemma elem_of_unique_key {V} (o : list (string * V)) k v v' :
  NoDup (Obj.keys o) → (k, v) ∈ o → (k, v') ∈ o → v = v'.
Proof.
  unfold Obj.keys. change (map fst o) with (fst <$> o).
  induction o as [|[k0 v0] o IH]; intros Hn H1 H2; [by apply elem_of_nil in H1|].
  rewrite fmap_cons in Hn. apply NoDup_cons in Hn as [Hk Hn].
  apply elem_of_cons in H1 as [E1|H1]; apply elem_of_cons in H2 as [E2|H2].
  - congruence.
  - injection E1 as -> ->. destruct Hk.
    by apply (list_elem_of_fmap_2 fst _ (k0, v')).
  - injection E2 as -> ->. destruct Hk.
    by apply (list_elem_of_fmap_2 fst _ (k0, v)).
  - auto.
Qed.

(** X27: no schema is both a semantic key and a union: the names of the
    semantic keys, none of them [LongKey] or [CamundaKey], are not names
    of unions, and each semantic key is flagged as one. *)
Theorem semantic_keys_apart_from_unions schemas keys unions k :
  NoDup (Obj.keys schemas) →
  Metadata.extractSemanticKeys schemas = Ret keys →
  Metadata.extractUnions schemas = Ret unions →
  k ∈ keys →
  SemanticKeyEntry.name k ≠ "LongKey"
  ∧ SemanticKeyEntry.name k ≠ "CamundaKey"
  ∧ SemanticKeyEntry.semanticKey (SemanticKeyEntry.flags k) = true
  ∧ ∀ u, u ∈ unions → UnionEntry.name u ≠ SemanticKeyEntry.name k.
Proof.
  intros Hn Hk Hu Hin.
  destruct (collect_elem _ _ _ _ _ Hk Hin) as [Hx|(n & s & Hs & Hb)];
    [by apply elem_of_nil in Hx|].
  apply semantic_key_pushed in Hb as (Hname & H1 & H2 & Hun & Hf).
  rewrite Hname. split_and!; try done.
  intros u Hu'.
  destruct (collect_elem _ _ _ _ _ Hu Hu') as [Hx|(n' & s' & Hs' & Hb')];
    [by apply elem_of_nil in Hx|].
  apply union_pushed in Hb' as (Hname' & Hun' & _).
  rewrite Hname'. intros ->.
  rewrite (elem_of_unique_key _ _ _ _ Hn Hs Hs') in Hun. congruence.
Qed.

Lemma semantic_keys_apart_from_unions_witness :
  ∃ k, Metadata.extractSemanticKeys Samples.metadata_schemas = Ret [k]
  ∧ SemanticKeyEntry.name k ≠ "LongKey"
  ∧ SemanticKeyEntry.name k ≠ "CamundaKey"
  ∧ SemanticKeyEntry.semanticKey (SemanticKeyEntry.flags k) = true
  ∧ ∀ u, u ∈ default [] (match Metadata.extractUnions Samples.metadata_schemas with
                         | Ret us => Some us | _ => None end) →
         UnionEntry.name u ≠ SemanticKeyEntry.name k.
Proof.
  eexists. split; [reflexivity|].
  eapply (semantic_keys_apart_from_unions Samples.metadata_schemas);
    [|reflexivity|reflexivity|by left].
  unfold Obj.keys. cbn. apply (bool_decide_unpack _). by vm_compute.
Defined.

(** X28: a schema that is null makes the extraction of the unions and of
    the array schemas raise: neither returns. *)
Theorem null_schema_raises schemas name :
  (name, JNull) ∈ schemas →
  (∀ unions, Metadata.extractUnions schemas ≠ Ret unions)
  ∧ (∀ arrays, Metadata.extractArraySchemas schemas ≠ Ret arrays).
Proof.
  intros Hin. split.
  - intros r H. by destruct (collect_runs _ _ _ _ _ _ H Hin) as [e He].
  - intros r H. by destruct (collect_runs _ _ _ _ _ _ H Hin) as [e He].
Qed.

Lemma null_schema_raises_witness :
  (∀ unions, Metadata.extractUnions [("Job", JObj []); ("Empty", JNull)] ≠ Ret unions)
  ∧ (∀ arrays, Metadata.extractArraySchemas [("Job", JObj []); ("Empty", JNull)]
               ≠ Ret arrays).
Proof.
  apply (null_schema_raises [("Job", JObj []); ("Empty", JNull)] "Empty").
  apply list_elem_of_further, list_elem_of_here.
Defined.

(** ** helpers.ts: the walk ends *)

Lemma stored_values_delete h l c :
  h !! l = Some c →
  stored_values h = (length (cell_values c) + stored_values (delete l h))%nat.
Proof.
  intros H. unfold stored_values.
  apply (map_fold_delete_L (λ _ c n, length (cell_values c) + n)%nat); [|done].
  intros. lia.
Qed.

Lemma find_loop_returns h :
  closed h →
  ∀ fuel stack seen count (rest : gmap loc cell),
    (∀ l, rest !! l = if decide (l ∈ seen) then None else h !! l) →
    (∀ l, VRef l ∈ stack → is_Some (h !! l)) →
    (length stack + stored_values rest ≤ fuel)%nat →
    is_Some (findPathLocalLikeRefs_loop fuel h stack seen count).
Proof.
  intros Hcl. induction fuel as [|fuel IH]; intros stack seen count rest Hr Hs Hf.
  - destruct stack; [done|]. cbn [length] in Hf. lia.
  - destruct stack as [|node stack]; [done|].
    cbn [findPathLocalLikeRefs_loop]. cbn [length] in Hf.
    assert (Hs' : ∀ l, VRef l ∈ stack → is_Some (h !! l)).
    { intros l Hl. apply Hs. by right. }
    destruct node as [| | | |l]; try (apply (IH _ _ _ rest); [done|done|lia]).
    destruct (decide (l ∈ seen)) as [Hl|Hl]; [apply (IH _ _ _ rest); [done|done|lia]|].
    destruct (Hs l) as [c Hc]; [by left|]. rewrite Hc.
    assert (Hrl : rest !! l = Some c).
    { rewrite Hr. by rewrite decide_False. }
    pose proof (stored_values_delete rest l c Hrl) as Hw.
    assert (Hr' : ∀ l0, delete l rest !! l0
                        = if decide (l0 ∈ {[l]} ∪ seen) then None else h !! l0).
    { intros l0. destruct (decide (l0 = l)) as [->|Hne].
      - rewrite lookup_delete_eq. rewrite decide_True by set_solver. done.
      - rewrite lookup_delete_ne by done. rewrite Hr.
        destruct (decide (l0 ∈ seen)).
        + by rewrite decide_True by set_solver.
        + by rewrite decide_False by set_solver. }
    assert (Hpush : ∀ l0, VRef l0 ∈ push_all (cell_values c) stack →
                          is_Some (h !! l0)).
    { intros l0 [H|H]%elem_of_push_all; [by apply (Hcl l c)|by apply Hs']. }
    assert (Hlen : (length (push_all (cell_values c) stack)
                    + stored_values (delete l rest) ≤ fuel)%nat).
    { unfold push_all. rewrite length_app, length_rev. lia. }
    destruct c as [props|items]; by apply (IH _ _ _ (delete l rest)).
Qed.

(** X29: the count of the path-local $like references ends on every
    document without dangling parts, with shared parts and cycles or
    without: it returns within as many steps as the objects and arrays of
    the document hold values, and one more. *)
Theorem findPathLocalLikeRefs_returns fuel h root :
  closed h → is_Some (h !! root) → (stored_values h < fuel)%nat →
  ∃ n, findPathLocalLikeRefs fuel h (VRef root) = Some n.
Proof.
  intros Hcl Hroot Hf. unfold findPathLocalLikeRefs.
  apply (find_loop_returns h Hcl fuel [VRef root] ∅ O h).
  - intros l. by rewrite decide_False by set_solver.
  - by intros l [= ->]%list_elem_of_singleton.
  - cbn [length]. lia.
Qed.

Lemma findPathLocalLikeRefs_returns_witness :
  ∃ n, findPathLocalLikeRefs 7 Samples.knot (VRef O) = Some n.
Proof.
  apply (findPathLocalLikeRefs_returns 7 Samples.knot O).
  - intros l c l' Hc Hin. unfold Samples.knot in *.
    destruct (decide (l = O)) as [->|H0];
      [|destruct (decide (l = 1%nat)) as [->|H1]].
    + rewrite lookup_insert_eq in Hc. injection Hc as <-.
      cbn in Hin. set_unfold in Hin.
      destruct Hin as [?|[[= ->]|[[= ->]|[]]]]; done.
    + rewrite lookup_insert_ne, lookup_singleton_eq in Hc by done.
      injection Hc as <-. cbn in Hin. set_unfold in Hin.
      destruct Hin as [[= ->]|[[= ->]|[?|[]]]]; done.
    + by rewrite lookup_insert_ne, lookup_singleton_ne in Hc.
  - done.
  - vm_compute. lia.
Defined.

(** ** bundle.ts: the components of the document *)

Lemma get_set_same {V} k (v : V) o :
  k ≠ "__proto__" → Obj.get k (Obj.set k v o) = Some v.
Proof.
  intros Hk. unfold Obj.set.
  destruct (String.eqb_spec k "__proto__"); [done|].
  rewrite andb_false_r, get_define. by rewrite decide_True.
Qed.

Lemma ensureComponents_present σ doc c :
  components_at σ doc c → ensureComponents doc σ = Ret (c, σ).
Proof.
  intros (dp & cp & Hd & Hc & Hcc & Hs).
  unfold ensureComponents.
  rewrite (bind_eq _ _ _ _ _ (read_eq _ _ _ Hd)). cbn [cell_get].
  rewrite Hc. cbn [truthy_opt truthy].
  unfold mbind at 1, M_bind at 1. cbn [mret M_ret].
  rewrite (bind_eq _ _ _ _ _ (read_eq _ _ _ Hd)). cbn [cell_get]. rewrite Hc.
  rewrite (bind_eq _ _ _ _ _ (read_eq _ _ _ Hcc)). cbn [cell_get].
  rewrite Hs. done.
Qed.

Lemma ensureComponents_creates σ doc props :
  cells σ !! doc = Some (CObj props) → fresh_next σ → components_fit σ props →
  ∃ c σ', ensureComponents doc σ = Ret (c, σ') ∧ components_at σ' doc c.
Proof.
  intros Hd Hf Hfit. assert (Hdoc : (doc < next σ)%nat) by (apply Hf; eauto).
  unfold components_fit in Hfit.
  destruct (truthy_opt (Obj.get "components" props)) eqn:Tc.
  - destruct (Obj.get "components" props) as [[| | | |comp]|] eqn:Gc;
      try (cbn in Tc, Hfit; congruence).
    destruct Hfit as [cp Hcc].
    assert (Hcomp : (comp < next σ)%nat) by (apply Hf; eauto).
    destruct (truthy_opt (Obj.get "schemas" cp)) eqn:Ts.
    { exists comp, σ. split; [apply ensureComponents_present|]; by exists props, cp. }
    exists comp,
      (Store (<[comp := CObj (Obj.set "schemas" (VRef (next σ)) cp)]>
                (<[next σ := CObj []]> (cells σ))) (S (next σ))).
    split.
    + unfold ensureComponents.
      rewrite (bind_eq _ _ _ _ _ (read_eq _ _ _ Hd)). cbn [cell_get].
      rewrite Gc. cbn [truthy_opt truthy].
      unfold mbind at 1, M_bind at 1. cbn [mret M_ret].
      rewrite (bind_eq _ _ _ _ _ (read_eq _ _ _ Hd)). cbn [cell_get]. rewrite Gc.
      rewrite (bind_eq _ _ _ _ _ (read_eq _ _ _ Hcc)). cbn [cell_get].
      rewrite Ts. reflexivity.
    + cbn [cells]. destruct (decide (doc = comp)) as [->|Hne].
      * assert (cp = props) as -> by congruence.
        eexists _, _. split_and!; cbn [cells].
        -- apply lookup_insert_eq.
        -- by rewrite get_set_ne.
        -- apply lookup_insert_eq.
        -- by rewrite get_set_same.
      * eexists _, _. split_and!; cbn [cells].
        -- rewrite !lookup_insert_ne by lia. apply Hd.
        -- done.
        -- apply lookup_insert_eq.
        -- by rewrite get_set_same.
  - exists (next σ),
      (Store (<[next σ := CObj [("schemas", VRef (S (next σ)))]]>
                (<[S (next σ) := CObj []]>
                   (<[doc := CObj (Obj.set "components" (VRef (next σ)) props)]>
                      (<[next σ := CObj []]> (cells σ))))) (S (S (next σ)))).
    split.
    + unfold ensureComponents.
      rewrite (bind_eq _ _ _ _ _ (read_eq _ _ _ Hd)). cbn [cell_get].
      rewrite Tc.
      unfold mbind at 1 2, M_bind at 1 2, alloc, write. cbn [cells next].
      unfold mbind at 1, M_bind at 1, read. cbn [cells next].
      rewrite lookup_insert_eq. cbn [set_prop cell_get].
      rewrite get_set_same by done.
      unfold mbind at 1, M_bind at 1. cbn [cells next].
      rewrite lookup_insert_ne, lookup_insert_eq by lia.
      cbn [cell_get Obj.get truthy_opt]. reflexivity.
    + cbn [cells]. eexists _, _. split_and!; cbn [cells].
      * rewrite !lookup_insert_ne by lia. apply lookup_insert_eq.
      * by apply get_set_same.
      * apply lookup_insert_eq.
      * done.
Qed.

(** X30: on a document that is an object, whose [components] is missing,
    falsy or an object that is no array, in a store whose addresses in use
    are below the next one, [ensureComponents] returns: the object that is
    [doc.components] afterwards, which has a truthy [schemas].  It changes
    nothing when the document had such a [components] before, and a
    second call returns the same object and changes nothing. *)
Theorem ensureComponents_settles σ doc props :
  cells σ !! doc = Some (CObj props) → fresh_next σ → components_fit σ props →
  ∃ c σ',
    ensureComponents doc σ = Ret (c, σ')
    ∧ components_at σ' doc c
    ∧ ensureComponents doc σ' = Ret (c, σ')
    ∧ (∀ c0, components_at σ doc c0 → c0 = c ∧ σ' = σ).
Proof.
  intros Hd Hf Hfit.
  destruct (ensureComponents_creates _ _ _ Hd Hf Hfit) as (c & σ' & Hrun & Hat).
  exists c, σ'. split_and!; [done|done|by apply ensureComponents_present|].
  intros c0 H0. apply ensureComponents_present in H0.
  rewrite H0 in Hrun. by injection Hrun as -> ->.
Qed.

Lemma ensureComponents_settles_witness :
  ∃ c σ',
    ensureComponents O (Store {[ O := CObj [("paths", VNull)] ]} 1) = Ret (c, σ')
    ∧ components_at σ' O c
    ∧ ensureComponents O σ' = Ret (c, σ')
    ∧ (∀ c0, components_at (Store {[ O := CObj [("paths", VNull)] ]} 1) O c0 →
             c0 = c ∧ σ' = Store {[ O := CObj [("paths", VNull)] ]} 1).
Proof.
  apply (ensureComponents_settles
           (Store {[ O := CObj [("paths", VNull)] ]} 1) O [("paths", VNull)]).
  - done.
  - intros l [c Hc]. cbn [cells next] in *.
    destruct (decide (l = O)) as [->|Hne]; [lia|].
    by rewrite lookup_singleton_ne in Hc.
  - done.
Defined.
